(** * Syllabus change detection: canonicalisation, fingerprints, snapshots,
      reconciliation and the detail-fetch worker pool

    A shallow embedding of [src/utils.ts], [src/storage.ts] and of the
    worker pool of [src/scrape.ts], with the properties the design document
    states about them.

    JavaScript strings are sequences of UTF-16 code units; a code unit is
    an [N] below 65536.  A [Map] is an insertion-ordered association list
    with unique keys.  Code that can throw returns a [Completion]. *)

From Stdlib Require Import String Ascii List NArith ZArith Lia Bool Permutation.
Import ListNotations.

(* ================================================================== *)
(** ** Strings *)
(* ================================================================== *)

Definition jsstring := list N.

(** A literal: the code units of an ASCII (Latin-1) text. *)
Definition js (s : string) : jsstring :=
  List.map N_of_ascii (list_ascii_of_string s).

Definition str_eqb (a b : jsstring) : bool :=
  if list_eq_dec N.eq_dec a b then true else false.

(** [Array.prototype.join]. *)
Fixpoint join (sep : jsstring) (parts : list jsstring) : jsstring :=
  match parts with
  | [] => []
  | [p] => p
  | p :: rest => p ++ sep ++ join sep rest
  end.

Module Ch.
Definition TAB : N := 9.
Definition LF : N := 10.
Definition CR : N := 13.
Definition SP : N := 32.
Definition NBSP : N := 160.
End Ch.

(** The class [\s] of a regular expression, which is also what [trim]
    strips: WhiteSpace and LineTerminator of ECMA-262. *)
Definition is_ws (c : N) : bool :=
  ((9 <=? c) && (c <=? 13) || (c =? 32) || (c =? 160) || (c =? 5760)
   || (8192 <=? c) && (c <=? 8202) || (c =? 8232) || (c =? 8233)
   || (c =? 8239) || (c =? 8287) || (c =? 12288) || (c =? 65279))%N.

Fixpoint take_while (p : N -> bool) (s : jsstring) : jsstring :=
  match s with
  | c :: r => if p c then c :: take_while p r else []
  | [] => []
  end.

Fixpoint drop_while (p : N -> bool) (s : jsstring) : jsstring :=
  match s with
  | c :: r => if p c then drop_while p r else s
  | [] => []
  end.

(* ------------------------------------------------------------------ *)
(** *** [String.prototype.replace] with a global pattern *)

(** [match_at s] is the length of the match of the pattern at the start of
    [s], 0 when it does not match there (none of the patterns below matches
    the empty string).  The scan copies a code unit where nothing matches;
    where [S n] code units match it emits the replacement and passes over
    the other [n]. *)
Section Replace.
Variable match_at : jsstring -> nat.
Variable repl : jsstring.

Fixpoint replace_scan (skip : nat) (s : jsstring) : jsstring :=
  match s with
  | [] => []
  | c :: r =>
      match skip with
      | S k => replace_scan k r
      | O =>
          match match_at s with
          | O => c :: replace_scan 0 r
          | S n => repl ++ replace_scan n r
          end
      end
  end.

Definition replace_global (s : jsstring) : jsstring := replace_scan 0 s.
End Replace.

(** [/\r?\n+/]: an optional carriage return, then one or more line feeds. *)
Definition match_newlines (s : jsstring) : nat :=
  match s with
  | c :: r =>
      if (c =? Ch.CR)%N then
        match length (take_while (N.eqb Ch.LF) r) with
        | O => O
        | S n => S (S n)
        end
      else length (take_while (N.eqb Ch.LF) s)
  | [] => O
  end.

(** [/\s+/]. *)
Definition match_spaces (s : jsstring) : nat := length (take_while is_ws s).

(** [/\u00A0/]. *)
Definition match_nbsp (s : jsstring) : nat :=
  match s with
  | c :: _ => if (c =? Ch.NBSP)%N then 1 else 0
  | [] => 0
  end.

(** [String.prototype.trim]. *)
Definition trim (s : jsstring) : jsstring :=
  rev (drop_while is_ws (rev (drop_while is_ws s))).

(** [normalizeText] of [src/utils.ts]; the argument is a string, so
    [s ?? ""] is [s]. *)
Definition normalizeText (s : jsstring) : jsstring :=
  trim
    (replace_global match_nbsp [Ch.SP]
       (replace_global match_spaces [Ch.SP]
          (replace_global match_newlines [Ch.SP] s))).

(* ------------------------------------------------------------------ *)
(** *** What the design document says canonicalisation does *)

(** The words of a text: its maximal runs of code units that are not
    whitespace.  [words_aux] returns the word the text starts with (empty
    when it starts with whitespace) and the words after it. *)
Definition cons_word (w : jsstring) (ws : list jsstring) : list jsstring :=
  match w with
  | [] => ws
  | _ => w :: ws
  end.

Fixpoint words_aux (s : jsstring) : jsstring * list jsstring :=
  match s with
  | [] => ([], [])
  | c :: r =>
      let (w, ws) := words_aux r in
      if is_ws c then ([], cons_word w ws) else (c :: w, ws)
  end.

Definition words (s : jsstring) : list jsstring :=
  let (w, ws) := words_aux s in cons_word w ws.

(** Every run of whitespace inside the text becomes one space, the runs at
    both ends disappear. *)
Definition collapse_whitespace (s : jsstring) : jsstring :=
  join [Ch.SP] (words s).


(* ================================================================== *)
(** ** Records, maps and the reconciler *)
(* ================================================================== *)

(** [Course] of [src/types.ts]; [room] and [updatedAt] are optional. *)
Record Course := {
  id : jsstring;
  title : jsstring;
  instructor : jsstring;
  term : jsstring;
  dayPeriod : jsstring;
  room : option jsstring;
  updatedAt : option jsstring;
  bodyText : jsstring;
  detailUrl : jsstring;
  hash : jsstring
}.

Record Change := { before : Course; after : Course }.

Record DiffResult := {
  added : list Course;
  changed : list Change;
  removed : list Course
}.

(** A JavaScript [Map]: its entries in insertion order.  [set] on a key the
    map has replaces the value where the key stands, [set] on a new key
    appends. *)
Section JsMap.
Variables K V : Type.
Variable key_eqb : K -> K -> bool.

Definition JsMap := list (K * V).

Fixpoint Map_get (m : JsMap) (k : K) : option V :=
  match m with
  | [] => None
  | (k', v) :: r => if key_eqb k' k then Some v else Map_get r k
  end.

Definition Map_has (m : JsMap) (k : K) : bool :=
  match Map_get m k with
  | Some _ => true
  | None => false
  end.

Fixpoint Map_set (m : JsMap) (k : K) (v : V) : JsMap :=
  match m with
  | [] => [(k, v)]
  | (k', v') :: r =>
      if key_eqb k' k then (k', v) :: r else (k', v') :: Map_set r k v
  end.

(** [new Map(entries)]: the entries are set one after the other. *)
Definition new_Map (entries : list (K * V)) : JsMap :=
  fold_left (fun m kv => Map_set m (fst kv) (snd kv)) entries [].

Definition Map_keys (m : JsMap) : list K := map fst m.
End JsMap.

Arguments Map_get {K V} key_eqb m k.
Arguments Map_has {K V} key_eqb m k.
Arguments Map_set {K V} key_eqb m k v.
Arguments new_Map {K V} key_eqb entries.
Arguments Map_keys {K V} m.

Definition CourseMap := JsMap jsstring Course.

Definition get (m : CourseMap) (k : jsstring) : option Course :=
  Map_get str_eqb m k.

Definition has (m : CourseMap) (k : jsstring) : bool :=
  Map_has str_eqb m k.

(** [new Map(arr.map(c => [c.id, c]))], as [main] builds the current
    snapshot. *)
Definition snapshot_of (arr : list Course) : CourseMap :=
  new_Map str_eqb (map (fun c => (id c, c)) arr).

(** [compareCourses] of [src/utils.ts]: two loops that push onto three
    arrays.  A value of a [Map<string, Course>] is an object, so [!p] holds
    exactly when the key is missing. *)
Definition compareCourses (prev curr : CourseMap) : DiffResult :=
  let '(added, changed) :=
    fold_left
      (fun (acc : list Course * list Change) (e : jsstring * Course) =>
         let '(added, changed) := acc in
         let '(id, c) := e in
         match get prev id with
         | None => (added ++ [c], changed)
         | Some p =>
             if negb (str_eqb (hash p) (hash c))
             then (added, changed ++ [{| before := p; after := c |}])
             else (added, changed)
         end)
      curr ([], []) in
  let removed :=
    fold_left
      (fun (removed : list Course) (e : jsstring * Course) =>
         let '(id, p) := e in
         if negb (has curr id) then removed ++ [p] else removed)
      prev [] in
  {| added := added; changed := changed; removed := removed |}.

(** A snapshot maps the identifier of a record to the record: no key
    twice, and every record under its own [id]. *)
Definition Snapshot_ok (m : CourseMap) : Prop :=
  NoDup (Map_keys m) /\ Forall (fun e => fst e = id (snd e)) m.

(** The identifiers both snapshots have with the same fingerprint. *)
Definition unchanged (prev curr : CourseMap) : list jsstring :=
  map fst
    (filter
       (fun e => match get prev (fst e) with
                 | Some p => str_eqb (hash p) (hash (snd e))
                 | None => false
                 end)
       curr).


(** Records and snapshots to try the reconciler on. *)
Module Sample.
Definition course (i t fp : string) : Course :=
  {| id := js i; title := js t; instructor := js "Sato"; term := js "2025";
     dayPeriod := js "Mon 1"; room := Some (js "R101"); updatedAt := None;
     bodyText := js "body"; detailUrl := js "https://portal/detail";
     hash := js fp |}.

Definition prev : CourseMap :=
  snapshot_of [course "C1" "Logic" "a"; course "C2" "Algebra" "b";
               course "C3" "Physics" "c"].
Definition curr : CourseMap :=
  snapshot_of [course "C1" "Logic, renamed" "a"; course "C2" "Algebra" "z";
               course "C4" "Biology" "d"].
End Sample.

(* ------------------------------------------------------------------ *)
(** *** Auxiliary definitions for the reconciler *)

(** The three arrays, without the loops. *)
Definition added_of (prev curr : CourseMap) : list Course :=
  map snd (filter (fun e => negb (has prev (fst e))) curr).

Definition change_of (prev : CourseMap) (e : jsstring * Course) : list Change :=
  match get prev (fst e) with
  | Some p =>
      if negb (str_eqb (hash p) (hash (snd e)))
      then [{| before := p; after := snd e |}] else []
  | None => []
  end.

Definition changed_of (prev curr : CourseMap) : list Change :=
  flat_map (change_of prev) curr.

Definition removed_of (prev curr : CourseMap) : list Course :=
  map snd (filter (fun e => negb (has curr (fst e))) prev).

Definition differs (p c : Course) : bool := negb (str_eqb (hash p) (hash c)).
Definition agrees (p c : Course) : bool := str_eqb (hash p) (hash c).

Ltac class_contra :=
  repeat match goal with
         | H : _ /\ _ |- _ => destruct H
         | H : exists _, _ |- _ => destruct H
         end;
  congruence.

(* ------------------------------------------------------------------ *)
(** *** Auxiliary definitions for canonicalisation *)

(** What [replace(/\s+/g, " ")] computes, by one pass: a space where a run
    of whitespace ends. *)
Fixpoint squeeze (s : jsstring) : jsstring :=
  match s with
  | [] => []
  | c :: r =>
      if is_ws c then
        match r with
        | d :: _ => if is_ws d then squeeze r else Ch.SP :: squeeze r
        | [] => [Ch.SP]
        end
      else c :: squeeze r
  end.

Definition starts_ws (s : jsstring) : bool :=
  match s with
  | c :: _ => is_ws c
  | [] => false
  end.

Fixpoint ends_ws (s : jsstring) : bool :=
  match s with
  | [] => false
  | [c] => is_ws c
  | _ :: r => ends_ws r
  end.

(** The only whitespace is the space, and no two spaces are adjacent. *)
Fixpoint squeezed (s : jsstring) : Prop :=
  match s with
  | [] => True
  | c :: r =>
      (is_ws c = true -> c = Ch.SP /\ starts_ws r = false) /\ squeezed r
  end.

(** A canonical text: squeezed, and no whitespace at either end. *)
Definition canonical (s : jsstring) : Prop :=
  squeezed s /\ starts_ws s = false /\ ends_ws s = false.

(** A pattern that matches whitespace only. *)
Definition matches_ws (match_at : jsstring -> nat) : Prop :=
  forall s n, match_at s = S n ->
    S n <= length s /\ Forall (fun c => is_ws c = true) (firstn (S n) s).

Definition drop_end_ws (s : jsstring) : jsstring :=
  rev (drop_while is_ws (rev s)).

Definition is_nil (s : jsstring) : bool :=
  match s with
  | [] => true
  | _ => false
  end.

(** The words after the first, each behind its space. *)
Definition spaced (ws : list jsstring) : jsstring :=
  concat (map (cons Ch.SP) ws).

(* ================================================================== *)
(** ** Fingerprints *)
(* ================================================================== *)

(** *** UTF-8, as [hash.update(string)] encodes its argument

    A surrogate pair is one code point of four bytes; a surrogate without
    its partner becomes U+FFFD. *)
Definition is_high_surrogate (c : N) : bool := ((55296 <=? c) && (c <=? 56319))%N.
Definition is_low_surrogate (c : N) : bool := ((56320 <=? c) && (c <=? 57343))%N.

Definition utf8_3 (c : N) : list N :=
  [N.lor 224 (N.shiftr c 12);
   N.lor 128 (N.land (N.shiftr c 6) 63);
   N.lor 128 (N.land c 63)].

Definition utf8_4 (cp : N) : list N :=
  [N.lor 240 (N.shiftr cp 18);
   N.lor 128 (N.land (N.shiftr cp 12) 63);
   N.lor 128 (N.land (N.shiftr cp 6) 63);
   N.lor 128 (N.land cp 63)].

Fixpoint utf8_encode (s : jsstring) : list N :=
  match s with
  | [] => []
  | c :: r =>
      if (c <? 128)%N then c :: utf8_encode r
      else if (c <? 2048)%N then
        N.lor 192 (N.shiftr c 6) :: N.lor 128 (N.land c 63) :: utf8_encode r
      else if is_high_surrogate c then
        match r with
        | d :: r' =>
            if is_low_surrogate d
            then utf8_4 (65536 + N.shiftl (c - 55296) 10 + (d - 56320))
                   ++ utf8_encode r'
            else utf8_3 65533 ++ utf8_encode r
        | [] => utf8_3 65533
        end
      else if is_low_surrogate c then utf8_3 65533 ++ utf8_encode r
      else utf8_3 c ++ utf8_encode r
  end.

(** *** SHA-256 (FIPS 180-4) on 32-bit words held in [N] *)
Module SHA256.
Definition mask32 : N := 4294967295.
Definition add32 (x y : N) : N := N.land (x + y) mask32.
Definition rotr (n x : N) : N :=
  N.lor (N.shiftr x n) (N.land (N.shiftl x (32 - n)) mask32).
Definition not32 (x : N) : N := N.lxor x mask32.

Definition Ch (x y z : N) : N := N.lxor (N.land x y) (N.land (not32 x) z).
Definition Maj (x y z : N) : N :=
  N.lxor (N.lxor (N.land x y) (N.land x z)) (N.land y z).
Definition Sigma0 (x : N) : N := N.lxor (N.lxor (rotr 2 x) (rotr 13 x)) (rotr 22 x).
Definition Sigma1 (x : N) : N := N.lxor (N.lxor (rotr 6 x) (rotr 11 x)) (rotr 25 x).
Definition sigma0 (x : N) : N := N.lxor (N.lxor (rotr 7 x) (rotr 18 x)) (N.shiftr x 3).
Definition sigma1 (x : N) : N := N.lxor (N.lxor (rotr 17 x) (rotr 19 x)) (N.shiftr x 10).

(** The first primes, by trial division. *)
Definition is_prime (n : N) : bool :=
  (1 <? n)%N
  && forallb (fun d => negb (n mod d =? 0)%N)
       (filter (fun d => (d * d <=? n)%N) (map N.of_nat (seq 2 (N.to_nat n)))).

Definition primes (count : nat) : list N :=
  firstn count (filter is_prime (map N.of_nat (seq 2 400))).

(** The integer cube root, one bit after the other from bit [bits - 1]. *)
Fixpoint cube_root (bits : nat) (x r : N) : N :=
  match bits with
  | O => r
  | S k =>
      let r' := (r + N.shiftl 1 (N.of_nat k))%N in
      cube_root k x (if (r' * r' * r' <=? x)%N then r' else r)
  end.

(** The round constants: the first 32 bits of the fractional parts of the
    cube roots of the first 64 primes. *)
Definition K : list N :=
  Eval vm_compute in
    map (fun p => N.land (cube_root 36 (N.shiftl p 96) 0) mask32) (primes 64).

(** The eight working words. *)
Record state := {
a : N; b : N; c : N; d : N; e : N; f : N; g : N; h : N
}.

(** The initial hash value: the first 32 bits of the fractional parts of
    the square roots of the first eight primes. *)
Definition H0 : state :=
  Eval vm_compute in
    match map (fun p => N.land (N.sqrt (N.shiftl p 64)) mask32) (primes 8) with
    | [a0; b0; c0; d0; e0; f0; g0; h0] =>
        {| a := a0; b := b0; c := c0; d := d0;
           e := e0; f := f0; g := g0; h := h0 |}
    | _ => {| a := 0; b := 0; c := 0; d := 0; e := 0; f := 0; g := 0; h := 0 |}
    end.

(** Message and padding: a one bit, zeros, and the length in bits on
    eight bytes, to a multiple of 64 bytes. *)
Definition be_bytes (n : nat) (x : N) : list N :=
  map (fun i => N.land (N.shiftr x (8 * N.of_nat i)) 255) (rev (seq 0 n)).

Definition pad (msg : list N) : list N :=
  let len := N.of_nat (length msg) in
  msg ++ [128%N]
      ++ repeat 0%N (N.to_nat ((119 - len mod 64) mod 64))
      ++ be_bytes 8 (8 * len).

Fixpoint be_words (bytes : list N) : list N :=
  match bytes with
  | b0 :: b1 :: b2 :: b3 :: r =>
      (N.shiftl b0 24 + N.shiftl b1 16 + N.shiftl b2 8 + b3)%N :: be_words r
  | _ => []
  end.

(** The message schedule: sixteen words of the block, then 48 more. *)
Fixpoint schedule (n : nat) (w : list N) : list N :=
  match n with
  | O => w
  | S n' =>
      let t := length w in
      let x i := nth (t - i) w 0%N in
      schedule n'
        (w ++ [add32 (add32 (add32 (sigma1 (x 2)) (x 7)) (sigma0 (x 15))) (x 16)])
  end.

Definition round (s : state) (kw : N * N) : state :=
  let t1 := add32 (add32 (add32 (add32 (h s) (Sigma1 (e s)))
                            (Ch (e s) (f s) (g s))) (fst kw)) (snd kw) in
  let t2 := add32 (Sigma0 (a s)) (Maj (a s) (b s) (c s)) in
  {| a := add32 t1 t2; b := a s; c := b s; d := c s;
     e := add32 (d s) t1; f := e s; g := f s; h := g s |}.

Definition compress (s : state) (block : list N) : state :=
  let w := schedule 48 (be_words block) in
  let r := fold_left round (combine K w) s in
  {| a := add32 (a s) (a r); b := add32 (b s) (b r);
     c := add32 (c s) (c r); d := add32 (d s) (d r);
     e := add32 (e s) (e r); f := add32 (f s) (f r);
     g := add32 (g s) (g r); h := add32 (h s) (h r) |}.

(** One block of 64 bytes after the other; [fuel] bounds the number of
    blocks. *)
Fixpoint blocks (fuel : nat) (s : state) (msg : list N) : state :=
  match fuel, msg with
  | S fuel', _ :: _ => blocks fuel' (compress s (firstn 64 msg)) (skipn 64 msg)
  | _, _ => s
  end.

Definition digest (msg : list N) : state :=
  let m := pad msg in blocks (length m) H0 m.

(** [digest("hex")]: lower-case hexadecimal, most significant first. *)
Definition hex_digit (d : N) : N := if (d <? 10)%N then 48 + d else 87 + d.

Definition hex32 (w : N) : jsstring :=
  map (fun i => hex_digit (N.land (N.shiftr w (4 * N.of_nat i)) 15))
    (rev (seq 0 8)).

Definition hex (s : state) : jsstring :=
  hex32 (a s) ++ hex32 (b s) ++ hex32 (c s) ++ hex32 (d s)
  ++ hex32 (e s) ++ hex32 (f s) ++ hex32 (g s) ++ hex32 (h s).
End SHA256.

(** [crypto.createHash("sha256").update(key).digest("hex")]. *)
Definition sha256_hex (key : jsstring) : jsstring :=
  SHA256.hex (SHA256.digest (utf8_encode key)).

(** [Omit<Course, "hash">]: a record that has no fingerprint yet. *)
Module Base.
Record t := {
  id : jsstring;
  title : jsstring;
  instructor : jsstring;
  term : jsstring;
  dayPeriod : jsstring;
  room : option jsstring;
  updatedAt : option jsstring;
  bodyText : jsstring;
  detailUrl : jsstring
}.
End Base.

(** [x ?? d]. *)
Definition nullish (x : option jsstring) (d : jsstring) : jsstring :=
  match x with
  | Some v => v
  | None => d
  end.

(** [makeHash] of [src/utils.ts]. *)
Definition makeHash (course : Base.t) : jsstring :=
  let key :=
    join (js "|")
      (map normalizeText
         [Base.title course; Base.instructor course; Base.term course;
          Base.dayPeriod course; nullish (Base.room course) [];
          nullish (Base.updatedAt course) []; Base.bodyText course]) in
  sha256_hex key.

(** [{ ...base, hash }]. *)
Definition with_hash (base : Base.t) (hash : jsstring) : Course :=
  {| id := Base.id base; title := Base.title base;
     instructor := Base.instructor base; term := Base.term base;
     dayPeriod := Base.dayPeriod base; room := Base.room base;
     updatedAt := Base.updatedAt base; bodyText := Base.bodyText base;
     detailUrl := Base.detailUrl base; hash := hash |}.

Definition is_lower_hex (c : N) : bool :=
  ((48 <=? c) && (c <=? 57) || (97 <=? c) && (c <=? 102))%N.

(** The seven values the design document fingerprints, canonicalised. *)
Definition canonical_fields (course : Base.t) : list jsstring :=
  [normalizeText (Base.title course);
   normalizeText (Base.instructor course);
   normalizeText (Base.term course);
   normalizeText (Base.dayPeriod course);
   normalizeText (match Base.room course with Some r => r | None => [] end);
   normalizeText (match Base.updatedAt course with Some u => u | None => [] end);
   normalizeText (Base.bodyText course)].

Module SampleBase.
Definition logic : Base.t :=
  {| Base.id := js "C1"; Base.title := js "Logic I";
     Base.instructor := js "Sato"; Base.term := js "2025";
     Base.dayPeriod := js "Mon 1"; Base.room := Some (js "R101");
     Base.updatedAt := None; Base.bodyText := js "body text";
     Base.detailUrl := js "https://portal/detail?id=C1" |}.

(** The same record as the portal may deliver it another day: other
    whitespace, an empty label instead of none, another locator. *)
Definition logic_noisy : Base.t :=
  {| Base.id := js "C1";
     Base.title := [32; 76; 111; 103; 105; 99; 160; 10; 73; 9]%N;
     Base.instructor := js "Sato "; Base.term := js "2025";
     Base.dayPeriod := js "Mon  1"; Base.room := Some (js " R101");
     Base.updatedAt := Some (js " "); Base.bodyText := [98; 111; 100; 121; 13; 10; 116; 101; 120; 116]%N;
     Base.detailUrl := js "https://portal/detail?id=C1&lang=ja" |}.
End SampleBase.

(* ================================================================== *)
(** ** Completions *)
(* ================================================================== *)

Inductive Error :=
| TypeError
| SyntaxError
| SystemError (code : jsstring)
| PageError.

(** What evaluating an expression gives: a value, or an exception. *)
Inductive Completion (A : Type) :=
| Normal (a : A)
| Throw (e : Error).

Arguments Normal {A} a.
Arguments Throw {A} e.

Definition bind {A B : Type} (c : Completion A) (k : A -> Completion B)
  : Completion B :=
  match c with
  | Normal a => k a
  | Throw e => Throw e
  end.

(** [try { body } catch { handler }]. *)
Definition try_catch {A : Type} (body : Completion A) (handler : Error -> Completion A)
  : Completion A :=
  match body with
  | Normal a => Normal a
  | Throw e => handler e
  end.

(* ================================================================== *)
(** ** The detail-fetch stage of [src/scrape.ts] *)
(* ================================================================== *)

(** An entry of the list page. *)
Module Stub.
Record t := {
  id : jsstring;
  title : jsstring;
  url : jsstring;
  instructor : jsstring;
  term : jsstring;
  dayPeriod : jsstring
}.
End Stub.

(** What [p.evaluate] returns from a detail page; each of the three is a
    string, empty when the page has no such element. *)
Record RawDetail := {
  raw_bodyText : jsstring;
  raw_updatedAt : jsstring;
  raw_room : jsstring
}.

(** A parsed URL, as far as the code looks at it: the name-value pairs of
    its query. *)
Record URL := { searchParams : list (jsstring * jsstring) }.

(** [URLSearchParams.prototype.get]: the value of the first pair with the
    name, [null] when there is none. *)
Fixpoint searchParams_get (pairs : list (jsstring * jsstring)) (name : jsstring)
  : option jsstring :=
  match pairs with
  | [] => None
  | (n, v) :: r => if str_eqb n name then Some v else searchParams_get r name
  end.

(** [x || d] for a string or [null] [x]: the empty string is falsy. *)
Definition or_else (x : option jsstring) (d : jsstring) : jsstring :=
  match x with
  | Some (c :: r) => c :: r
  | _ => d
  end.

(** A worker is inside [fetchDetail], from [await context.newPage()]
    until the page has answered; or after the answer, in [await p.close()]
    and in the pause ([sleep]); or it has left its loop; or it has
    rejected, because [fetchDetail] threw outside its [try]: in
    [context.newPage()], which stands before it, or in [p.close()], which
    stands in [finally].  Between two waits a worker runs alone: the
    run-to-completion rule of JavaScript.  The waits on the page
    ([goto], [waitForLoadState], [evaluate]) touch nothing the workers
    share and are taken together. *)
Inductive Worker :=
| Fetching (item : Stub.t)
| Pausing (item : Stub.t)
| Done
| Rejected (item : Stub.t) (e : Error).

(** The variables the workers share: the index [i], the array [courses]
    and, for [console.warn], the locators warned about. *)
Record Pool := {
  next : nat;
  workers : list Worker;
  courses : list Course;
  warnings : list jsstring
}.

Definition MAX_CONCURRENCY : nat := 3.

Section Scrape.
(** The platform and the portal: [new URL(s)], and what loading the
    detail page of a locator gives ([goto], [waitForLoadState] and
    [evaluate] together, each of which may throw inside the [try]); and
    what [context.newPage()] and [p.close()] answer when they are called
    for a stub. *)
Variable URL_new : jsstring -> Completion URL.
Variable page_detail : jsstring -> Completion RawDetail.
Variable newPage : Stub.t -> Completion unit.
Variable page_close : Stub.t -> Completion unit.

Definition idFromUrl (item : Stub.t) : jsstring :=
  match
    try_catch
      (bind (URL_new (Stub.url item)) (fun u =>
         Normal (or_else (searchParams_get (searchParams u) (js "id"))
                   (Stub.url item))))
      (fun _ => Normal (Stub.url item))
  with
  | Normal v => v
  | Throw _ => Stub.url item
  end.

(** The record [base] of [fetchDetail]. *)
Definition base_of (item : Stub.t) (d : RawDetail) : Base.t :=
  {| Base.id := or_else (Some (Stub.id item)) (idFromUrl item);
     Base.title := normalizeText (Stub.title item);
     Base.instructor := normalizeText (Stub.instructor item);
     Base.term := normalizeText (Stub.term item);
     Base.dayPeriod := normalizeText (Stub.dayPeriod item);
     Base.room := Some (normalizeText (raw_room d));
     Base.updatedAt := Some (normalizeText (raw_updatedAt d));
     Base.bodyText := normalizeText (raw_bodyText d);
     Base.detailUrl := Stub.url item |}.

Definition course_of (item : Stub.t) (d : RawDetail) : Course :=
  let base := base_of item d in
  with_hash base (makeHash base).

Variable queue : list Stub.t.

(** The head of the worker's loop, run until the worker waits:
    [while (i < queue.length) { idx = i++; it = queue[idx];
    if (!it) continue; await fetchDetail(it) }].  It returns the state
    the worker waits in and the new [i]; an iteration advances [i], so
    [fuel] above the length of the queue is never used up. *)
Fixpoint worker_loop (fuel : nat) (i : nat) : Worker * nat :=
  match fuel with
  | O => (Done, i)
  | S fuel' =>
      if i <? length queue then
        match nth_error queue i with
        | Some it => (Fetching it, S i)
        | None => worker_loop fuel' (S i)
        end
      else (Done, i)
  end.

Definition enter_loop (i : nat) : Worker * nat :=
  worker_loop (S (length queue)) i.

(** The body of [fetchDetail] from the answer of the page to the pause:
    push the record, or warn. *)
Definition settle (item : Stub.t) (s : Pool) : Pool :=
  match page_detail (Stub.url item) with
  | Normal d =>
      {| next := next s; workers := workers s;
         courses := courses s ++ [course_of item d];
         warnings := warnings s |}
  | Throw _ =>
      {| next := next s; workers := workers s;
         courses := courses s;
         warnings := warnings s ++ [Stub.url item] |}
  end.

Fixpoint set_nth (w : nat) (x : Worker) (l : list Worker) : list Worker :=
  match l, w with
  | [], _ => []
  | _ :: r, O => x :: r
  | y :: r, S w' => y :: set_nth w' x r
  end.

(** The worker has rejected: its promise is rejected with [e], and it
    runs no more. *)
Definition reject (w : nat) (item : Stub.t) (e : Error) (s : Pool) : Pool :=
  {| next := next s; workers := set_nth w (Rejected item e) (workers s);
     courses := courses s; warnings := warnings s |}.

(** Worker [w] runs from where it waits to where it waits next; no
    other code runs in between.  A worker that fetches has its page, or
    [context.newPage()] throws and nothing catches it; with the page it
    pushes the record or warns, and calls [p.close()].  A worker that
    pauses has closed the page and slept and goes round its loop, or
    [p.close()] throws out of [finally].  [None]: the worker has left its
    loop or rejected (or there is no such worker). *)
Definition step (w : nat) (s : Pool) : option Pool :=
  match nth_error (workers s) w with
  | Some (Fetching item) =>
      match newPage item with
      | Throw e => Some (reject w item e s)
      | Normal _ =>
          let s' := settle item s in
          Some {| next := next s';
                  workers := set_nth w (Pausing item) (workers s');
                  courses := courses s'; warnings := warnings s' |}
      end
  | Some (Pausing item) =>
      match page_close item with
      | Throw e => Some (reject w item e s)
      | Normal _ =>
          let (st, i) := enter_loop (next s) in
          Some {| next := i; workers := set_nth w st (workers s);
                  courses := courses s; warnings := warnings s |}
      end
  | _ => None
  end.

(** The [for] loop that creates the workers: each runs at once up to
    its first wait. *)
Fixpoint spawn (n : nat) (s : Pool) : Pool :=
  match n with
  | O => s
  | S n' =>
      let (st, i) := enter_loop (next s) in
      spawn n' {| next := i; workers := workers s ++ [st];
                  courses := courses s; warnings := warnings s |}
  end.

Definition start : Pool :=
  spawn (Nat.min MAX_CONCURRENCY (length queue))
    {| next := 0; workers := []; courses := []; warnings := [] |}.

(** A schedule names the worker that runs next, again and again. *)
Fixpoint run (sched : list nat) (s : Pool) : option Pool :=
  match sched with
  | [] => Some s
  | w :: rest =>
      match step w s with
      | Some s' => run rest s'
      | None => None
      end
  end.

(** [Promise.all(workers)] is fulfilled. *)
Definition finished (s : Pool) : Prop :=
  Forall (fun w => w = Done) (workers s).

(** [Promise.all(workers)] is rejected: [scrapeListAndDetails] throws,
    and [main] with it. *)
Definition is_rejected (w : Worker) : bool :=
  match w with
  | Rejected _ _ => true
  | _ => false
  end.

Definition aborted (s : Pool) : Prop :=
  existsb is_rejected (workers s) = true.

(** No worker can run: each has left its loop or rejected. *)
Definition halted (w : Worker) : Prop :=
  match w with
  | Done | Rejected _ _ => True
  | _ => False
  end.

Definition stopped (s : Pool) : Prop := Forall halted (workers s).


(** What one stub leaves behind: a record, or a warning. *)
Definition outcome (item : Stub.t) : Course + jsstring :=
  match page_detail (Stub.url item) with
  | Normal d => inl (course_of item d)
  | Throw _ => inr (Stub.url item)
  end.


(** The outcomes of the stubs a state has dealt with, is dealing with and
    has not taken yet. *)
Definition settled (s : Pool) : list (Course + jsstring) :=
  map inl (courses s) ++ map inr (warnings s).

Definition flight_of (w : Worker) : list (Course + jsstring) :=
  match w with
  | Fetching item => [outcome item]
  | _ => []
  end.

Definition in_flight (s : Pool) : list (Course + jsstring) :=
  flat_map flight_of (workers s).

(** What the pool never gets: the outcome of a stub for which no page
    was opened. *)
Definition lost_of (w : Worker) : list (Course + jsstring) :=
  match w with
  | Rejected item _ =>
      match newPage item with
      | Throw _ => [outcome item]
      | Normal _ => []
      end
  | _ => []
  end.

Definition lost (s : Pool) : list (Course + jsstring) :=
  flat_map lost_of (workers s).

Definition pending_of (w : Worker) : list (Course + jsstring) :=
  flight_of w ++ lost_of w.

Definition waiting (s : Pool) : list (Course + jsstring) :=
  map outcome (skipn (next s) queue).

(** Twice the stubs not yet taken, two for a worker that fetches, one
    for a worker that pauses, and one for a worker that rejected before
    it had a page: the step its stub will not take. *)
Definition weight (w : Worker) : nat :=
  match w with
  | Fetching _ => 2
  | Pausing _ => 1
  | Done => 0
  | Rejected item _ =>
      match newPage item with
      | Throw _ => 1
      | Normal _ => 0
      end
  end.

Definition work_left (s : Pool) : nat :=
  2 * (length queue - next s) + list_sum (map weight (workers s)).

(** What a worker is where it is for: a stub of the list, with its page
    when it pauses, and when it rejected, the error of
    [context.newPage()] or of [p.close()]. *)
Definition worker_ok (w : Worker) : Prop :=
  match w with
  | Fetching item => In item queue
  | Pausing item => In item queue /\ exists u, newPage item = Normal u
  | Done => True
  | Rejected item e =>
      In item queue
      /\ (newPage item = Throw e
          \/ (exists u, newPage item = Normal u) /\ page_close item = Throw e)
  end.

(** What holds of every state the pool reaches. *)
Definition pool_inv (s : Pool) : Prop :=
  Permutation (settled s ++ flat_map pending_of (workers s) ++ waiting s)
    (map outcome queue)
  /\ next s <= length queue
  /\ (In Done (workers s) -> next s = length queue)
  /\ length (workers s) = Nat.min MAX_CONCURRENCY (length queue)
  /\ Forall worker_ok (workers s).


End Scrape.



(** The identifier the design document gives a record, step by step. *)
Definition claimed_id (URL_new : jsstring -> Completion URL) (item : Stub.t)
  : jsstring :=
  match Stub.id item with
  | _ :: _ => Stub.id item
  | [] =>
      match URL_new (Stub.url item) with
      | Normal u =>
          match searchParams_get (searchParams u) (js "id") with
          | Some v => v
          | None => Stub.url item
          end
      | Throw _ => Stub.url item
      end
  end.

(** Locators to try the stage on, with what [new URL] answers for them
    and what the portal answers. *)
Module SamplePortal.
Definition stub (i u : string) : Stub.t :=
  {| Stub.id := js i; Stub.title := js "Logic  I"; Stub.url := js u;
     Stub.instructor := js "Sato"; Stub.term := js "2025";
     Stub.dayPeriod := js "Mon 1" |}.

Definition URL_new (s : jsstring) : Completion URL :=
  if str_eqb s (js "https://portal.example/detail?id=") then
    Normal {| searchParams := [(js "id", [])] |}
  else if str_eqb s (js "https://portal.example/detail?id=C7&lang=ja&id=C8") then
    Normal {| searchParams := [(js "id", js "C7"); (js "lang", js "ja");
                               (js "id", js "C8")] |}
  else if str_eqb s (js "https://portal.example/detail/C9") then
    Normal {| searchParams := [] |}
  else Throw TypeError.

Definition detail : RawDetail :=
  {| raw_bodyText := js " body   text "; raw_updatedAt := js "2025-04-01";
     raw_room := [] |}.

(** No identifier on the list page; the parameter is there, empty. *)
Definition empty_parameter : Stub.t :=
  stub "" "https://portal.example/detail?id=".

(** No identifier on the list page; the parameter is there twice. *)
Definition two_parameters : Stub.t :=
  stub "" "https://portal.example/detail?id=C7&lang=ja&id=C8".

(** The pages of [s2] and [s5] do not load. *)
Definition page_detail (u : jsstring) : Completion RawDetail :=
  if str_eqb u (js "https://portal.example/d/2") then Throw PageError
  else if str_eqb u (js "https://portal.example/d/5") then Throw PageError
  else Normal detail.

Definition queue : list Stub.t :=
  [stub "S1" "https://portal.example/d/1"; stub "S2" "https://portal.example/d/2";
   stub "S3" "https://portal.example/d/3"; stub "S4" "https://portal.example/d/4";
   stub "S5" "https://portal.example/d/5"; stub "S6" "https://portal.example/d/6";
   stub "S7" "https://portal.example/d/7"].

(** A browser that opens and closes every page. *)
Definition newPage (item : Stub.t) : Completion unit := Normal tt.
Definition page_close (item : Stub.t) : Completion unit := Normal tt.

(** A browser that opens no page for [S3], and one that cannot close the
    page of [S7]. *)
Definition newPage_down (item : Stub.t) : Completion unit :=
  if str_eqb (Stub.id item) (js "S3") then Throw PageError else Normal tt.

Definition close_down (item : Stub.t) : Completion unit :=
  if str_eqb (Stub.id item) (js "S7") then Throw PageError else Normal tt.
End SamplePortal.

(** Two schedules for the seven stubs of [SamplePortal.queue]. *)
Module SampleSchedule.
Definition round_robin : list nat := [0; 1; 2; 0; 1; 2; 0; 1; 2; 0; 1; 2; 0; 0].
Definition last_first : list nat := [2; 2; 2; 2; 2; 2; 2; 2; 2; 2; 1; 1; 0; 0].

(** With no page for the third stub, worker 2 rejects at once and the
    other two share the stubs that are left. *)
Definition no_page : list nat := [2; 0; 1; 0; 1; 0; 1; 0; 1; 0; 1; 0; 1].

Definition state (r : option Pool) : Pool :=
  match r with
  | Some s => s
  | None => {| next := 0; workers := []; courses := []; warnings := [] |}
  end.

Definition final (sched : list nat) : Pool :=
  state (run SamplePortal.URL_new SamplePortal.page_detail SamplePortal.newPage
           SamplePortal.page_close SamplePortal.queue sched
           (start SamplePortal.queue)).

(** The same with the browser that opens no page for [S3], and with the
    one that cannot close the page of [S7]. *)
Definition final_no_page (sched : list nat) : Pool :=
  state (run SamplePortal.URL_new SamplePortal.page_detail
           SamplePortal.newPage_down SamplePortal.page_close SamplePortal.queue
           sched (start SamplePortal.queue)).

Definition final_no_close (sched : list nat) : Pool :=
  state (run SamplePortal.URL_new SamplePortal.page_detail
           SamplePortal.newPage SamplePortal.close_down SamplePortal.queue
           sched (start SamplePortal.queue)).
End SampleSchedule.

(* ================================================================== *)
(** ** JSON *)
(* ================================================================== *)

(** A number is a double.  [DFinite s m e] is [m * 2 ^ e], negative when
    [s], with [2 ^ 52 <= m < 2 ^ 53] and [-1074 <= e <= 971], or with
    [m < 2 ^ 52] and [e = -1074]: every finite double once, zero with
    [m = 0].  JSON has no text for NaN. *)
Inductive Double :=
| DFinite (negative : bool) (m e : Z)
| DInfinity (negative : bool).

(** The largest [g] with [2 ^ g <= n / d], for positive [n] and [d]: it
    is [Z.log2 n - Z.log2 d] or one less. *)
Definition binade (n d : Z) : Z :=
  let g := (Z.log2 n - Z.log2 d)%Z in
  let reached :=
    if (0 <=? g)%Z then (d * 2 ^ g <=? n)%Z else (d <=? n * 2 ^ (- g))%Z in
  if reached then g else (g - 1)%Z.

(** [n / d] to the nearest integer, a tie to the even one. *)
Definition nearest_even (n d : Z) : Z :=
  let q := (n / d)%Z in
  let r := (n mod d)%Z in
  if (d <? 2 * r)%Z || ((d =? 2 * r)%Z && Z.odd q) then (q + 1)%Z else q.

(** The double nearest to the decimal [m * 10 ^ e], [0 <= m], a tie to
    the even mantissa: what [JSON.parse] makes of the text of a number.
    Below the least double the result is zero, above the greatest it is
    infinite. *)
Definition to_double (negative : bool) (m e : Z) : Double :=
  if (m =? 0)%Z then DFinite negative 0 (-1074)
  else
    let n := (m * 10 ^ Z.max e 0)%Z in
    let d := (10 ^ Z.max (- e) 0)%Z in
    let k := Z.max (-1074) (binade n d - 52) in
    let q :=
      if (0 <=? k)%Z then nearest_even n (d * 2 ^ k)
      else nearest_even (n * 2 ^ (- k)) d in
    let carried := (q =? 2 ^ 53)%Z in
    let k' := if carried then (k + 1)%Z else k in
    let q' := if carried then (2 ^ 52)%Z else q in
    if (971 <? k')%Z then DInfinity negative else DFinite negative q' k'.

(** A value [JSON.parse] can return, and [undefined] for a property an
    object lacks.  The properties of an object stand in the order of
    their first appearance. *)
Set Warnings "-register-all".

Inductive JsValue :=
| VUndefined
| VNull
| VBool (b : bool)
| VNum (x : Double)
| VStr (s : jsstring)
| VArr (items : list JsValue)
| VObj (props : list (jsstring * JsValue)).

(** *** [JSON.stringify(value, null, 2)] *)

Definition hex_char (d : N) : N := if (d <? 10)%N then 48 + d else 87 + d.

(** [\uXXXX], in lower case. *)
Definition unicode_escape (c : N) : jsstring :=
  [92; 117; hex_char (N.land (N.shiftr c 12) 15);
   hex_char (N.land (N.shiftr c 8) 15);
   hex_char (N.land (N.shiftr c 4) 15); hex_char (N.land c 15)]%N.

(** QuoteJSONString without its two quotes: the short escapes, [\u00XX]
    for the other control characters, [\uDXXX] for a surrogate without
    its partner, everything else as it stands. *)
Fixpoint quote_body (s : jsstring) : jsstring :=
  match s with
  | [] => []
  | c :: r =>
      if (c =? 34)%N then [92; 34]%N ++ quote_body r
      else if (c =? 92)%N then [92; 92]%N ++ quote_body r
      else if (c =? 8)%N then [92; 98]%N ++ quote_body r
      else if (c =? 12)%N then [92; 102]%N ++ quote_body r
      else if (c =? 10)%N then [92; 110]%N ++ quote_body r
      else if (c =? 13)%N then [92; 114]%N ++ quote_body r
      else if (c =? 9)%N then [92; 116]%N ++ quote_body r
      else if (c <? 32)%N then unicode_escape c ++ quote_body r
      else if is_high_surrogate c then
        match r with
        | d :: r' =>
            if is_low_surrogate d then c :: d :: quote_body r'
            else unicode_escape c ++ quote_body r
        | [] => unicode_escape c
        end
      else if is_low_surrogate c then unicode_escape c ++ quote_body r
      else c :: quote_body r
  end.

Definition JSON_quote (s : jsstring) : jsstring :=
  [34%N] ++ quote_body s ++ [34%N].

(** The gap of two spaces. *)
Definition gap : jsstring := [32; 32]%N.

(** SerializeJSONArray and SerializeJSONObject at the indentation
    [indent]; the parts are serialised already, one level deeper. *)
Definition json_array (indent : jsstring) (items : list jsstring) : jsstring :=
  match items with
  | [] => js "[]"
  | _ =>
      js "[" ++ [Ch.LF] ++ (indent ++ gap)
      ++ join ([44%N; Ch.LF] ++ indent ++ gap) items
      ++ [Ch.LF] ++ indent ++ js "]"
  end.

Definition json_member (m : jsstring * jsstring) : jsstring :=
  JSON_quote (fst m) ++ js ": " ++ snd m.

Definition json_object (indent : jsstring) (members : list (jsstring * jsstring))
  : jsstring :=
  match members with
  | [] => js "{}"
  | _ =>
      js "{" ++ [Ch.LF] ++ (indent ++ gap)
      ++ join ([44%N; Ch.LF] ++ indent ++ gap) (map json_member members)
      ++ [Ch.LF] ++ indent ++ js "}"
  end.

(** The properties of a record that are not [undefined], in the order
    [fetchDetail] creates them. *)
Definition optional_prop (name : string) (x : option jsstring)
  : list (jsstring * jsstring) :=
  match x with
  | Some v => [(js name, v)]
  | None => []
  end.

Definition course_props (c : Course) : list (jsstring * jsstring) :=
  [(js "id", id c); (js "title", title c); (js "instructor", instructor c);
   (js "term", term c); (js "dayPeriod", dayPeriod c)]
  ++ optional_prop "room" (room c)
  ++ optional_prop "updatedAt" (updatedAt c)
  ++ [(js "bodyText", bodyText c); (js "detailUrl", detailUrl c);
      (js "hash", hash c)].

(** [JSON.stringify(courses, null, 2)]. *)
Definition JSON_stringify (courses : list Course) : jsstring :=
  json_array []
    (map (fun c =>
            json_object gap
              (map (fun kv => (fst kv, JSON_quote (snd kv))) (course_props c)))
       courses).

(** The value a record is as an object. *)
Definition value_of_course (c : Course) : JsValue :=
  VObj (map (fun kv => (fst kv, VStr (snd kv))) (course_props c)).

(** *** [JSON.parse] *)

Definition is_json_ws (c : N) : bool :=
  ((c =? 32) || (c =? 9) || (c =? 10) || (c =? 13))%N.

Definition skip_ws (s : jsstring) : jsstring := drop_while is_json_ws s.

Definition is_digit (c : N) : bool := ((48 <=? c) && (c <=? 57))%N.

Definition hex_value (c : N) : option N :=
  if is_digit c then Some (c - 48)%N
  else if ((97 <=? c) && (c <=? 102))%N then Some (c - 87)%N
  else if ((65 <=? c) && (c <=? 70))%N then Some (c - 55)%N
  else None.

Definition hex4 (a b c d : N) : option N :=
  match hex_value a, hex_value b, hex_value c, hex_value d with
  | Some x, Some y, Some z, Some w => Some (4096 * x + 256 * y + 16 * z + w)%N
  | _, _, _, _ => None
  end.

Definition prepend (c : N) (x : option (jsstring * jsstring))
  : option (jsstring * jsstring) :=
  match x with
  | Some (s, rest) => Some (c :: s, rest)
  | None => None
  end.

(** A string after its opening quote: the characters up to the closing
    quote, and what follows it. *)
Fixpoint parse_string_body (s : jsstring) : option (jsstring * jsstring) :=
  match s with
  | [] => None
  | c :: r =>
      if (c =? 34)%N then Some ([], r)
      else if (c =? 92)%N then
        match r with
        | e :: r1 =>
            if (e =? 34)%N then prepend 34%N (parse_string_body r1)
            else if (e =? 92)%N then prepend 92%N (parse_string_body r1)
            else if (e =? 47)%N then prepend 47%N (parse_string_body r1)
            else if (e =? 98)%N then prepend 8%N (parse_string_body r1)
            else if (e =? 102)%N then prepend 12%N (parse_string_body r1)
            else if (e =? 110)%N then prepend 10%N (parse_string_body r1)
            else if (e =? 114)%N then prepend 13%N (parse_string_body r1)
            else if (e =? 116)%N then prepend 9%N (parse_string_body r1)
            else if (e =? 117)%N then
              match r1 with
              | h1 :: h2 :: h3 :: h4 :: r2 =>
                  match hex4 h1 h2 h3 h4 with
                  | Some u => prepend u (parse_string_body r2)
                  | None => None
                  end
              | _ => None
              end
            else None
        | [] => None
        end
      else if (c <? 32)%N then None
      else prepend c (parse_string_body r)
  end.

(** Digits, as many as there are: their value on top of [acc], their
    number, and what follows. *)
Fixpoint parse_digits (s : jsstring) (acc : Z) (n : nat) : Z * nat * jsstring :=
  match s with
  | c :: r =>
      if is_digit c then parse_digits r (10 * acc + Z.of_N (c - 48)) (S n)
      else (acc, n, s)
  | [] => (acc, n, s)
  end.

(** A number after its sign: no leading zero, an optional fraction, an
    optional exponent. *)
Definition parse_number (negative : bool) (s : jsstring)
  : option (JsValue * jsstring) :=
  let int_part :=
    match s with
    | c :: r =>
        if (c =? 48)%N then Some (0%Z, r)
        else if is_digit c then
          let '(m, _, r') := parse_digits s 0 0 in Some (m, r')
        else None
    | [] => None
    end in
  match int_part with
  | None => None
  | Some (m, r) =>
      let frac :=
        match r with
        | c :: r1 =>
            if (c =? 46)%N then
              let '(m', n, r2) := parse_digits r1 m 0 in
              match n with
              | O => None
              | _ => Some (m', Z.of_nat n, r2)
              end
            else Some (m, 0%Z, r)
        | [] => Some (m, 0%Z, r)
        end in
      match frac with
      | None => None
      | Some (m1, shift, r3) =>
          let digits_of (neg : bool) (t : jsstring) :=
            let '(x, n, rest) := parse_digits t 0 0 in
            match n with
            | O => None
            | _ =>
                Some (VNum (to_double negative m1
                              ((if neg then - x else x) - shift)), rest)
            end in
          match r3 with
          | c :: r4 =>
              if ((c =? 101) || (c =? 69))%N then
                match r4 with
                | sg :: r5 =>
                    if (sg =? 43)%N then digits_of false r5
                    else if (sg =? 45)%N then digits_of true r5
                    else digits_of false r4
                | [] => None
                end
              else Some (VNum (to_double negative m1 (- shift)), r3)
          | [] => Some (VNum (to_double negative m1 (- shift)), r3)
          end
      end
  end.

(** [CreateDataProperty]: a name the object has keeps its place and takes
    the new value. *)
Fixpoint obj_set (props : list (jsstring * JsValue)) (k : jsstring) (v : JsValue)
  : list (jsstring * JsValue) :=
  match props with
  | [] => [(k, v)]
  | (k', v') :: r =>
      if str_eqb k' k then (k', v) :: r else (k', v') :: obj_set r k v
  end.

Definition starts_with (p s : jsstring) : option jsstring :=
  if str_eqb (firstn (length p) s) p then Some (skipn (length p) s) else None.

(** A value, the elements of an array after its bracket, the members of
    an object after its brace.  Every call takes one unit of [fuel]. *)
Fixpoint parse_value (fuel : nat) (s : jsstring) : option (JsValue * jsstring) :=
  match fuel with
  | O => None
  | S fuel' =>
      match skip_ws s with
      | [] => None
      | c :: r =>
          if (c =? 34)%N then
            match parse_string_body r with
            | Some (str, rest) => Some (VStr str, rest)
            | None => None
            end
          else if (c =? 91)%N then
            match skip_ws r with
            | d :: r' =>
                if (d =? 93)%N then Some (VArr [], r')
                else parse_elements fuel' r []
            | [] => None
            end
          else if (c =? 123)%N then
            match skip_ws r with
            | d :: r' =>
                if (d =? 125)%N then Some (VObj [], r')
                else parse_members fuel' r []
            | [] => None
            end
          else if (c =? 45)%N then parse_number true r
          else if is_digit c then parse_number false (c :: r)
          else
            match starts_with (js "true") (c :: r) with
            | Some rest => Some (VBool true, rest)
            | None =>
                match starts_with (js "false") (c :: r) with
                | Some rest => Some (VBool false, rest)
                | None =>
                    match starts_with (js "null") (c :: r) with
                    | Some rest => Some (VNull, rest)
                    | None => None
                    end
                end
            end
      end
  end
with parse_elements (fuel : nat) (s : jsstring) (acc : list JsValue)
  : option (JsValue * jsstring) :=
  match fuel with
  | O => None
  | S fuel' =>
      match parse_value fuel' s with
      | Some (v, rest) =>
          match skip_ws rest with
          | c :: r =>
              if (c =? 44)%N then parse_elements fuel' r (acc ++ [v])
              else if (c =? 93)%N then Some (VArr (acc ++ [v]), r)
              else None
          | [] => None
          end
      | None => None
      end
  end
with parse_members (fuel : nat) (s : jsstring) (acc : list (jsstring * JsValue))
  : option (JsValue * jsstring) :=
  match fuel with
  | O => None
  | S fuel' =>
      match skip_ws s with
      | q :: r =>
          if (q =? 34)%N then
            match parse_string_body r with
            | Some (k, r1) =>
                match skip_ws r1 with
                | colon :: r2 =>
                    if (colon =? 58)%N then
                      match parse_value fuel' r2 with
                      | Some (v, r3) =>
                          match skip_ws r3 with
                          | c :: r4 =>
                              if (c =? 44)%N
                              then parse_members fuel' r4 (obj_set acc k v)
                              else if (c =? 125)%N
                              then Some (VObj (obj_set acc k v), r4)
                              else None
                          | [] => None
                          end
                      | None => None
                      end
                    else None
                | [] => None
                end
            | None => None
            end
          else None
      | [] => None
      end
  end.

(** [JSON.parse]: one value, whitespace around it, nothing more. *)
Definition JSON_parse (text : jsstring) : Completion JsValue :=
  match parse_value (2 * length text + 2) text with
  | Some (v, rest) =>
      match skip_ws rest with
      | [] => Normal v
      | _ => Throw SyntaxError
      end
  | None => Throw SyntaxError
  end.

(* ================================================================== *)
(** ** The snapshot store of [src/storage.ts] *)
(* ================================================================== *)

(** SameValueZero, the equality of [Map] keys.  The two zeros are one
    key.  An object or an array is equal to itself only, and every object
    [JSON.parse] creates is a new one: two keys that are objects are never
    the same key. *)
Definition num_eqb (x y : Double) : bool :=
  match x, y with
  | DFinite s1 m1 e1, DFinite s2 m2 e2 =>
      ((m1 =? 0) && (m2 =? 0))%Z
      || (Bool.eqb s1 s2 && (m1 =? m2)%Z && (e1 =? e2)%Z)
  | DInfinity s1, DInfinity s2 => Bool.eqb s1 s2
  | _, _ => false
  end.

Definition same_value_zero (a b : JsValue) : bool :=
  match a, b with
  | VUndefined, VUndefined => true
  | VNull, VNull => true
  | VBool x, VBool y => Bool.eqb x y
  | VNum x, VNum y => num_eqb x y
  | VStr x, VStr y => str_eqb x y
  | _, _ => false
  end.

(** The map [loadPrev] returns, before TypeScript calls it a
    [Map<string, Course>]. *)
Definition ValueMap := JsMap JsValue JsValue.

Fixpoint prop_lookup (props : list (jsstring * JsValue)) (name : jsstring)
  : option JsValue :=
  match props with
  | [] => None
  | (k, v) :: r => if str_eqb k name then Some v else prop_lookup r name
  end.

(** [c.id]: a [TypeError] on [null], the property of an object,
    [undefined] on anything else (no prototype has an [id]). *)
Definition prop_id (c : JsValue) : Completion JsValue :=
  match c with
  | VNull | VUndefined => Throw TypeError
  | VObj props =>
      Normal (match prop_lookup props (js "id") with
              | Some v => v
              | None => VUndefined
              end)
  | _ => Normal VUndefined
  end.

(** [arr.map(f)]: only an array has a [map] to call. *)
Fixpoint map_completion {A B : Type} (f : A -> Completion B) (l : list A)
  : Completion (list B) :=
  match l with
  | [] => Normal []
  | x :: r =>
      bind (f x) (fun y => bind (map_completion f r) (fun ys => Normal (y :: ys)))
  end.

Definition Array_map {B : Type} (arr : JsValue) (f : JsValue -> Completion B)
  : Completion (list B) :=
  match arr with
  | VArr items => map_completion f items
  | _ => Throw TypeError
  end.

(** No surrogate without its partner: what UTF-8 can hold. *)
Fixpoint well_formed (s : jsstring) : bool :=
  match s with
  | [] => true
  | c :: r =>
      if is_high_surrogate c then
        match r with
        | d :: r' => is_low_surrogate d && well_formed r'
        | [] => false
        end
      else negb (is_low_surrogate c) && well_formed r
  end.

Section Storage.
(** The file system, as the two functions use it.  [mkdirSync] is called
    with [{ recursive: true }]. *)
Variable FS : Type.
Variable readFileSync : FS -> jsstring -> Completion jsstring.
Variable writeFileSync : FS -> jsstring -> jsstring -> Completion FS.
Variable existsSync : FS -> jsstring -> bool.
Variable mkdirSync : FS -> jsstring -> Completion FS.
Variable dirname : jsstring -> jsstring.

(** [loadPrev]. *)
Definition loadPrev (fs : FS) (filePath : jsstring) : Completion ValueMap :=
  try_catch
    (bind (readFileSync fs filePath) (fun raw =>
     bind (JSON_parse raw) (fun arr =>
     bind (Array_map arr (fun c => bind (prop_id c) (fun k => Normal (k, c))))
       (fun entries => Normal (new_Map same_value_zero entries)))))
    (fun _ => Normal (new_Map same_value_zero [])).

(** [saveCurr]. *)
Definition saveCurr (fs : FS) (filePath : jsstring) (courses : list Course)
  : Completion FS :=
  let dir := dirname filePath in
  bind (if negb (existsSync fs dir) then mkdirSync fs dir else Normal fs)
    (fun fs1 => writeFileSync fs1 filePath (JSON_stringify courses)).

(** What is written in UTF-8 and read back in UTF-8 is the text itself,
    if UTF-8 can hold it. *)
Definition reads_what_was_written : Prop :=
  forall fs p text fs',
    well_formed text = true ->
    writeFileSync fs p text = Normal fs' ->
    readFileSync fs' p = Normal text.
End Storage.

Arguments loadPrev {FS} readFileSync fs filePath.
Arguments saveCurr {FS} writeFileSync existsSync mkdirSync dirname fs filePath courses.
Arguments reads_what_was_written {FS} readFileSync writeFileSync.

(** A snapshot as the untyped map it is at run time. *)
Definition entry_of_course (c : Course) : JsValue * JsValue :=
  (VStr (id c), value_of_course c).

Definition untyped (m : CourseMap) : ValueMap :=
  map (fun e => (VStr (fst e), value_of_course (snd e))) m.

(** The record an object is, if it is one. *)
Definition string_prop (props : list (jsstring * JsValue)) (name : string)
  : option (option jsstring) :=
  match prop_lookup props (js name) with
  | Some (VStr s) => Some (Some s)
  | None => Some None
  | Some _ => None
  end.

Definition course_of_value (v : JsValue) : option Course :=
  match v with
  | VObj props =>
      match string_prop props "id", string_prop props "title",
            string_prop props "instructor", string_prop props "term",
            string_prop props "dayPeriod", string_prop props "room",
            string_prop props "updatedAt", string_prop props "bodyText",
            string_prop props "detailUrl", string_prop props "hash" with
      | Some (Some i), Some (Some t), Some (Some n), Some (Some m),
        Some (Some d), Some r, Some u, Some (Some b), Some (Some l),
        Some (Some h) =>
          Some {| id := i; title := t; instructor := n; term := m;
                  dayPeriod := d; room := r; updatedAt := u; bodyText := b;
                  detailUrl := l; hash := h |}
      | _, _, _, _, _, _, _, _, _, _ => None
      end
  | _ => None
  end.

(** The last record of a list with a given identifier. *)
Fixpoint last_with_id (k : jsstring) (courses : list Course) : option Course :=
  match courses with
  | [] => None
  | c :: r =>
      match last_with_id k r with
      | Some c' => Some c'
      | None => if str_eqb (id c) k then Some c else None
      end
  end.

(** A file system in memory: files and directories by their paths.  A
    text is stored as its UTF-8 bytes decode: a surrogate without its
    partner comes back as U+FFFD. *)
Module MemFS.
Record t := {
  files : list (jsstring * jsstring);
  dirs : list jsstring
}.

Fixpoint lookup (p : jsstring) (l : list (jsstring * jsstring)) : option jsstring :=
  match l with
  | [] => None
  | (k, v) :: r => if str_eqb k p then Some v else lookup p r
  end.

Definition is_dir (fs : t) (p : jsstring) : bool :=
  existsb (str_eqb p) (dirs fs) || str_eqb p (js ".") || str_eqb p (js "/").

Fixpoint scrub (s : jsstring) : jsstring :=
  match s with
  | [] => []
  | c :: r =>
      if is_high_surrogate c then
        match r with
        | d :: r' =>
            if is_low_surrogate d then c :: d :: scrub r' else 65533%N :: scrub r
        | [] => [65533%N]
        end
      else if is_low_surrogate c then 65533%N :: scrub r
      else c :: scrub r
  end.

(** [path.dirname] of POSIX paths. *)
Definition dirname (p : jsstring) : jsstring :=
  match p with
  | [] => js "."
  | c :: r =>
      let has_root := (c =? 47)%N in
      let cut := drop_while (fun x => negb (x =? 47)%N)
                   (drop_while (N.eqb 47) (rev r)) in
      match cut with
      | [] => if has_root then js "/" else js "."
      | _ =>
          if has_root && (length cut =? 1) then js "//"
          else firstn (length cut) p
      end
  end.

Definition readFileSync (fs : t) (p : jsstring) : Completion jsstring :=
  if is_dir fs p then Throw (SystemError (js "EISDIR"))
  else
    match lookup p (files fs) with
    | Some text => Normal text
    | None => Throw (SystemError (js "ENOENT"))
    end.

Definition existsSync (fs : t) (p : jsstring) : bool :=
  is_dir fs p || match lookup p (files fs) with Some _ => true | None => false end.

(** The directory and the directories above it; [fuel] bounds their
    number. *)
Fixpoint ancestors (fuel : nat) (p : jsstring) : list jsstring :=
  match fuel with
  | O => []
  | S fuel' =>
      if str_eqb p (js ".") || str_eqb p (js "/") || str_eqb p (js "//") then []
      else p :: ancestors fuel' (dirname p)
  end.

Definition mkdirSync (fs : t) (p : jsstring) : Completion t :=
  let above := ancestors (length p) p in
  if existsb (fun d => match lookup d (files fs) with
                       | Some _ => true
                       | None => false
                       end) above
  then Throw (SystemError (js "EEXIST"))
  else Normal {| files := files fs; dirs := above ++ dirs fs |}.

Definition writeFileSync (fs : t) (p text : jsstring) : Completion t :=
  if is_dir fs p then Throw (SystemError (js "EISDIR"))
  else if negb (is_dir fs (dirname p)) then Throw (SystemError (js "ENOENT"))
  else Normal {| files := (p, scrub text) :: files fs; dirs := dirs fs |}.

Definition load : t -> jsstring -> Completion ValueMap := loadPrev readFileSync.

Definition save : t -> jsstring -> list Course -> Completion t :=
  saveCurr writeFileSync existsSync mkdirSync dirname.

Definition empty : t := {| files := []; dirs := [] |}.

(** A file system with one file of the given text. *)
Definition with_file (p text : jsstring) : t :=
  {| files := [(p, text)]; dirs := [js "./data"] |}.
End MemFS.

Module SampleStore.
Definition path : jsstring := js "./data/courses.json".

(** Two records under one identifier. *)
Definition first : Course := Sample.course "C1" "Logic" "a".
Definition second : Course := Sample.course "C1" "Logic II" "b".

Definition saved : MemFS.t :=
  match MemFS.save MemFS.empty path [first; second] with
  | Normal fs => fs
  | Throw _ => MemFS.empty
  end.
End SampleStore.

(** Auxiliary definitions for the layout of the written text. *)
Definition ws_only (w : jsstring) : Prop := forallb is_json_ws w = true.

Definition quoted_props (props : list (jsstring * jsstring))
  : list (jsstring * jsstring) :=
  map (fun kv => (fst kv, JSON_quote (snd kv))) props.

Definition separator (indent : jsstring) : jsstring :=
  [44%N; Ch.LF] ++ indent ++ gap.

Definition members_text (indent : jsstring) (props : list (jsstring * jsstring))
  : jsstring :=
  join (separator indent) (map json_member (quoted_props props)).

Definition set_props (acc : list (jsstring * JsValue))
    (props : list (jsstring * jsstring)) : list (jsstring * JsValue) :=
  fold_left (fun a kv => obj_set a (fst kv) (VStr (snd kv))) props acc.

Definition course_text (c : Course) : jsstring :=
  json_object gap (quoted_props (course_props c)).

Definition elements_text (courses : list Course) : jsstring :=
  join (separator []) (map course_text courses).

Module SampleStore2.
(** Two records under two identifiers, and the file system that holds
    them. *)
Definition courses : list Course :=
  [Sample.course "C1" "Logic" "a"; Sample.course "C2" "Algebra" "b"].

Definition saved : MemFS.t :=
  match MemFS.save MemFS.empty SampleStore.path courses with
  | Normal fs => fs
  | Throw _ => MemFS.empty
  end.
End SampleStore2.

Module SampleNumbers.
(** A history whose identifiers are numbers: 2^53, 2^53 + 1, a decimal
    below the least double, and minus zero. *)
Definition member (number : string) : jsstring :=
  js "{" ++ JSON_quote (js "id") ++ js ":" ++ js number ++ js "}".

Definition text : jsstring :=
  js "[" ++ member "9007199254740992" ++ js "," ++ member "9007199254740993"
  ++ js "," ++ member "1e-400" ++ js "," ++ member "-0" ++ js "]".
End SampleNumbers.

(* ------------------------------------------------------------------ *)
(** *** Auxiliary definitions for further properties of the reconciler *)

(** A change read from the other side. *)
Definition flip_change (ch : Change) : Change :=
  {| before := after ch; after := before ch |}.

Definition not_ws (c : N) : bool := negb (is_ws c).

(** The stub of [SampleBase.logic] on two days: other whitespace, and a
    locator with one more parameter. *)
Module SampleRefetch.
Definition monday : Stub.t :=
  {| Stub.id := js "C1"; Stub.title := js "Logic I"; Stub.url := js "https://portal.example/d/1";
     Stub.instructor := js "Sato"; Stub.term := js "2025";
     Stub.dayPeriod := js "Mon 1" |}.
Definition tuesday : Stub.t :=
  {| Stub.id := js "C1"; Stub.title := [76; 111; 103; 105; 99; 160; 9; 73; 32]%N;
     Stub.url := js "https://portal.example/d/1?lang=ja";
     Stub.instructor := js " Sato"; Stub.term := js "2025";
     Stub.dayPeriod := js "Mon  1" |}.
Definition page_monday : RawDetail :=
  {| raw_bodyText := js "body text"; raw_updatedAt := js "2025-04-01";
     raw_room := js "R101" |}.
Definition page_tuesday : RawDetail :=
  {| raw_bodyText := [10; 98; 111; 100; 121; 13; 10; 116; 101; 120; 116; 10]%N;
     raw_updatedAt := js "2025-04-01 "; raw_room := js "R101" |}.
End SampleRefetch.

(* ------------------------------------------------------------------ *)
(** *** The pool of the older entry point

    The scraper in the second half of [src/storage.ts] has the same
    [fetchDetail], and workers that shift the stubs off the queue:
    [while (queue.length) { const item = queue.shift();
    if (item) await fetchDetail(item); }].  A stub is an object, so
    [item] is truthy. *)
Record ShiftPool := {
  rest : list Stub.t;
  shift_workers : list Worker;
  shift_courses : list Course;
  shift_warnings : list jsstring
}.

Definition shift_loop (queue : list Stub.t) : Worker * list Stub.t :=
  match queue with
  | [] => (Done, [])
  | item :: r => (Fetching item, r)
  end.

Section ShiftScrape.
Variable URL_new : jsstring -> Completion URL.
Variable page_detail : jsstring -> Completion RawDetail.
Variable newPage : Stub.t -> Completion unit.
Variable page_close : Stub.t -> Completion unit.

Definition shift_settle (item : Stub.t) (s : ShiftPool) : ShiftPool :=
  match page_detail (Stub.url item) with
  | Normal d =>
      {| rest := rest s; shift_workers := shift_workers s;
         shift_courses := shift_courses s ++ [course_of URL_new item d];
         shift_warnings := shift_warnings s |}
  | Throw _ =>
      {| rest := rest s; shift_workers := shift_workers s;
         shift_courses := shift_courses s;
         shift_warnings := shift_warnings s ++ [Stub.url item] |}
  end.

Definition shift_reject (w : nat) (item : Stub.t) (e : Error) (s : ShiftPool)
  : ShiftPool :=
  {| rest := rest s;
     shift_workers := set_nth w (Rejected item e) (shift_workers s);
     shift_courses := shift_courses s; shift_warnings := shift_warnings s |}.

Definition shift_step (w : nat) (s : ShiftPool) : option ShiftPool :=
  match nth_error (shift_workers s) w with
  | Some (Fetching item) =>
      match newPage item with
      | Throw e => Some (shift_reject w item e s)
      | Normal _ =>
          let s' := shift_settle item s in
          Some {| rest := rest s';
                  shift_workers := set_nth w (Pausing item) (shift_workers s');
                  shift_courses := shift_courses s';
                  shift_warnings := shift_warnings s' |}
      end
  | Some (Pausing item) =>
      match page_close item with
      | Throw e => Some (shift_reject w item e s)
      | Normal _ =>
          let (st, r) := shift_loop (rest s) in
          Some {| rest := r; shift_workers := set_nth w st (shift_workers s);
                  shift_courses := shift_courses s;
                  shift_warnings := shift_warnings s |}
      end
  | _ => None
  end.

(** The [for] loop: [for (let w = 0; w < Math.min(MAX_CONCURRENCY,
    queue.length); w++)].  A worker runs at once up to its first wait
    and has shifted a stub by then, so the bound is read from a queue
    that is one stub shorter each time.  [w] stays below
    [MAX_CONCURRENCY]: the loop has at most that many rounds. *)
Fixpoint shift_spawn (rounds w : nat) (s : ShiftPool) : ShiftPool :=
  match rounds with
  | O => s
  | S rounds' =>
      if w <? Nat.min MAX_CONCURRENCY (length (rest s)) then
        let (st, r) := shift_loop (rest s) in
        shift_spawn rounds' (S w)
          {| rest := r; shift_workers := shift_workers s ++ [st];
             shift_courses := shift_courses s;
             shift_warnings := shift_warnings s |}
      else s
  end.

(** [const queue = list.slice()], then the [for] loop. *)
Definition shift_start (list : list Stub.t) : ShiftPool :=
  shift_spawn MAX_CONCURRENCY 0
    {| rest := list; shift_workers := []; shift_courses := [];
       shift_warnings := [] |}.

Fixpoint shift_run (sched : list nat) (s : ShiftPool) : option ShiftPool :=
  match sched with
  | [] => Some s
  | w :: more =>
      match shift_step w s with
      | Some s' => shift_run more s'
      | None => None
      end
  end.
End ShiftScrape.

(** A state of the pool with the index, seen as a state of the pool with
    the shrinking queue. *)
Definition as_shift (queue : list Stub.t) (s : Pool) : ShiftPool :=
  {| rest := skipn (next s) queue; shift_workers := workers s;
     shift_courses := courses s; shift_warnings := warnings s |}.

(** The workers the older [for] loop starts for a list of [n] stubs: it
    stops when [w] has reached what is left of the queue. *)
Definition shift_worker_count (n : nat) : nat :=
  Nat.min MAX_CONCURRENCY (Nat.div2 (S n)).

(** The pool with the index, started with a given number of workers. *)
Definition start_with (queue : list Stub.t) (n : nat) : Pool :=
  spawn queue n {| next := 0; workers := []; courses := []; warnings := [] |}.

(** The identifiers of a list, each where it stands first. *)
Fixpoint first_occurrences (l : list jsstring) : list jsstring :=
  match l with
  | [] => []
  | k :: r => k :: filter (fun x => negb (str_eqb k x)) (first_occurrences r)
  end.

(* ================================================================== *)
(** ** [compareCourses] and [main] at run time *)
(* ================================================================== *)

(** The previous snapshot comes from [loadPrev]: at run time its keys and
    values are whatever the file held.  The current snapshot comes from
    the scraper and holds records. *)

(** ToBoolean: of the numbers, the two zeros are falsy. *)
Definition truthy (v : JsValue) : bool :=
  match v with
  | VUndefined | VNull => false
  | VBool b => b
  | VNum (DFinite _ m _) => negb (m =? 0)%Z
  | VNum (DInfinity _) => true
  | VStr s => negb (is_nil s)
  | VArr _ | VObj _ => true
  end.

(** [p.hash]: as [c.id] above. *)
Definition prop_hash (p : JsValue) : Completion JsValue :=
  match p with
  | VNull | VUndefined => Throw TypeError
  | VObj props =>
      Normal (match prop_lookup props (js "hash") with
              | Some v => v
              | None => VUndefined
              end)
  | _ => Normal VUndefined
  end.

(** [a !== b] where [b] is a string: on the values of JSON, and on
    [undefined], strict equality is SameValueZero. *)
Definition strict_neq (a b : JsValue) : bool := negb (same_value_zero a b).

(** [curr.has(id)] for a key of the previous snapshot: the keys of the
    current one are strings. *)
Definition has_key (curr : CourseMap) (k : JsValue) : bool :=
  match k with
  | VStr s => has curr s
  | _ => false
  end.

Record RunDiff := {
  run_added : list Course;
  run_changed : list (JsValue * Course);
  run_removed : list JsValue
}.

(** [compareCourses] as it runs on these two maps. *)
Definition compareCourses_run (prev : ValueMap) (curr : CourseMap)
  : Completion RunDiff :=
  bind
    (fold_left
       (fun (acc : Completion (list Course * list (JsValue * Course)))
            (e : jsstring * Course) =>
          bind acc (fun lists =>
            let '(added, changed) := lists in
            let '(id, c) := e in
            match Map_get same_value_zero prev (VStr id) with
            | None => Normal (added ++ [c], changed)
            | Some p =>
                if negb (truthy p) then Normal (added ++ [c], changed)
                else
                  bind (prop_hash p) (fun h =>
                    if strict_neq h (VStr (hash c))
                    then Normal (added, changed ++ [(p, c)])
                    else Normal (added, changed))
            end))
       curr (Normal ([], [])))
    (fun lists =>
       let '(added, changed) := lists in
       let removed :=
         fold_left
           (fun (removed : list JsValue) (e : JsValue * JsValue) =>
              let '(id, p) := e in
              if negb (has_key curr id) then removed ++ [p] else removed)
           prev [] in
       Normal {| run_added := added; run_changed := changed;
                 run_removed := removed |}).

(** The differences between two snapshots of records, as the values they
    are at run time. *)
Definition run_diff_of (d : DiffResult) : RunDiff :=
  {| run_added := added d;
     run_changed := map (fun ch => (value_of_course (before ch), after ch))
                      (changed d);
     run_removed := map value_of_course (removed d) |}.

Section Main.
Variable FS : Type.
Variable readFileSync : FS -> jsstring -> Completion jsstring.
Variable writeFileSync : FS -> jsstring -> jsstring -> Completion FS.
Variable existsSync : FS -> jsstring -> bool.
Variable mkdirSync : FS -> jsstring -> Completion FS.
Variable dirname : jsstring -> jsstring.
(** [process.env.OUTPUT_JSON ?? "./data/courses.json"]. *)
Variable OUTPUT_JSON : jsstring.
(** [await notifySlack(SLACK_WEBHOOK_URI, diffs)]: it throws when the
    request cannot be made. *)
Variable notify : RunDiff -> Completion unit.

(** [main] of [src/scrape.ts], from what [scrapeListAndDetails] returned:
    the differences it reports and the file system it leaves. *)
Definition main (fs : FS) (currArr : list Course) : Completion (RunDiff * FS) :=
  bind (loadPrev readFileSync fs OUTPUT_JSON) (fun prev =>
  let currMap := snapshot_of currArr in
  bind (compareCourses_run prev currMap) (fun diffs =>
  bind (notify diffs) (fun _ =>
  bind (saveCurr writeFileSync existsSync mkdirSync dirname fs OUTPUT_JSON currArr)
    (fun fs' => Normal (diffs, fs'))))).
End Main.

Arguments main {FS} readFileSync writeFileSync existsSync mkdirSync dirname
  OUTPUT_JSON notify fs currArr.

Module SampleRun.
Definition notify_ok (d : RunDiff) : Completion unit := Normal tt.

(** [fetch] of node-fetch rejects with a system error when the connection
    cannot be made. *)
Definition network_error : Error := SystemError (js "ECONNREFUSED").
Definition notify_down (d : RunDiff) : Completion unit := Throw network_error.

Definition main : MemFS.t -> list Course -> Completion (RunDiff * MemFS.t) :=
  main MemFS.readFileSync MemFS.writeFileSync MemFS.existsSync MemFS.mkdirSync
    MemFS.dirname SampleStore.path notify_ok.

Definition no_difference : RunDiff :=
  {| run_added := []; run_changed := []; run_removed := [] |}.

Definition result (r : Completion (RunDiff * MemFS.t)) : RunDiff * MemFS.t :=
  match r with
  | Normal x => x
  | Throw _ => (no_difference, MemFS.empty)
  end.
End SampleRun.

Module SampleRun2.
(** What a later scrape finds: one record as before, one under a new
    fingerprint, one new. *)
Definition next : list Course :=
  [Sample.course "C1" "Logic" "a"; Sample.course "C2" "Algebra" "b2";
   Sample.course "C3" "Analysis" "c"].

(** A first run on [SampleStore2.courses], and a second one on the same
    list. *)
Definition first_run : RunDiff * MemFS.t :=
  SampleRun.result (SampleRun.main MemFS.empty SampleStore2.courses).

Definition second_run : RunDiff * MemFS.t :=
  SampleRun.result (SampleRun.main (snd first_run) SampleStore2.courses).
End SampleRun2.

(* ================================================================== *)
(** ** The page of [src/build-html.ts] *)
(* ================================================================== *)

(** A pattern of one code unit: [/&/], [/</], [/>/]. *)
Definition match_unit (u : N) (s : jsstring) : nat :=
  match s with
  | c :: _ => if (c =? u)%N then 1 else 0
  | [] => 0
  end.

Module Html.
Definition AMP : N := 38.
Definition LT : N := 60.
Definition GT : N := 62.
Definition QUOT : N := 34.
End Html.

(** [escapeHtml]: three replacements, one after the other.  None of the
    replacement texts holds a [$]. *)
Definition escapeHtml (s : jsstring) : jsstring :=
  replace_global (match_unit Html.GT) (js "&gt;")
    (replace_global (match_unit Html.LT) (js "&lt;")
       (replace_global (match_unit Html.AMP) (js "&amp;") s)).

(** [x ?? ""] for an optional field. *)
Definition or_empty (x : option jsstring) : jsstring :=
  match x with
  | Some s => s
  | None => []
  end.

(** A line of the template: a line feed, the indentation, the text. *)
Definition template_line (indent : nat) (text : jsstring) : jsstring :=
  Ch.LF :: repeat Ch.SP indent ++ text.

Definition cell (text : jsstring) : jsstring :=
  template_line 6 (js "<td>" ++ text ++ js "</td>").

Definition attribute (name value : jsstring) : jsstring :=
  name ++ js "=" ++ [Html.QUOT] ++ value ++ [Html.QUOT].

(** The row of a record, as the template literal of [main] builds it. *)
Definition row (c : Course) : jsstring :=
  template_line 4 (js "<tr>")
  ++ cell (escapeHtml (id c))
  ++ cell (js "<a " ++ attribute (js "href") (escapeHtml (detailUrl c))
           ++ js " " ++ attribute (js "target") (js "_blank")
           ++ js " " ++ attribute (js "rel") (js "noopener")
           ++ js ">" ++ escapeHtml (title c) ++ js "</a>")
  ++ cell (escapeHtml (instructor c))
  ++ cell (escapeHtml (term c))
  ++ cell (escapeHtml (dayPeriod c))
  ++ cell (escapeHtml (or_empty (room c)))
  ++ cell (escapeHtml (or_empty (updatedAt c)))
  ++ template_line 4 (js "</tr>")
  ++ template_line 2 [].

(** [arr.map(c => ...).join("")]. *)
Definition rows (arr : list Course) : jsstring := join [] (map row arr).

(** Auxiliary definitions for the properties of the page. *)

(** What one pass over the text does to a code unit. *)
Definition escape_unit (c : N) : jsstring :=
  if (c =? Html.AMP)%N then js "&amp;"
  else if (c =? Html.LT)%N then js "&lt;"
  else if (c =? Html.GT)%N then js "&gt;"
  else [c].

(** The three entities read back, from the end of the text. *)
Fixpoint unescapeHtml (s : jsstring) : jsstring :=
  match s with
  | [] => []
  | c :: r =>
      let d := unescapeHtml r in
      if (c =? Html.AMP)%N then
        match d with
        | 97 :: 109 :: 112 :: 59 :: d' => Html.AMP :: d'
        | 108 :: 116 :: 59 :: d' => Html.LT :: d'
        | 103 :: 116 :: 59 :: d' => Html.GT :: d'
        | _ => c :: d
        end%N
      else c :: d
  end.

Definition count_unit (u : N) (s : jsstring) : nat :=
  length (filter (N.eqb u) s).

(* ================================================================== *)
(** ** The message of [src/notify.ts] *)
(* ================================================================== *)

(** The decimal digits of a length, as a template literal prints it. *)
Fixpoint units_of_uint (d : Decimal.uint) : jsstring :=
  match d with
  | Decimal.Nil => []
  | Decimal.D0 r => 48%N :: units_of_uint r
  | Decimal.D1 r => 49%N :: units_of_uint r
  | Decimal.D2 r => 50%N :: units_of_uint r
  | Decimal.D3 r => 51%N :: units_of_uint r
  | Decimal.D4 r => 52%N :: units_of_uint r
  | Decimal.D5 r => 53%N :: units_of_uint r
  | Decimal.D6 r => 54%N :: units_of_uint r
  | Decimal.D7 r => 55%N :: units_of_uint r
  | Decimal.D8 r => 56%N :: units_of_uint r
  | Decimal.D9 r => 57%N :: units_of_uint r
  end.

Definition decimal (n : nat) : jsstring := units_of_uint (Nat.to_uint n).

Module Ja.
(** The texts of the message that are not ASCII, in UTF-16. *)
Definition added : jsstring := [36861; 21152]%N.
Definition updated : jsstring := [26356; 26032]%N.
Definition removed : jsstring := [21066; 38500]%N.
Definition items : jsstring := [20214]%N.
Definition bullet : jsstring := [8226]%N.
Definition updated_on : jsstring := [26356; 26032; 26085]%N.
Definition unknown : jsstring := [19981; 26126]%N.
Definition details : jsstring := [35443; 32048]%N.
Definition no_difference : jsstring := [24046; 20998; 12394; 12375]%N.
End Ja.

Definition header (label : jsstring) (n : nat) : jsstring :=
  label ++ js ": " ++ decimal n ++ Ja.items.

Definition added_line (c : Course) : jsstring :=
  Ja.bullet ++ js " [" ++ id c ++ js "] " ++ title c ++ js " ("
  ++ instructor c ++ js ") " ++ term c ++ js " " ++ dayPeriod c.

Definition changed_line (ch : Change) : jsstring :=
  let c := after ch in
  Ja.bullet ++ js " [" ++ id c ++ js "] " ++ title c ++ js " ("
  ++ instructor c ++ js ") " ++ Ja.updated_on ++ js ": "
  ++ match updatedAt c with Some u => u | None => Ja.unknown end
  ++ js " " ++ Ja.details ++ js ": " ++ detailUrl c.

Definition removed_line (c : Course) : jsstring :=
  Ja.bullet ++ js " [" ++ id c ++ js "] " ++ title c.

(** One of the three blocks: nothing for an empty list, else the header
    with the length of the whole list and a line for each of its first
    [cap] entries. *)
Definition block {A : Type} (label : jsstring) (cap : nat)
    (line : A -> jsstring) (l : list A) : list jsstring :=
  match length l with
  | O => []
  | S _ => header label (length l) :: map line (firstn cap l)
  end.

(** Auxiliary: the number of lines of a block for a list of [n] entries. *)
Definition block_lines (cap n : nat) : nat :=
  match n with
  | O => 0
  | S _ => 1 + Nat.min cap n
  end.

Definition notify_lines (diffs : DiffResult) : list jsstring :=
  block Ja.added 10 added_line (added diffs)
  ++ block Ja.updated 10 changed_line (changed diffs)
  ++ block Ja.removed 5 removed_line (removed diffs).

(** [lines.join("\n") || "..."]. *)
Definition notify_text (diffs : DiffResult) : jsstring :=
  let text := join [Ch.LF] (notify_lines diffs) in
  if is_nil text then Ja.no_difference else text.

(** [JSON.stringify({ text })]: no gap, so no white space. *)
Definition notify_body (text : jsstring) : jsstring :=
  js "{" ++ JSON_quote (js "text") ++ js ":" ++ JSON_quote text ++ js "}".

Module SampleNotify.
(** A record whose title holds a line feed, as an older history file may
    hold it. *)
Definition two_lines : Course :=
  {| id := js "C1"; title := [76; 10; 73]%N; instructor := js "Sato";
     term := js "2025"; dayPeriod := js "Mon 1"; room := None;
     updatedAt := None; bodyText := js "body"; detailUrl := js "https://portal/d";
     hash := js "a" |}.
End SampleNotify.

Record Request := {
  request_url : jsstring;
  request_body : jsstring
}.

(** [notifySlack]: the request it makes, if it makes one. *)
Definition notifySlack (webhook : jsstring) (diffs : DiffResult)
  : option Request :=
  if is_nil webhook then None
  else Some {| request_url := webhook;
               request_body := notify_body (notify_text diffs) |}.

(* ================================================================== *)
(** * Properties *)
(* ================================================================== *)

(** ** Strings *)

Lemma str_eqb_eq (a b : jsstring) : str_eqb a b = true <-> a = b.
Proof.
  unfold str_eqb. destruct (list_eq_dec N.eq_dec a b); split; congruence.
Qed.

Lemma str_eqb_neq (a b : jsstring) : str_eqb a b = false <-> a <> b.
Proof.
  unfold str_eqb. destruct (list_eq_dec N.eq_dec a b); split; congruence.
Qed.

Lemma str_eqb_refl (a : jsstring) : str_eqb a a = true.
Proof. now apply str_eqb_eq. Qed.

Example normalizeText_ex1 :
  normalizeText (js "  a
 b  ") = js "a b".
Proof. reflexivity. Qed.

Example normalizeText_ex2 :
  normalizeText ([9; 97; 160; 13; 10; 10; 12288; 98; 13; 99; 8232]%N)
  = [97; 32; 98; 32; 99]%N.
Proof. reflexivity. Qed.

(* ================================================================== *)
(** ** Maps with string keys *)
(* ================================================================== *)

Lemma get_cons (k k' : jsstring) (c : Course) (m : CourseMap) :
  get ((k', c) :: m) k = if str_eqb k' k then Some c else get m k.
Proof. reflexivity. Qed.

Lemma has_get (m : CourseMap) (k : jsstring) :
  has m k = match get m k with Some _ => true | None => false end.
Proof. reflexivity. Qed.

Lemma get_In (m : CourseMap) (k : jsstring) (c : Course) :
  get m k = Some c -> In (k, c) m.
Proof.
  induction m as [|[k' c'] m IH]; [discriminate|].
  rewrite get_cons. destruct (str_eqb k' k) eqn:E.
  - apply str_eqb_eq in E. intros [= ->]. subst. now left.
  - intros H. right. auto.
Qed.

Lemma get_None_notin (m : CourseMap) (k : jsstring) :
  get m k = None <-> ~ In k (Map_keys m).
Proof.
  induction m as [|[k' c'] m IH].
  - simpl. tauto.
  - rewrite get_cons. simpl. destruct (str_eqb k' k) eqn:E.
    + apply str_eqb_eq in E. split; [discriminate | intros H; exfalso; auto].
    + apply str_eqb_neq in E. rewrite IH. tauto.
Qed.

Lemma In_get (m : CourseMap) (k : jsstring) (c : Course) :
  NoDup (Map_keys m) -> In (k, c) m -> get m k = Some c.
Proof.
  induction m as [|[k' c'] m IH]; [simpl; tauto|].
  intros Hnd [H|H]; inversion Hnd as [|? ? Hni Hnd']; subst; rewrite get_cons.
  - injection H as -> ->. now rewrite str_eqb_refl.
  - destruct (str_eqb k' k) eqn:E.
    + apply str_eqb_eq in E. subst. exfalso. apply Hni.
      change k with (fst (k, c)). now apply in_map.
    + auto.
Qed.

Lemma Snapshot_ok_tail (e : jsstring * Course) (m : CourseMap) :
  Snapshot_ok (e :: m) -> Snapshot_ok m.
Proof.
  intros [Hnd Hid]. split.
  - now inversion Hnd.
  - now inversion Hid.
Qed.

Lemma Snapshot_ok_get_id (m : CourseMap) (k : jsstring) (c : Course) :
  Snapshot_ok m -> get m k = Some c -> id c = k.
Proof.
  intros [_ Hid] H. apply get_In in H.
  rewrite Forall_forall in Hid. symmetry. exact (Hid _ H).
Qed.

Lemma Snapshot_ok_In_get (m : CourseMap) (k : jsstring) (c : Course) :
  Snapshot_ok m -> In (k, c) m -> get m (id c) = Some c.
Proof.
  intros [Hnd Hid] H. rewrite Forall_forall in Hid.
  pose proof (Hid _ H) as E. simpl in E. subst k. now apply In_get.
Qed.

(** [set] keeps a snapshot a snapshot when the record goes under its own
    [id]; so every map the program builds from a list of records is one. *)
Lemma Map_set_keys (m : CourseMap) (k : jsstring) (c : Course) :
  Map_keys (Map_set str_eqb m k c)
  = if has m k then Map_keys m else Map_keys m ++ [k].
Proof.
  induction m as [|[k' c'] m IH]; [reflexivity|].
  simpl. rewrite has_get, get_cons. destruct (str_eqb k' k) eqn:E.
  - reflexivity.
  - simpl. rewrite IH, has_get. now destruct (get m k).
Qed.

Lemma Map_set_ok (m : CourseMap) (c : Course) :
  Snapshot_ok m -> Snapshot_ok (Map_set str_eqb m (id c) c).
Proof.
  intros [Hnd Hid]. split.
  - rewrite Map_set_keys, has_get. destruct (get m (id c)) eqn:G; [assumption|].
    apply get_None_notin in G.
    apply NoDup_rev in Hnd. rewrite <- (rev_involutive (_ ++ _)).
    apply NoDup_rev. rewrite rev_app_distr. simpl. constructor; [|assumption].
    now rewrite <- in_rev.
  - clear Hnd. induction m as [|[k' c'] m IH]; simpl.
    + constructor; [reflexivity | constructor].
    + inversion Hid as [|? ? H1 H2]; subst. simpl in H1.
      destruct (str_eqb k' (id c)) eqn:E.
      * apply str_eqb_eq in E. constructor; [exact E | assumption].
      * constructor; auto.
Qed.

Lemma snapshot_of_ok (arr : list Course) : Snapshot_ok (snapshot_of arr).
Proof.
  unfold snapshot_of, new_Map.
  assert (G : forall (m : CourseMap), Snapshot_ok m ->
    Snapshot_ok (fold_left (fun m kv => Map_set str_eqb m (fst kv) (snd kv))
                   (map (fun c => (id c, c)) arr) m)).
  { induction arr as [|c arr IH]; intros m Hm; simpl; [assumption|].
    apply IH. now apply Map_set_ok. }
  apply G. split; constructor.
Qed.

(* ================================================================== *)
(** ** The reconciler *)
(* ================================================================== *)

Lemma compareCourses_eq (prev curr : CourseMap) :
  compareCourses prev curr
  = {| added := added_of prev curr;
       changed := changed_of prev curr;
       removed := removed_of prev curr |}.
Proof.
  unfold compareCourses.
  match goal with |- context [fold_left ?f curr ([], [])] => set (f1 := f) end.
  match goal with |- context [fold_left ?f prev []] => set (f2 := f) end.
  assert (H1 : forall l a ch,
    fold_left f1 l (a, ch) = (a ++ added_of prev l, ch ++ changed_of prev l)).
  { induction l as [|[k c] l IH]; intros a ch; simpl.
    - now rewrite !app_nil_r.
    - unfold added_of, changed_of, change_of. simpl. rewrite has_get.
      destruct (get prev k) as [p|] eqn:G; simpl.
      + destruct (negb (str_eqb (hash p) (hash c))); rewrite IH; simpl.
        * now rewrite <- app_assoc.
        * reflexivity.
      + rewrite IH, <- app_assoc. reflexivity. }
  assert (H2 : forall l r,
    fold_left f2 l r = r ++ map snd (filter (fun e => negb (has curr (fst e))) l)).
  { induction l as [|[k p] l IH]; intros r; simpl.
    - now rewrite app_nil_r.
    - destruct (negb (has curr k)); rewrite IH; simpl.
      + now rewrite <- app_assoc.
      + reflexivity. }
  rewrite H1, H2. reflexivity.
Qed.

Lemma in_added_of (prev curr : CourseMap) (c : Course) :
  In c (added_of prev curr) <-> exists k, In (k, c) curr /\ get prev k = None.
Proof.
  unfold added_of. rewrite in_map_iff. split.
  - intros [[k c'] [E H]]. simpl in E. subst c'.
    apply filter_In in H. destruct H as [H N]. simpl in N.
    rewrite has_get in N. exists k. split; [assumption|].
    now destruct (get prev k).
  - intros [k [H N]]. exists (k, c). split; [reflexivity|].
    apply filter_In. split; [assumption|]. simpl. now rewrite has_get, N.
Qed.

Lemma in_removed_of (prev curr : CourseMap) (p : Course) :
  In p (removed_of prev curr) <-> exists k, In (k, p) prev /\ get curr k = None.
Proof. exact (in_added_of curr prev p). Qed.

Lemma in_changed_of (prev curr : CourseMap) (ch : Change) :
  In ch (changed_of prev curr) <->
  exists k, In (k, after ch) curr /\ get prev k = Some (before ch)
            /\ hash (before ch) <> hash (after ch).
Proof.
  unfold changed_of. rewrite in_flat_map. split.
  - intros [[k c] [H I]]. unfold change_of in I. simpl in I.
    destruct (get prev k) as [p|] eqn:G; [|contradiction].
    destruct (str_eqb (hash p) (hash c)) eqn:E; simpl in I; [contradiction|].
    destruct I as [<-|[]]. simpl. exists k. repeat split; try assumption.
    now apply str_eqb_neq.
  - intros [k [H [G N]]]. exists (k, after ch). split; [assumption|].
    unfold change_of. simpl. rewrite G.
    apply str_eqb_neq in N. rewrite N. simpl. left. now destruct ch.
Qed.

(** *** Counting *)

Lemma filter_split_length (A : Type) (a b c : A -> bool) (l : list A) :
  (forall e, In e l -> a e = true -> c e = false) ->
  length (filter (fun e => if a e then b e else c e) l)
  = length (filter (fun e => a e && b e) l) + length (filter c l).
Proof.
  induction l as [|e l IH]; intros H; [reflexivity|]. simpl.
  assert (IH' := IH (fun e' He' => H e' (or_intror He'))).
  destruct (a e) eqn:Ea; simpl.
  - rewrite (H e (or_introl eq_refl) Ea).
    destruct (b e); simpl; rewrite IH'; reflexivity.
  - destruct (c e); simpl; rewrite IH'; lia.
Qed.

Lemma count_key (t : Course -> bool) (m : CourseMap) (k : jsstring) :
  NoDup (Map_keys m) ->
  length (filter (fun e => str_eqb k (fst e) && t (snd e)) m)
  = match get m k with
    | Some c => if t c then 1 else 0
    | None => 0
    end.
Proof.
  induction m as [|[k' c'] m IH]; intros Hnd; [reflexivity|].
  inversion Hnd as [|? ? Hni Hnd']; subst.
  rewrite get_cons. simpl.
  destruct (str_eqb k k') eqn:E.
  - apply str_eqb_eq in E. subst k'. rewrite str_eqb_refl.
    apply get_None_notin in Hni.
    destruct (t c'); simpl; rewrite IH, Hni by assumption; reflexivity.
  - assert (E' : str_eqb k' k = false).
    { apply str_eqb_neq. apply str_eqb_neq in E. congruence. }
    rewrite E'. simpl. now apply IH.
Qed.

(** The identifiers the two snapshots share are counted alike from either
    side. *)
Lemma matched_count_sym (t : Course -> Course -> bool) (prev curr : CourseMap) :
  NoDup (Map_keys prev) -> NoDup (Map_keys curr) ->
  length (filter (fun e => match get prev (fst e) with
                           | Some p => t p (snd e)
                           | None => false
                           end) curr)
  = length (filter (fun e => match get curr (fst e) with
                             | Some c => t (snd e) c
                             | None => false
                             end) prev).
Proof.
  intros Hp Hc. induction prev as [|[k p] prev IH].
  - simpl. induction curr as [|e curr IHc]; [reflexivity|].
    simpl. apply IHc. now inversion Hc.
  - inversion Hp as [|? ? Hni Hp']; subst.
    transitivity
      (length (filter (fun e => if str_eqb k (fst e) then t p (snd e)
                                else match get prev (fst e) with
                                     | Some p' => t p' (snd e)
                                     | None => false
                                     end) curr)).
    { f_equal. apply filter_ext. intros [k' c']. rewrite get_cons. simpl.
      now destruct (str_eqb k k'). }
    rewrite filter_split_length.
    + rewrite (count_key (t p)) by assumption. rewrite IH by assumption.
      simpl. destruct (get curr k) as [c|]; [destruct (t p c)|]; reflexivity.
    + intros [k' c'] _ E. simpl in *. apply str_eqb_eq in E. subst k'.
      apply get_None_notin in Hni. now rewrite Hni.
Qed.

Lemma changed_of_length (prev curr : CourseMap) :
  length (changed_of prev curr)
  = length (filter (fun e => match get prev (fst e) with
                             | Some p => differs p (snd e)
                             | None => false
                             end) curr).
Proof.
  unfold changed_of, change_of, differs.
  induction curr as [|[k c] curr IH]; [reflexivity|]. simpl.
  rewrite length_app, IH.
  destruct (get prev k) as [p|]; [|reflexivity].
  destruct (negb (str_eqb (hash p) (hash c))); reflexivity.
Qed.

Lemma unchanged_length (prev curr : CourseMap) :
  length (unchanged prev curr)
  = length (filter (fun e => match get prev (fst e) with
                             | Some p => agrees p (snd e)
                             | None => false
                             end) curr).
Proof. unfold unchanged. now rewrite length_map. Qed.

Lemma three_way_length (m other : CourseMap) (t : Course -> Course -> bool) :
  length (filter (fun e => negb (has other (fst e))) m)
  + length (filter (fun e => match get other (fst e) with
                             | Some c => negb (t (snd e) c)
                             | None => false
                             end) m)
  + length (filter (fun e => match get other (fst e) with
                             | Some c => t (snd e) c
                             | None => false
                             end) m)
  = length m.
Proof.
  induction m as [|[k p] m IH]; [reflexivity|]. simpl. rewrite has_get.
  destruct (get other k) as [c|]; simpl.
  - destruct (t p c); simpl; lia.
  - lia.
Qed.

Example compareCourses_sample :
  compareCourses Sample.prev Sample.curr
  = {| added := [Sample.course "C4" "Biology" "d"];
       changed := [{| before := Sample.course "C2" "Algebra" "b";
                      after := Sample.course "C2" "Algebra" "z" |}];
       removed := [Sample.course "C3" "Physics" "c"] |}.
Proof. reflexivity. Qed.

(** C1.  The reconciler classifies exactly: [added] holds the records of
    [curr] whose identifier [prev] lacks, [changed] the pairs of the
    records both have under one identifier with different fingerprints,
    [removed] the records of [prev] whose identifier [curr] lacks, and
    nothing else; an identifier both have with equal fingerprints is in no
    list, whatever the other fields are. *)
Theorem compareCourses_classifies (prev curr : CourseMap) :
  Snapshot_ok prev -> Snapshot_ok curr ->
  let d := compareCourses prev curr in
  (forall c, In c (added d) <->
             exists k, get curr k = Some c /\ get prev k = None)
  /\ (forall p c, In {| before := p; after := c |} (changed d) <->
                  exists k, get curr k = Some c /\ get prev k = Some p
                            /\ hash p <> hash c)
  /\ (forall p, In p (removed d) <->
                exists k, get prev k = Some p /\ get curr k = None)
  /\ (forall k p c,
        get prev k = Some p -> get curr k = Some c -> hash p = hash c ->
        (forall x, In x (added d) -> id x <> k)
        /\ (forall ch, In ch (changed d) ->
                       id (before ch) <> k /\ id (after ch) <> k)
        /\ (forall x, In x (removed d) -> id x <> k)).
Proof.
  intros Hp Hc d. subst d. rewrite compareCourses_eq. simpl.
  assert (Ep : forall k c, In (k, c) prev <-> get prev k = Some c).
  { intros k c. split; [apply In_get, Hp | apply get_In]. }
  assert (Ec : forall k c, In (k, c) curr <-> get curr k = Some c).
  { intros k c. split; [apply In_get, Hc | apply get_In]. }
  split; [|split; [|split]].
  - intros c. rewrite in_added_of. split; intros [k [H N]]; exists k;
      split; try assumption; now apply Ec.
  - intros p c. rewrite in_changed_of. simpl.
    split; intros [k [H N]]; exists k; split; try assumption; now apply Ec.
  - intros p. rewrite in_removed_of. split; intros [k [H N]]; exists k;
      split; try assumption; now apply Ep.
  - intros k p c Gp Gc E. split; [|split].
    + intros x Hx Ex. apply in_added_of in Hx. destruct Hx as [k' [H N]].
      apply Ec in H. rewrite (Snapshot_ok_get_id _ _ _ Hc H) in Ex. congruence.
    + intros [b a] Hx. apply in_changed_of in Hx. simpl in *.
      destruct Hx as [k' [H [G N]]]. apply Ec in H.
      rewrite (Snapshot_ok_get_id _ _ _ Hc H), (Snapshot_ok_get_id _ _ _ Hp G).
      split; intros ->; apply N; congruence.
    + intros x Hx Ex. apply in_removed_of in Hx. destruct Hx as [k' [H N]].
      apply Ep in H. rewrite (Snapshot_ok_get_id _ _ _ Hp H) in Ex. congruence.
Qed.

Lemma compareCourses_classifies_witness :
  Snapshot_ok Sample.prev /\ Snapshot_ok Sample.curr
  /\ (forall c, In c (added (compareCourses Sample.prev Sample.curr)) <->
                exists k, get Sample.curr k = Some c
                          /\ get Sample.prev k = None).
Proof.
  split; [apply snapshot_of_ok | split; [apply snapshot_of_ok|]].
  exact (proj1 (compareCourses_classifies _ _
                  (snapshot_of_ok _) (snapshot_of_ok _))).
Defined.

(** C10.  Every entry of [changed] pairs the two records one identifier
    has in the two snapshots, and their fingerprints differ; no record of
    [added] has its identifier in [prev], none of [removed] in [curr]. *)
Theorem compareCourses_entries_consistent (prev curr : CourseMap) :
  Snapshot_ok prev -> Snapshot_ok curr ->
  let d := compareCourses prev curr in
  (forall ch, In ch (changed d) ->
     id (before ch) = id (after ch)
     /\ get prev (id (after ch)) = Some (before ch)
     /\ get curr (id (after ch)) = Some (after ch)
     /\ hash (before ch) <> hash (after ch))
  /\ (forall c, In c (added d) -> has prev (id c) = false)
  /\ (forall p, In p (removed d) -> has curr (id p) = false).
Proof.
  intros Hp Hc d. subst d. rewrite compareCourses_eq. simpl.
  split; [|split].
  - intros ch Hx. apply in_changed_of in Hx. destruct Hx as [k [H [G N]]].
    pose proof (Snapshot_ok_In_get _ _ _ Hc H) as Gc.
    apply In_get in H; [|apply Hc].
    rewrite (Snapshot_ok_get_id _ _ _ Hc H), (Snapshot_ok_get_id _ _ _ Hp G) in *.
    auto.
  - intros c Hx. apply in_added_of in Hx. destruct Hx as [k [H N]].
    apply In_get in H; [|apply Hc].
    rewrite (Snapshot_ok_get_id _ _ _ Hc H), has_get, N. reflexivity.
  - intros p Hx. apply in_removed_of in Hx. destruct Hx as [k [H N]].
    apply In_get in H; [|apply Hp].
    rewrite (Snapshot_ok_get_id _ _ _ Hp H), has_get, N. reflexivity.
Qed.

Lemma compareCourses_entries_consistent_witness :
  Snapshot_ok Sample.prev /\ Snapshot_ok Sample.curr
  /\ (forall ch, In ch (changed (compareCourses Sample.prev Sample.curr)) ->
        id (before ch) = id (after ch)
        /\ get Sample.prev (id (after ch)) = Some (before ch)
        /\ get Sample.curr (id (after ch)) = Some (after ch)
        /\ hash (before ch) <> hash (after ch)).
Proof.
  split; [apply snapshot_of_ok | split; [apply snapshot_of_ok|]].
  exact (proj1 (compareCourses_entries_consistent _ _
                  (snapshot_of_ok _) (snapshot_of_ok _))).
Defined.

(** *** The four classes of an identifier *)

Lemma added_ids (prev curr : CourseMap) (k : jsstring) :
  Snapshot_ok curr ->
  (In k (map id (added_of prev curr)) <-> has curr k = true /\ has prev k = false).
Proof.
  intros Hc. rewrite in_map_iff. split.
  - intros [c [E H]]. apply in_added_of in H. destruct H as [k' [H N]].
    apply In_get in H; [|apply Hc].
    rewrite (Snapshot_ok_get_id _ _ _ Hc H) in E. subst k'.
    now rewrite !has_get, H, N.
  - rewrite !has_get. intros [H N].
    destruct (get curr k) as [c|] eqn:G; [|discriminate].
    destruct (get prev k) eqn:G'; [discriminate|].
    exists c. split; [exact (Snapshot_ok_get_id _ _ _ Hc G)|].
    apply in_added_of. exists k. split; [now apply get_In | assumption].
Qed.

Lemma removed_ids (prev curr : CourseMap) (k : jsstring) :
  Snapshot_ok prev ->
  (In k (map id (removed_of prev curr)) <-> has prev k = true /\ has curr k = false).
Proof. exact (added_ids curr prev k). Qed.

Lemma changed_ids (prev curr : CourseMap) (k : jsstring) :
  Snapshot_ok curr ->
  (In k (map (fun ch => id (after ch)) (changed_of prev curr)) <->
   exists p c, get prev k = Some p /\ get curr k = Some c /\ hash p <> hash c).
Proof.
  intros Hc. rewrite in_map_iff. split.
  - intros [ch [E H]]. apply in_changed_of in H. destruct H as [k' [H [G N]]].
    apply In_get in H; [|apply Hc].
    rewrite (Snapshot_ok_get_id _ _ _ Hc H) in E. subst k'.
    exists (before ch), (after ch). auto.
  - intros [p [c [Gp [Gc N]]]]. exists {| before := p; after := c |}.
    split; [exact (Snapshot_ok_get_id _ _ _ Hc Gc)|].
    apply in_changed_of. exists k. simpl. split; [now apply get_In | auto].
Qed.

Lemma unchanged_ids (prev curr : CourseMap) (k : jsstring) :
  Snapshot_ok curr ->
  (In k (unchanged prev curr) <->
   exists p c, get prev k = Some p /\ get curr k = Some c /\ hash p = hash c).
Proof.
  intros Hc. unfold unchanged. rewrite in_map_iff. split.
  - intros [[k' c] [E H]]. simpl in E. subst k'.
    apply filter_In in H. destruct H as [H T]. simpl in T.
    destruct (get prev k) as [p|] eqn:G; [|discriminate].
    apply str_eqb_eq in T. apply In_get in H; [|apply Hc].
    exists p, c. auto.
  - intros [p [c [Gp [Gc E]]]]. exists (k, c). split; [reflexivity|].
    apply filter_In. split; [now apply get_In|]. simpl. rewrite Gp.
    now apply str_eqb_eq.
Qed.

Lemma filter_none (A : Type) (f : A -> bool) (l : list A) :
  (forall e, In e l -> f e = false) -> filter f l = [].
Proof.
  induction l as [|e l IH]; intros H; [reflexivity|]. simpl.
  rewrite (H e (or_introl eq_refl)). apply IH. intros e' He'. apply H. now right.
Qed.

Lemma compareCourses_self (s : CourseMap) :
  NoDup (Map_keys s) ->
  compareCourses s s = {| added := []; changed := []; removed := [] |}.
Proof.
  intros Hnd. rewrite compareCourses_eq.
  assert (G : forall e, In e s -> get s (fst e) = Some (snd e)).
  { intros [k c] H. now apply In_get. }
  assert (A : added_of s s = []).
  { unfold added_of. rewrite filter_none; [reflexivity|].
    intros e H. now rewrite has_get, (G e H). }
  assert (F : forall l, (forall e, In e l -> get s (fst e) = Some (snd e)) ->
                        flat_map (change_of s) l = []).
  { induction l as [|e l IH]; intros Hl; [reflexivity|]. simpl.
    rewrite IH by (intros; apply Hl; now right).
    unfold change_of. rewrite (Hl e (or_introl eq_refl)).
    now rewrite str_eqb_refl. }
  unfold changed_of. rewrite (F s G).
  unfold removed_of. fold (added_of s s). now rewrite A.
Qed.

(** C2.  Every identifier of either snapshot is in exactly one of the four
    classes, the classes add up to the sizes of the two snapshots, and a
    snapshot compared with itself gives three empty lists. *)
Theorem compareCourses_partitions (prev curr : CourseMap) :
  Snapshot_ok prev -> Snapshot_ok curr ->
  let d := compareCourses prev curr in
  let is_added k := In k (map id (added d)) in
  let is_changed k := In k (map (fun ch => id (after ch)) (changed d)) in
  let is_removed k := In k (map id (removed d)) in
  let is_unchanged k := In k (unchanged prev curr) in
  (forall k, has prev k = true \/ has curr k = true ->
     (is_added k \/ is_changed k \/ is_removed k \/ is_unchanged k)
     /\ ~ (is_added k /\ is_changed k) /\ ~ (is_added k /\ is_removed k)
     /\ ~ (is_added k /\ is_unchanged k) /\ ~ (is_changed k /\ is_removed k)
     /\ ~ (is_changed k /\ is_unchanged k)
     /\ ~ (is_removed k /\ is_unchanged k))
  /\ length (added d) + length (changed d) + length (unchanged prev curr)
     = length curr
  /\ length (removed d) + length (changed d) + length (unchanged prev curr)
     = length prev
  /\ (prev = curr -> added d = [] /\ changed d = [] /\ removed d = []).
Proof.
  intros Hp Hc d A C R U. subst A C R U d. rewrite compareCourses_eq. simpl.
  split; [|split; [|split]].
  - intros k Hk.
    rewrite (added_ids prev curr k Hc), (removed_ids prev curr k Hp),
      (changed_ids prev curr k Hc), (unchanged_ids prev curr k Hc).
    rewrite !has_get in *.
    destruct (get prev k) as [p|] eqn:Gp; destruct (get curr k) as [c|] eqn:Gc.
    + destruct (list_eq_dec N.eq_dec (hash p) (hash c)) as [E|E].
      * split; [right; right; right; now exists p, c|].
        repeat split; intros H; class_contra.
      * split; [right; left; now exists p, c|].
        repeat split; intros H; class_contra.
    + split; [right; right; left; auto|].
      repeat split; intros H; class_contra.
    + split; [left; auto|].
      repeat split; intros H; class_contra.
    + destruct Hk; discriminate.
  - unfold added_of. rewrite length_map, changed_of_length, unchanged_length.
    clear Hp Hc. induction curr as [|[k c] curr IH]; [reflexivity|].
    simpl. rewrite has_get. unfold differs, agrees in *.
    destruct (get prev k) as [p|]; simpl.
    + destruct (str_eqb (hash p) (hash c)); simpl; lia.
    + lia.
  - unfold removed_of. rewrite length_map, changed_of_length, unchanged_length.
    rewrite (matched_count_sym differs prev curr) by (apply Hp || apply Hc).
    rewrite (matched_count_sym agrees prev curr) by (apply Hp || apply Hc).
    unfold differs.
    exact (three_way_length prev curr (fun p c => str_eqb (hash p) (hash c))).
  - intros ->. pose proof (compareCourses_self curr (proj1 Hc)) as S.
    rewrite compareCourses_eq in S. injection S as -> -> ->. auto.
Qed.

Lemma compareCourses_partitions_witness :
  Snapshot_ok Sample.prev /\ Snapshot_ok Sample.curr
  /\ length (added (compareCourses Sample.prev Sample.curr))
     + length (changed (compareCourses Sample.prev Sample.curr))
     + length (unchanged Sample.prev Sample.curr)
     = length Sample.curr
  /\ length (removed (compareCourses Sample.prev Sample.curr))
     + length (changed (compareCourses Sample.prev Sample.curr))
     + length (unchanged Sample.prev Sample.curr)
     = length Sample.prev.
Proof.
  split; [apply snapshot_of_ok | split; [apply snapshot_of_ok|]].
  pose proof (compareCourses_partitions Sample.prev Sample.curr
                (snapshot_of_ok _) (snapshot_of_ok _)) as H.
  exact (conj (proj1 (proj2 H)) (proj1 (proj2 (proj2 H)))).
Defined.

(* ================================================================== *)
(** ** Canonicalisation *)
(* ================================================================== *)

Lemma words_aux_cons (c : N) (r : jsstring) :
  words_aux (c :: r)
  = if is_ws c then ([], words r) else (c :: fst (words_aux r), snd (words_aux r)).
Proof. unfold words. simpl. now destruct (words_aux r). Qed.

Lemma words_ws (c : N) (r : jsstring) :
  is_ws c = true -> words (c :: r) = words r.
Proof.
  intros H. unfold words at 1. rewrite words_aux_cons, H. reflexivity.
Qed.

Lemma words_aux_ext (c : N) (a b : jsstring) :
  words_aux a = words_aux b -> words_aux (c :: a) = words_aux (c :: b).
Proof. intros H. rewrite !words_aux_cons. unfold words. now rewrite H. Qed.

Lemma replace_scan_0 (m : jsstring -> nat) (repl : jsstring) (c : N) (r : jsstring) :
  replace_scan m repl 0 (c :: r)
  = match m (c :: r) with
    | O => c :: replace_scan m repl 0 r
    | S n => repl ++ replace_scan m repl n r
    end.
Proof. reflexivity. Qed.

(** Replacing runs of whitespace by a space changes no word. *)
Lemma replace_scan_words (m : jsstring -> nat) :
  matches_ws m ->
  forall s,
    words_aux (replace_scan m [Ch.SP] 0 s) = words_aux s
    /\ forall k, k <= length s ->
         Forall (fun c => is_ws c = true) (firstn k s) ->
         words (replace_scan m [Ch.SP] k s) = words s.
Proof.
  intros Hm. induction s as [|c r [IH1 IH2]].
  - split; [reflexivity|]. intros k _ _. now destruct k.
  - assert (P1 : words_aux (replace_scan m [Ch.SP] 0 (c :: r))
                 = words_aux (c :: r)).
    { rewrite replace_scan_0. destruct (m (c :: r)) as [|n] eqn:M.
      - now apply words_aux_ext.
      - destruct (Hm _ _ M) as [Hlen Hws]. simpl in Hlen, Hws.
        inversion Hws as [|? ? Hc Hr]; subst.
        change ([Ch.SP] ++ replace_scan m [Ch.SP] n r)
          with (Ch.SP :: replace_scan m [Ch.SP] n r).
        rewrite !words_aux_cons, Hc. change (is_ws Ch.SP) with true.
        rewrite IH2; [reflexivity | lia | assumption]. }
    split; [exact P1|].
    intros [|k] Hlen Hws.
    + unfold words. now rewrite P1.
    + simpl in *. inversion Hws as [|? ? Hc Hr]; subst.
      rewrite (words_ws _ _ Hc). apply IH2; [lia | assumption].
Qed.

Lemma take_while_all (p : N -> bool) (s : jsstring) :
  Forall (fun c => p c = true) (take_while p s).
Proof.
  induction s as [|c r IH]; simpl; [constructor|].
  destruct (p c) eqn:E; constructor; assumption.
Qed.

Lemma take_while_firstn (p : N -> bool) (s : jsstring) :
  firstn (length (take_while p s)) s = take_while p s.
Proof.
  induction s as [|c r IH]; [reflexivity|]. simpl.
  destruct (p c); simpl; [now rewrite IH | reflexivity].
Qed.

Lemma take_while_length (p : N -> bool) (s : jsstring) :
  length (take_while p s) <= length s.
Proof.
  induction s as [|c r IH]; simpl; [lia|]. destruct (p c); simpl; lia.
Qed.

Lemma is_ws_LF (c : N) : N.eqb Ch.LF c = true -> is_ws c = true.
Proof. intros H. apply N.eqb_eq in H. now subst. Qed.

Lemma matches_ws_spaces : matches_ws match_spaces.
Proof.
  intros s n H. unfold match_spaces in H. split.
  - rewrite <- H. apply take_while_length.
  - rewrite <- H, take_while_firstn. apply take_while_all.
Qed.

Lemma matches_ws_nbsp : matches_ws match_nbsp.
Proof.
  intros [|c r] n H; simpl in H; [discriminate|].
  destruct (c =? Ch.NBSP)%N eqn:E; [|discriminate].
  injection H as <-. apply N.eqb_eq in E. subst. simpl. split; [lia|].
  constructor; [reflexivity | constructor].
Qed.

Lemma matches_ws_newlines : matches_ws match_newlines.
Proof.
  assert (L : forall s, Forall (fun c => is_ws c = true)
                          (take_while (N.eqb Ch.LF) s)).
  { intros s. eapply Forall_impl; [|apply take_while_all].
    intros a. apply is_ws_LF. }
  intros [|c r] n H; [discriminate|].
  unfold match_newlines in H.
  destruct (c =? Ch.CR)%N eqn:E.
  - apply N.eqb_eq in E. subst c.
    destruct (length (take_while (N.eqb Ch.LF) r)) as [|k] eqn:K; [discriminate|].
    injection H as <-. split.
    + simpl. pose proof (take_while_length (N.eqb Ch.LF) r). lia.
    + change (firstn (S (S k)) (Ch.CR :: r)) with (Ch.CR :: firstn (S k) r).
      constructor; [reflexivity|]. rewrite <- K, take_while_firstn. apply L.
  - split.
    + rewrite <- H. apply (take_while_length (N.eqb Ch.LF) (c :: r)).
    + rewrite <- H.
      rewrite (take_while_firstn (N.eqb Ch.LF) (c :: r)). apply L.
Qed.

Lemma replace_global_words (m : jsstring -> nat) (s : jsstring) :
  matches_ws m -> words (replace_global m [Ch.SP] s) = words s.
Proof.
  intros Hm. unfold words, replace_global.
  now rewrite (proj1 (replace_scan_words m Hm s)).
Qed.

(** *** The second replacement squeezes *)

Lemma match_spaces_cons (c : N) (r : jsstring) :
  match_spaces (c :: r)
  = if is_ws c then S (length (take_while is_ws r)) else 0.
Proof. unfold match_spaces. simpl. now destruct (is_ws c). Qed.

Lemma squeeze_cons_ws (c : N) (r : jsstring) :
  is_ws c = true ->
  squeeze (c :: r)
  = if starts_ws r then squeeze r else Ch.SP :: squeeze r.
Proof. intros H. simpl. rewrite H. now destruct r. Qed.

Lemma starts_ws_take_while (r : jsstring) :
  starts_ws r = match length (take_while is_ws r) with O => false | S _ => true end.
Proof. destruct r as [|d r]; [reflexivity|]. simpl. now destruct (is_ws d). Qed.

Lemma replace_spaces_squeeze (s : jsstring) :
  replace_scan match_spaces [Ch.SP] 0 s = squeeze s
  /\ (starts_ws s = true ->
      Ch.SP :: replace_scan match_spaces [Ch.SP]
                 (length (take_while is_ws s)) s = squeeze s).
Proof.
  induction s as [|c r [IH1 IH2]]; [split; [reflexivity | discriminate]|].
  assert (P2 : is_ws c = true ->
               Ch.SP :: replace_scan match_spaces [Ch.SP]
                          (length (take_while is_ws r)) r
               = squeeze (c :: r)).
  { intros Hc. rewrite (squeeze_cons_ws _ _ Hc).
    destruct (starts_ws r) eqn:R; [now apply IH2|].
    rewrite starts_ws_take_while in R.
    destruct (length (take_while is_ws r)); [|discriminate]. now rewrite IH1. }
  split.
  - rewrite replace_scan_0, match_spaces_cons.
    destruct (is_ws c) eqn:Hc; [now apply P2|].
    rewrite IH1. simpl. now rewrite Hc.
  - intros Hc. simpl in Hc. simpl take_while. rewrite Hc. now apply P2.
Qed.

Lemma squeeze_squeezed (s : jsstring) :
  squeezed (squeeze s) /\ starts_ws (squeeze s) = starts_ws s.
Proof.
  induction s as [|c r [IH1 IH2]]; [split; [exact I | reflexivity]|].
  destruct (is_ws c) eqn:Hc.
  - rewrite (squeeze_cons_ws _ _ Hc).
    change (starts_ws (c :: r)) with (is_ws c). rewrite Hc.
    destruct (starts_ws r) eqn:R.
    + split; [assumption | congruence].
    + split; [|reflexivity]. simpl. split; [|assumption].
      intros _. split; [reflexivity | congruence].
  - simpl. rewrite Hc. simpl. rewrite Hc. split; [|reflexivity].
    split; [discriminate | assumption].
Qed.

Lemma replace_nbsp_squeezed (t : jsstring) :
  squeezed t -> replace_global match_nbsp [Ch.SP] t = t.
Proof.
  unfold replace_global. induction t as [|c r IH]; [reflexivity|].
  intros [Hc Hr]. rewrite replace_scan_0. simpl.
  destruct (c =? Ch.NBSP)%N eqn:E.
  - apply N.eqb_eq in E. subst c. destruct (Hc eq_refl) as [H _]. discriminate.
  - now rewrite IH.
Qed.

(** *** [trim] *)

Lemma drop_while_snoc (p : N -> bool) (l : jsstring) (c : N) :
  drop_while p (l ++ [c])
  = if is_nil (drop_while p l) then (if p c then [] else [c])
    else drop_while p l ++ [c].
Proof.
  induction l as [|d l IH]; [reflexivity|]. simpl.
  destruct (p d); [exact IH | reflexivity].
Qed.

Lemma drop_end_ws_cons (c : N) (r : jsstring) :
  drop_end_ws (c :: r)
  = if is_ws c && is_nil (drop_end_ws r) then [] else c :: drop_end_ws r.
Proof.
  unfold drop_end_ws. simpl rev at 2. rewrite drop_while_snoc.
  destruct (drop_while is_ws (rev r)) as [|d l] eqn:D.
  - simpl. now destruct (is_ws c).
  - assert (E : is_nil (rev (d :: l)) = false).
    { simpl. now destruct (rev l). }
    rewrite E, andb_false_r. change (is_nil (d :: l)) with false.
    cbv iota. rewrite rev_app_distr. reflexivity.
Qed.

Lemma trim_eq (s : jsstring) : trim s = drop_end_ws (drop_while is_ws s).
Proof. reflexivity. Qed.

Lemma drop_while_squeezed (s : jsstring) :
  squeezed s -> squeezed (drop_while is_ws s).
Proof.
  induction s as [|c r IH]; [trivial|]. intros H. simpl.
  destruct (is_ws c); [apply IH, H | exact H].
Qed.

Lemma drop_while_starts (s : jsstring) : starts_ws (drop_while is_ws s) = false.
Proof.
  induction s as [|c r IH]; [reflexivity|]. simpl.
  destruct (is_ws c) eqn:E; [exact IH | simpl; exact E].
Qed.

Lemma drop_while_words (s : jsstring) : words (drop_while is_ws s) = words s.
Proof.
  induction s as [|c r IH]; [reflexivity|]. simpl.
  destruct (is_ws c) eqn:E; [|reflexivity]. now rewrite (words_ws _ _ E).
Qed.

Lemma drop_end_ws_words (s : jsstring) :
  words_aux (drop_end_ws s) = words_aux s.
Proof.
  induction s as [|c r IH]; [reflexivity|]. rewrite drop_end_ws_cons.
  destruct (is_ws c && is_nil (drop_end_ws r)) eqn:E.
  - apply andb_prop in E. destruct E as [Hc Hn].
    destruct (drop_end_ws r); [|discriminate].
    rewrite words_aux_cons, Hc. unfold words. rewrite <- IH. reflexivity.
  - now apply words_aux_ext.
Qed.

Lemma drop_end_ws_canonical (s : jsstring) :
  squeezed s -> starts_ws s = false ->
  squeezed (drop_end_ws s)
  /\ starts_ws (drop_end_ws s) = false
  /\ ends_ws (drop_end_ws s) = false
  /\ (starts_ws s = false -> starts_ws (drop_end_ws s) = false).
Proof.
  assert (G : forall t, squeezed t ->
    squeezed (drop_end_ws t)
    /\ ends_ws (drop_end_ws t) = false
    /\ (starts_ws t = false -> starts_ws (drop_end_ws t) = false)).
  { induction t as [|c r IH]; [intros _; repeat split|].
    intros [Hc Hr]. destruct (IH Hr) as [I1 [I2 I3]].
    rewrite drop_end_ws_cons.
    destruct (is_ws c && is_nil (drop_end_ws r)) eqn:E; [repeat split|].
    split; [|split].
    - simpl. split; [|assumption]. intros W. destruct (Hc W) as [-> S0].
      split; [reflexivity | now apply I3].
    - destruct (drop_end_ws r) as [|d l] eqn:D.
      + simpl. rewrite andb_true_r in E. exact E.
      + exact I2.
    - intros S0. exact S0. }
  intros H S0. destruct (G s H) as [G1 [G2 G3]]. auto.
Qed.

Lemma trim_canonical (t : jsstring) : squeezed t -> canonical (trim t).
Proof.
  intros H. rewrite trim_eq.
  destruct (drop_end_ws_canonical (drop_while is_ws t)
              (drop_while_squeezed t H) (drop_while_starts t)) as [A [B [C _]]].
  repeat split; assumption.
Qed.

Lemma trim_words (t : jsstring) : words (trim t) = words t.
Proof.
  rewrite trim_eq. unfold words at 1. rewrite drop_end_ws_words.
  apply drop_while_words.
Qed.

(** *** A canonical text is its words joined by single spaces *)

Lemma join_spaced (w : jsstring) (ws : list jsstring) :
  join [Ch.SP] (w :: ws) = w ++ spaced ws.
Proof.
  revert w. induction ws as [|w2 ws IH]; intros w.
  - simpl. now rewrite app_nil_r.
  - change (join [Ch.SP] (w :: w2 :: ws))
      with (w ++ [Ch.SP] ++ join [Ch.SP] (w2 :: ws)).
    rewrite IH. reflexivity.
Qed.

Lemma words_aux_fst_nil (s : jsstring) :
  fst (words_aux s) = [] -> s = [] \/ starts_ws s = true.
Proof.
  destruct s as [|c r]; [now left|]. rewrite words_aux_cons. simpl.
  destruct (is_ws c); [now right | discriminate].
Qed.

Lemma squeezed_spaced (t : jsstring) :
  squeezed t -> ends_ws t = false ->
  t = fst (words_aux t) ++ spaced (snd (words_aux t)).
Proof.
  induction t as [|c r IH]; [reflexivity|].
  intros [Hc Hr] He.
  assert (He' : ends_ws r = false).
  { destruct r; [reflexivity | exact He]. }
  specialize (IH Hr He'). rewrite words_aux_cons.
  destruct (is_ws c) eqn:W.
  - destruct (Hc eq_refl) as [-> S0]. simpl. unfold words.
    destruct (words_aux r) as [w ws] eqn:Wr. simpl in IH.
    destruct w as [|a w].
    + destruct (words_aux_fst_nil r) as [-> | S1].
      * now rewrite Wr.
      * simpl in He. discriminate.
      * congruence.
    + simpl. unfold spaced. simpl. f_equal. exact IH.
  - simpl. f_equal. exact IH.
Qed.

Lemma canonical_join_words (t : jsstring) :
  canonical t -> join [Ch.SP] (words t) = t.
Proof.
  intros [Hs [S0 E0]]. pose proof (squeezed_spaced t Hs E0) as H.
  unfold words. destruct (words_aux t) as [w ws] eqn:W. simpl in H.
  destruct w as [|a w].
  - destruct (words_aux_fst_nil t) as [-> | S1].
    + now rewrite W.
    + simpl in W. injection W as <-. reflexivity.
    + congruence.
  - simpl cons_word. rewrite join_spaced. now symmetry.
Qed.

(** *** [normalizeText] *)

Lemma normalizeText_trim_squeeze (s : jsstring) :
  normalizeText s
  = trim (squeeze (replace_global match_newlines [Ch.SP] s)).
Proof.
  unfold normalizeText.
  replace (replace_global match_spaces [Ch.SP]
             (replace_global match_newlines [Ch.SP] s))
    with (squeeze (replace_global match_newlines [Ch.SP] s))
    by (symmetry; apply replace_spaces_squeeze).
  rewrite replace_nbsp_squeezed; [reflexivity | apply squeeze_squeezed].
Qed.

Lemma normalizeText_is_canonical (s : jsstring) : canonical (normalizeText s).
Proof.
  rewrite normalizeText_trim_squeeze. apply trim_canonical, squeeze_squeezed.
Qed.

Lemma normalizeText_words (s : jsstring) : words (normalizeText s) = words s.
Proof.
  rewrite normalizeText_trim_squeeze, trim_words.
  rewrite <- (proj1 (replace_spaces_squeeze _)).
  change (replace_scan match_spaces [Ch.SP] 0 ?x)
    with (replace_global match_spaces [Ch.SP] x).
  rewrite (replace_global_words _ _ matches_ws_spaces).
  apply (replace_global_words _ _ matches_ws_newlines).
Qed.

Lemma normalizeText_collapses (s : jsstring) :
  normalizeText s = collapse_whitespace s.
Proof.
  unfold collapse_whitespace. rewrite <- (normalizeText_words s).
  symmetry. apply canonical_join_words, normalizeText_is_canonical.
Qed.

Lemma normalizeText_fixes_canonical (t : jsstring) :
  canonical t -> normalizeText t = t.
Proof.
  intros H. rewrite normalizeText_collapses. now apply canonical_join_words.
Qed.

Lemma squeezed_app (a b : jsstring) : squeezed (a ++ b) -> squeezed b.
Proof.
  induction a as [|c a IH]; [trivial|]. intros [_ H]. now apply IH.
Qed.

Lemma squeezed_ws_space (t : jsstring) (c : N) :
  squeezed t -> In c t -> is_ws c = true -> c = Ch.SP.
Proof.
  induction t as [|d t IH]; [contradiction|].
  intros [Hd Ht] [->|H] W; [now destruct (Hd W) | now apply IH].
Qed.

Lemma squeezed_no_double_space (t a b : jsstring) :
  squeezed t -> t <> a ++ [Ch.SP; Ch.SP] ++ b.
Proof.
  intros H E. subst t. apply squeezed_app in H. destruct H as [H _].
  destruct (H eq_refl) as [_ S0]. discriminate.
Qed.

(** The words are the text without its whitespace, and none is empty. *)
Lemma words_content (s : jsstring) :
  concat (words s) = filter (fun c => negb (is_ws c)) s
  /\ Forall (fun w => w <> [] /\ forallb (fun c => negb (is_ws c)) w = true)
       (words s).
Proof.
  assert (G : forall t,
    fst (words_aux t) ++ concat (snd (words_aux t))
    = filter (fun c => negb (is_ws c)) t
    /\ forallb (fun c => negb (is_ws c)) (fst (words_aux t)) = true
    /\ Forall (fun w => w <> [] /\ forallb (fun c => negb (is_ws c)) w = true)
         (snd (words_aux t))).
  { induction t as [|c r [I1 [I2 I3]]]; [repeat split; constructor|].
    rewrite words_aux_cons. unfold words. simpl filter.
    destruct (words_aux r) as [w ws]. simpl in I1, I2, I3.
    destruct (is_ws c) eqn:W; simpl.
    - destruct w as [|a w]; simpl; [auto|].
      split; [exact I1|]. split; [reflexivity|].
      constructor; [split; [discriminate | exact I2] | exact I3].
    - rewrite W. simpl. rewrite I1. auto. }
  unfold words. destruct (G s) as [G1 [G2 G3]].
  destruct (words_aux s) as [w ws]. simpl in G1, G2, G3.
  destruct w as [|a w]; simpl; [auto|].
  split; [exact G1|]. constructor; [split; [discriminate | exact G2] | exact G3].
Qed.

(** C9.  [normalizeText] returns the words of its argument joined by
    single spaces: every run of line breaks and whitespace, the
    non-breaking space included, has become one space, and the runs at the
    two ends are gone.  So the result neither starts nor ends with
    whitespace, its only whitespace is the space, it holds no line feed,
    carriage return or non-breaking space, and no two spaces are adjacent. *)
Theorem normalizeText_canonicalizes (s : jsstring) :
  let t := normalizeText s in
  t = collapse_whitespace s
  /\ starts_ws t = false
  /\ ends_ws t = false
  /\ (forall c, In c t -> is_ws c = true -> c = Ch.SP)
  /\ ~ In Ch.LF t /\ ~ In Ch.CR t /\ ~ In Ch.NBSP t
  /\ (forall a b, t <> a ++ [Ch.SP; Ch.SP] ++ b).
Proof.
  intros t. destruct (normalizeText_is_canonical s) as [Q [S0 E0]]. fold t in Q, S0, E0.
  pose proof (squeezed_ws_space t) as W.
  split; [apply normalizeText_collapses|].
  repeat split; try assumption.
  - intros c. now apply W.
  - intros H. specialize (W _ Q H eq_refl). discriminate.
  - intros H. specialize (W _ Q H eq_refl). discriminate.
  - intros H. specialize (W _ Q H eq_refl). discriminate.
  - intros a b. now apply squeezed_no_double_space.
Qed.

(** C4.  Canonicalising twice is canonicalising once. *)
Theorem normalizeText_idempotent (s : jsstring) :
  normalizeText (normalizeText s) = normalizeText s.
Proof.
  apply normalizeText_fixes_canonical, normalizeText_is_canonical.
Qed.

Example normalizeText_ex3 :
  normalizeText
    ([10; 13; 10; 10; 13; 13; 10; 97; 5760; 8192; 8202; 8232; 8233; 8239;
      8287; 65279; 11; 12; 98; 8203; 99; 160; 160]%N)
  = [97; 32; 98; 8203; 99]%N.
Proof. reflexivity. Qed.

(* ================================================================== *)
(** ** Fingerprints *)
(* ================================================================== *)

Example sha256_hex_empty :
  sha256_hex []
  = js "e3b0c44298fc1c149afbf4c8996fb92427ae41e4649b934ca495991b7852b855".
Proof. vm_compute. reflexivity. Qed.

Example sha256_hex_abc :
  sha256_hex (js "abc")
  = js "ba7816bf8f01cfea414140de5dae2223b00361a396177a9cb410ff61f20015ad".
Proof. vm_compute. reflexivity. Qed.

(** Two blocks, and code units beyond ASCII with one surrogate pair. *)
Example sha256_hex_two_blocks :
  sha256_hex (repeat 97%N 120)
  = js "2f3d335432c70b580af0e8e1b3674a7c020d683aa5f73aaaedfdc55af904c21c".
Proof. vm_compute. reflexivity. Qed.

Example sha256_hex_utf8 :
  sha256_hex [26085; 26412; 35486; 32; 252; 32; 55348; 56606; 124; 120]%N
  = js "21e47e0fe63a5ee52aed8a131f6c6d25c792b8fcf57766e37834edcfcef09caf".
Proof. vm_compute. reflexivity. Qed.

Example makeHash_logic :
  makeHash SampleBase.logic
  = js "aa16985c4d34d14b7049989232b303765a5d64abc407187238b40d566794418b".
Proof. vm_compute. reflexivity. Qed.

Lemma hex_digit_lower (x : N) :
  is_lower_hex (SHA256.hex_digit (N.land x 15)) = true.
Proof.
  change 15%N with (N.ones 4). rewrite N.land_ones.
  assert (H : (x mod 2 ^ 4 < 16)%N) by (apply N.mod_lt; discriminate).
  set (d := (x mod 2 ^ 4)%N) in *. unfold SHA256.hex_digit, is_lower_hex.
  destruct (d <? 10)%N eqn:E.
  - apply N.ltb_lt in E. apply orb_true_iff. left.
    apply andb_true_iff. split; apply N.leb_le; lia.
  - apply N.ltb_ge in E. apply orb_true_iff. right.
    apply andb_true_iff. split; apply N.leb_le; lia.
Qed.

Lemma hex32_lower (w : N) : forallb is_lower_hex (SHA256.hex32 w) = true.
Proof.
  unfold SHA256.hex32. cbv [map rev seq app forallb].
  rewrite !hex_digit_lower. reflexivity.
Qed.

Lemma hex_lower (s : SHA256.state) :
  length (SHA256.hex s) = 64 /\ forallb is_lower_hex (SHA256.hex s) = true.
Proof.
  unfold SHA256.hex. split.
  - rewrite !length_app. unfold SHA256.hex32. rewrite !length_map. reflexivity.
  - rewrite !forallb_app, !hex32_lower. reflexivity.
Qed.

Lemma makeHash_fields (course : Base.t) :
  makeHash course = sha256_hex (join (js "|") (canonical_fields course)).
Proof.
  unfold makeHash, canonical_fields, nullish. simpl map. reflexivity.
Qed.

(** C3.  The fingerprint is the SHA-256 digest, in 64 lower-case
    hexadecimal digits, of the seven canonicalised values (title,
    instructor, term, schedule, room or the empty string, last-updated
    label or the empty string, body text) with a pipe between them; so two
    records whose seven canonicalised values agree have one fingerprint.
    The digest is SHA-256: on the messages of FIPS 180-4 (the empty one,
    one of one block, one of two blocks), on a message of 120 bytes and on
    a text beyond ASCII it is the digest the standard gives. *)
Theorem makeHash_fingerprint (course : Base.t) :
  let canon := normalizeText in
  let or_empty (x : option jsstring) := match x with Some v => v | None => [] end in
  makeHash course
  = SHA256.hex (SHA256.digest (utf8_encode
      (canon (Base.title course) ++ js "|"
       ++ canon (Base.instructor course) ++ js "|"
       ++ canon (Base.term course) ++ js "|"
       ++ canon (Base.dayPeriod course) ++ js "|"
       ++ canon (or_empty (Base.room course)) ++ js "|"
       ++ canon (or_empty (Base.updatedAt course)) ++ js "|"
       ++ canon (Base.bodyText course))))
  /\ length (makeHash course) = 64
  /\ forallb is_lower_hex (makeHash course) = true
  /\ (forall other : Base.t,
       canon (Base.title other) = canon (Base.title course) ->
       canon (Base.instructor other) = canon (Base.instructor course) ->
       canon (Base.term other) = canon (Base.term course) ->
       canon (Base.dayPeriod other) = canon (Base.dayPeriod course) ->
       canon (or_empty (Base.room other)) = canon (or_empty (Base.room course)) ->
       canon (or_empty (Base.updatedAt other))
       = canon (or_empty (Base.updatedAt course)) ->
       canon (Base.bodyText other) = canon (Base.bodyText course) ->
       makeHash other = makeHash course)
  /\ SHA256.hex (SHA256.digest (utf8_encode []))
     = js "e3b0c44298fc1c149afbf4c8996fb92427ae41e4649b934ca495991b7852b855"
  /\ SHA256.hex (SHA256.digest (utf8_encode (js "abc")))
     = js "ba7816bf8f01cfea414140de5dae2223b00361a396177a9cb410ff61f20015ad"
  /\ SHA256.hex (SHA256.digest (utf8_encode
        (js "abcdbcdecdefdefgefghfghighijhijkijkljklmklmnlmnomnopnopq")))
     = js "248d6a61d20638b8e5c026930c3e6039a33ce45964ff2167f6ecedd419db06c1"
  /\ SHA256.hex (SHA256.digest (utf8_encode (repeat 97%N 120)))
     = js "2f3d335432c70b580af0e8e1b3674a7c020d683aa5f73aaaedfdc55af904c21c"
  /\ SHA256.hex (SHA256.digest (utf8_encode
        [26085; 26412; 35486; 32; 252; 32; 55348; 56606; 124; 120]%N))
     = js "21e47e0fe63a5ee52aed8a131f6c6d25c792b8fcf57766e37834edcfcef09caf".
Proof.
  intros canon or_empty. subst canon or_empty.
  split; [|split; [|split; [|split]]].
  - rewrite makeHash_fields. reflexivity.
  - apply hex_lower.
  - apply hex_lower.
  - intros other H1 H2 H3 H4 H5 H6 H7. rewrite !makeHash_fields.
    unfold canonical_fields. now rewrite H1, H2, H3, H4, H5, H6, H7.
  - repeat split; vm_compute; reflexivity.
Qed.

(** The fingerprint of a record, and of the same record with other
    whitespace, an empty label and another locator: the SHA-256 digest of
    [Logic I|Sato|2025|Mon 1|R101||body text]. *)
Lemma makeHash_fingerprint_witness :
  normalizeText (Base.title SampleBase.logic_noisy)
  = normalizeText (Base.title SampleBase.logic)
  /\ makeHash SampleBase.logic_noisy = makeHash SampleBase.logic
  /\ makeHash SampleBase.logic
     = js "aa16985c4d34d14b7049989232b303765a5d64abc407187238b40d566794418b"
  /\ makeHash SampleBase.logic_noisy
     = js "aa16985c4d34d14b7049989232b303765a5d64abc407187238b40d566794418b".
Proof.
  assert (E : makeHash SampleBase.logic_noisy = makeHash SampleBase.logic).
  { apply (proj1 (proj2 (proj2 (proj2 (makeHash_fingerprint SampleBase.logic)))));
      reflexivity. }
  split; [reflexivity | split; [exact E|]].
  assert (D : makeHash SampleBase.logic
              = js "aa16985c4d34d14b7049989232b303765a5d64abc407187238b40d566794418b")
    by (vm_compute; reflexivity).
  split; [exact D | now rewrite E].
Defined.

(* ================================================================== *)
(** ** The identifier of a fetched record *)
(* ================================================================== *)

Lemma idFromUrl_eq (URL_new : jsstring -> Completion URL) (item : Stub.t) :
  idFromUrl URL_new item
  = match URL_new (Stub.url item) with
    | Normal u =>
        or_else (searchParams_get (searchParams u) (js "id")) (Stub.url item)
    | Throw _ => Stub.url item
    end.
Proof. unfold idFromUrl. now destruct (URL_new (Stub.url item)). Qed.

(** The locator [https://portal.example/detail?id=] carries the parameter
    with an empty value: the record gets the locator as its identifier,
    not the empty value. *)
Lemma final_id_empty_parameter :
  Base.id (base_of SamplePortal.URL_new SamplePortal.empty_parameter
             SamplePortal.detail)
  = Stub.url SamplePortal.empty_parameter
  /\ claimed_id SamplePortal.URL_new SamplePortal.empty_parameter = []
  /\ Base.id (base_of SamplePortal.URL_new SamplePortal.empty_parameter
                SamplePortal.detail)
     <> claimed_id SamplePortal.URL_new SamplePortal.empty_parameter.
Proof.
  split; [reflexivity | split; [reflexivity | discriminate]].
Qed.

(** C8, amended.  The identifier of the record is the identifier of the
    stub when that is not empty; otherwise the first value of the query
    parameter [id] of the locator when the locator parses and that value
    is not empty; otherwise the locator itself: when it does not parse,
    when it has no such parameter, and when the value is empty. *)
Theorem final_id_rule
    (URL_new : jsstring -> Completion URL) (item : Stub.t) (d : RawDetail) :
  let rid := Base.id (base_of URL_new item d) in
  (Stub.id item <> [] -> rid = Stub.id item)
  /\ (Stub.id item = [] ->
      forall u v, URL_new (Stub.url item) = Normal u ->
                  searchParams_get (searchParams u) (js "id") = Some v ->
                  v <> [] -> rid = v)
  /\ (Stub.id item = [] ->
      (forall u, URL_new (Stub.url item) = Normal u ->
                 searchParams_get (searchParams u) (js "id") = None
                 \/ searchParams_get (searchParams u) (js "id") = Some []) ->
      rid = Stub.url item).
Proof.
  intros rid. subst rid. simpl. rewrite idFromUrl_eq.
  split; [|split].
  - intros H. destruct (Stub.id item); [contradiction | reflexivity].
  - intros E u v Hu Hv Hne. rewrite E, Hu, Hv. simpl.
    destruct v; [contradiction | reflexivity].
  - intros E H. rewrite E. simpl.
    destruct (URL_new (Stub.url item)) as [u|e]; [|reflexivity].
    destruct (H u eq_refl) as [-> | ->]; reflexivity.
Qed.

Lemma final_id_rule_witness :
  Stub.id SamplePortal.two_parameters = []
  /\ Base.id (base_of SamplePortal.URL_new SamplePortal.two_parameters
                SamplePortal.detail) = js "C7".
Proof.
  split; [reflexivity|].
  refine (proj1 (proj2 (final_id_rule SamplePortal.URL_new
                          SamplePortal.two_parameters
                          SamplePortal.detail)) eq_refl
            {| searchParams := [(js "id", js "C7"); (js "lang", js "ja");
                                (js "id", js "C8")] |} (js "C7") _ _ _);
    [reflexivity | reflexivity | discriminate].
Defined.

Example final_id_samples :
  Base.id (base_of SamplePortal.URL_new
             (SamplePortal.stub "S1" "https://portal.example/detail?id=C7&lang=ja&id=C8")
             SamplePortal.detail) = js "S1"
  /\ Base.id (base_of SamplePortal.URL_new
                (SamplePortal.stub "" "https://portal.example/detail/C9")
                SamplePortal.detail) = js "https://portal.example/detail/C9"
  /\ Base.id (base_of SamplePortal.URL_new
                (SamplePortal.stub "" "not a locator")
                SamplePortal.detail) = js "not a locator".
Proof. repeat split. Qed.

(* ================================================================== *)
(** ** The worker pool *)
(* ================================================================== *)

Section PoolProofs.
Variable URL_new : jsstring -> Completion URL.
Variable page_detail : jsstring -> Completion RawDetail.
Variable newPage : Stub.t -> Completion unit.
Variable page_close : Stub.t -> Completion unit.
Variable queue : list Stub.t.

Local Abbreviation out := (outcome URL_new page_detail).
Local Abbreviation pend := (pending_of URL_new page_detail newPage).
Local Abbreviation wt := (weight newPage).
Local Abbreviation ok := (worker_ok newPage page_close queue).
Local Abbreviation Inv := (pool_inv URL_new page_detail newPage page_close queue).
Local Abbreviation left_of := (work_left newPage queue).
Local Abbreviation step' := (step URL_new page_detail newPage page_close queue).
Local Abbreviation run' := (run URL_new page_detail newPage page_close queue).

Lemma enter_loop_spec (i : nat) :
  i <= length queue ->
  match nth_error queue i with
  | Some it => i < length queue /\ enter_loop queue i = (Fetching it, S i)
  | None => i = length queue /\ enter_loop queue i = (Done, i)
  end.
Proof.
  intros Hi. unfold enter_loop. simpl.
  destruct (nth_error queue i) as [it|] eqn:E.
  - assert (L : i < length queue) by (apply nth_error_Some; congruence).
    apply Nat.ltb_lt in L. rewrite L. apply Nat.ltb_lt in L. auto.
  - apply nth_error_None in E.
    assert (L : (i <? length queue) = false) by (apply Nat.ltb_ge; lia).
    rewrite L. split; [lia | reflexivity].
Qed.

Lemma skipn_nth_error (A : Type) (l : list A) (i : nat) (x : A) :
  nth_error l i = Some x -> skipn i l = x :: skipn (S i) l.
Proof.
  revert i. induction l as [|y l IH]; intros [|i] H; try discriminate.
  - injection H as ->. reflexivity.
  - simpl in H. exact (IH i H).
Qed.

Lemma set_nth_length (w : nat) (x : Worker) (ws : list Worker) :
  length (set_nth w x ws) = length ws.
Proof.
  revert w. induction ws as [|y ws IH]; intros [|w]; simpl; auto.
Qed.

Lemma set_nth_In (w : nat) (x y : Worker) (ws : list Worker) :
  In y (set_nth w x ws) -> y = x \/ In y ws.
Proof.
  revert w. induction ws as [|z ws IH]; intros [|w]; simpl; try tauto.
  - intros [H|H]; auto.
  - intros [H|H]; auto. destruct (IH w H); auto.
Qed.

Lemma set_nth_Forall (P : Worker -> Prop) (w : nat) (x : Worker)
    (ws : list Worker) :
  Forall P ws -> P x -> Forall P (set_nth w x ws).
Proof.
  intros H Hx. apply Forall_forall. intros y Hy.
  destruct (set_nth_In _ _ _ _ Hy) as [->|Hy']; [exact Hx|].
  now apply (proj1 (Forall_forall P ws) H).
Qed.

Lemma set_nth_pending (w : nat) (x y : Worker) (ws : list Worker) :
  nth_error ws w = Some y ->
  Permutation (pend y ++ flat_map pend (set_nth w x ws))
              (pend x ++ flat_map pend ws).
Proof.
  revert w. induction ws as [|z ws IH]; intros [|w] H; try discriminate.
  - injection H as ->. simpl. apply Permutation_app_swap_app.
  - simpl in H. simpl.
    rewrite Permutation_app_swap_app, (IH w H).
    apply Permutation_app_swap_app.
Qed.

Lemma set_nth_weight (w : nat) (x y : Worker) (ws : list Worker) :
  nth_error ws w = Some y ->
  wt y + list_sum (map wt (set_nth w x ws))
  = wt x + list_sum (map wt ws).
Proof.
  revert w. induction ws as [|z ws IH]; intros [|w] H; try discriminate.
  - injection H as ->. simpl. lia.
  - simpl in H. simpl. specialize (IH w H). lia.
Qed.

Lemma settle_settled (item : Stub.t) (s : Pool) :
  Permutation (settled (settle URL_new page_detail item s) ++ [])
              (settled s ++ [out item])
  /\ next (settle URL_new page_detail item s) = next s
  /\ workers (settle URL_new page_detail item s) = workers s.
Proof.
  unfold settle, outcome, settled.
  destruct (page_detail (Stub.url item)) as [d|e]; simpl;
    rewrite app_nil_r, map_app; simpl.
  - split; [|auto]. rewrite <- !app_assoc. apply Permutation_app_head.
    apply Permutation_app_comm.
  - split; [|auto]. now rewrite <- app_assoc.
Qed.

(** A step keeps the invariant and does one unit of work. *)
Lemma step_inv (w : nat) (s s' : Pool) :
  Inv s -> step' w s = Some s' ->
  Inv s' /\ S (left_of s') = left_of s.
Proof.
  intros [HP [Hn [HD [HL HO]]]] H. unfold step in H.
  destruct (nth_error (workers s) w) as [[item|item| |item e0]|] eqn:Ew;
    try discriminate.
  - (* the worker asked for a page *)
    assert (Oi : ok (Fetching item)).
    { apply (proj1 (Forall_forall _ _) HO). eapply nth_error_In. exact Ew. }
    cbn [worker_ok] in Oi.
    destruct (newPage item) as [u|e] eqn:EN.
    + (* it has the page, and the page answers *)
      destruct (settle_settled item s) as [P1 [P2 P3]].
      rewrite app_nil_r in P1. injection H as <-.
      unfold pool_inv, work_left, waiting.
      cbn [next workers courses warnings].
      rewrite P2, P3. fold (settled (settle URL_new page_detail item s)).
      pose proof (set_nth_pending w (Pausing item) _ _ Ew) as F.
      pose proof (set_nth_weight w (Pausing item) _ _ Ew) as Wt.
      cbn [pending_of flight_of lost_of weight app] in F, Wt.
      repeat split.
      * rewrite P1, <- HP. unfold waiting.
        rewrite <- !app_assoc. apply Permutation_app_head.
        rewrite <- F. reflexivity.
      * assumption.
      * intros D. apply set_nth_In in D. destruct D as [D|D]; [discriminate | auto].
      * now rewrite set_nth_length.
      * apply set_nth_Forall; [exact HO|]. cbn [worker_ok]. eauto.
      * lia.
    + (* no page: the worker rejects *)
      injection H as <-.
      unfold pool_inv, work_left, waiting, reject.
      cbn [next workers courses warnings].
      pose proof (set_nth_pending w (Rejected item e) _ _ Ew) as F.
      pose proof (set_nth_weight w (Rejected item e) _ _ Ew) as Wt.
      cbn [pending_of flight_of lost_of weight app] in F, Wt.
      rewrite EN in F, Wt. cbn [app] in F.
      apply Permutation_cons_inv in F.
      repeat split.
      * rewrite <- HP. unfold waiting.
        apply Permutation_app_head. apply Permutation_app_tail. exact F.
      * assumption.
      * intros D. apply set_nth_In in D. destruct D as [D|D]; [discriminate | auto].
      * now rewrite set_nth_length.
      * apply set_nth_Forall; [exact HO|]. cbn [worker_ok]. auto.
      * lia.
  - (* the worker closes its page *)
    assert (Oi : ok (Pausing item)).
    { apply (proj1 (Forall_forall _ _) HO). eapply nth_error_In. exact Ew. }
    cbn [worker_ok] in Oi. destruct Oi as [Iq [u0 EN]].
    destruct (page_close item) as [u|e] eqn:EC.
    + (* the pause is over *)
      pose proof (enter_loop_spec (next s) Hn) as L.
      destruct (nth_error queue (next s)) as [it|] eqn:Eq.
      * destruct L as [Lt EL]. rewrite EL in H. injection H as <-.
        unfold pool_inv, work_left, waiting, settled.
        cbn [next workers courses warnings].
        pose proof (set_nth_pending w (Fetching it) _ _ Ew) as F.
        pose proof (set_nth_weight w (Fetching it) _ _ Ew) as Wt.
        cbn [pending_of flight_of lost_of weight app] in F, Wt.
        repeat split.
        -- rewrite <- HP. unfold settled, waiting.
           rewrite (skipn_nth_error _ _ _ _ Eq). cbn [map].
           rewrite <- !app_assoc. do 2 apply Permutation_app_head.
           rewrite F. cbn [app].
           apply Permutation_middle.
        -- lia.
        -- intros D. apply set_nth_In in D.
           destruct D as [D|D]; [discriminate | specialize (HD D); lia].
        -- now rewrite set_nth_length.
        -- apply set_nth_Forall; [exact HO|]. cbn [worker_ok].
           eapply nth_error_In. exact Eq.
        -- lia.
      * destruct L as [E EL]. rewrite EL in H. injection H as <-.
        unfold pool_inv, work_left, waiting, settled.
        cbn [next workers courses warnings].
        pose proof (set_nth_pending w Done _ _ Ew) as F.
        pose proof (set_nth_weight w Done _ _ Ew) as Wt.
        cbn [pending_of flight_of lost_of weight app] in F, Wt.
        repeat split.
        -- rewrite <- HP. unfold settled, waiting.
           rewrite <- !app_assoc. do 2 apply Permutation_app_head.
           now rewrite F.
        -- assumption.
        -- intros _. exact E.
        -- now rewrite set_nth_length.
        -- apply set_nth_Forall; [exact HO | exact I].
        -- lia.
    + (* the page does not close: the worker rejects *)
      injection H as <-.
      unfold pool_inv, work_left, waiting, reject.
      cbn [next workers courses warnings].
      pose proof (set_nth_pending w (Rejected item e) _ _ Ew) as F.
      pose proof (set_nth_weight w (Rejected item e) _ _ Ew) as Wt.
      cbn [pending_of flight_of lost_of weight app] in F, Wt.
      rewrite EN in F, Wt. cbn [app] in F.
      repeat split.
      * rewrite <- HP. unfold waiting.
        apply Permutation_app_head. apply Permutation_app_tail. exact F.
      * assumption.
      * intros D. apply set_nth_In in D. destruct D as [D|D]; [discriminate | auto].
      * now rewrite set_nth_length.
      * apply set_nth_Forall; [exact HO|]. cbn [worker_ok]. eauto.
      * lia.
Qed.

Lemma spawn_inv (n : nat) (s : Pool) :
  Permutation (settled s ++ flat_map pend (workers s)
               ++ waiting URL_new page_detail queue s) (map out queue) ->
  ~ In Done (workers s) ->
  Forall ok (workers s) ->
  next s + n <= length queue ->
  let s' := spawn queue n s in
  Permutation (settled s' ++ flat_map pend (workers s')
               ++ waiting URL_new page_detail queue s') (map out queue)
  /\ ~ In Done (workers s')
  /\ Forall ok (workers s')
  /\ next s' = next s + n
  /\ length (workers s') = length (workers s) + n
  /\ left_of s' = left_of s.
Proof.
  revert s. induction n as [|n IH]; intros s HP HD HO Hn s'; subst s'; cbn [spawn].
  - repeat split; auto.
  - assert (Hi : next s <= length queue) by lia.
    pose proof (enter_loop_spec (next s) Hi) as L.
    destruct (nth_error queue (next s)) as [it|] eqn:Eq; [|lia].
    destruct L as [Lt EL]. rewrite EL.
    match goal with |- context [spawn queue n ?x] => set (s1 := x) end.
    assert (P1 : Permutation (settled s1 ++ flat_map pend (workers s1)
                   ++ waiting URL_new page_detail queue s1) (map out queue)).
    { rewrite <- HP. unfold s1, settled, waiting.
      cbn [next workers courses warnings].
      rewrite (skipn_nth_error _ _ _ _ Eq), flat_map_app.
      cbn [map flat_map pending_of flight_of lost_of app].
      apply Permutation_app_head. now rewrite <- app_assoc. }
    assert (D1 : ~ In Done (workers s1)).
    { unfold s1. cbn [workers]. intros D. apply in_app_or in D.
      destruct D as [D|[D|[]]]; [auto | discriminate]. }
    assert (O1 : Forall ok (workers s1)).
    { unfold s1. cbn [workers]. apply Forall_app. split; [exact HO|].
      constructor; [|constructor]. cbn [worker_ok].
      eapply nth_error_In. exact Eq. }
    destruct (IH s1 P1 D1 O1) as [A [B [O [C [D E]]]]]; [unfold s1; cbn [next]; lia|].
    repeat split; try assumption.
    + rewrite C. unfold s1. cbn [next]. lia.
    + rewrite D. unfold s1. cbn [workers]. rewrite length_app. simpl. lia.
    + rewrite E. unfold s1, work_left. cbn [next workers].
      rewrite map_app, list_sum_app. simpl. lia.
Qed.

Lemma start_inv :
  Inv (start queue) /\ left_of (start queue) = 2 * length queue.
Proof.
  unfold start.
  set (n := Nat.min MAX_CONCURRENCY (length queue)).
  assert (Hn : n <= length queue) by apply Nat.le_min_r.
  set (s0 := {| next := 0; workers := []; courses := []; warnings := [] |}).
  destruct (spawn_inv n s0) as [A [B [O [C [D E]]]]].
  - reflexivity.
  - intros F. exact F.
  - constructor.
  - exact Hn.
  - split.
    + repeat split.
      * exact A.
      * rewrite C. exact Hn.
      * intros F. contradiction.
      * rewrite D. reflexivity.
      * exact O.
    + rewrite E. unfold work_left, s0. simpl. lia.
Qed.

Lemma run_inv (sched : list nat) (s s' : Pool) :
  Inv s -> run' sched s = Some s' ->
  Inv s' /\ left_of s' + length sched = left_of s.
Proof.
  revert s. induction sched as [|w sched IH]; intros s HI H; simpl in H.
  - injection H as <-. split; [assumption | simpl; lia].
  - destruct (step' w s) as [s1|] eqn:E; [|discriminate].
    destruct (step_inv _ _ _ HI E) as [I1 W1].
    destruct (IH s1 I1 H) as [I2 W2]. split; [assumption | simpl; lia].
Qed.



Lemma finished_stopped (s : Pool) : finished s -> stopped s.
Proof.
  unfold finished, stopped. intros F.
  apply Forall_forall. intros w Hw.
  rewrite (proj1 (Forall_forall _ _) F w Hw). exact I.
Qed.

(** A worker that has not halted, if there is one. *)
Lemma halted_or_active (ws : list Worker) :
  Forall halted ws
  \/ exists w item, nth_error ws w = Some (Fetching item)
                    \/ nth_error ws w = Some (Pausing item).
Proof.
  induction ws as [|y ws IH]; [left; constructor|].
  destruct y as [item|item| |item e].
  - right. exists 0, item. left. reflexivity.
  - right. exists 0, item. right. reflexivity.
  - destruct IH as [H|[w [it H]]].
    + left. constructor; [exact I | exact H].
    + right. exists (S w), it. exact H.
  - destruct IH as [H|[w [it H]]].
    + left. constructor; [exact I | exact H].
    + right. exists (S w), it. exact H.
Qed.

Lemma progress (s : Pool) :
  stopped s \/ exists w s', step' w s = Some s'.
Proof.
  destruct (halted_or_active (workers s)) as [H|[w [item [H|H]]]].
  - left. exact H.
  - right. exists w. unfold step. rewrite H.
    destruct (newPage item); eexists; reflexivity.
  - right. exists w. unfold step. rewrite H.
    destruct (page_close item); [|eexists; reflexivity].
    destruct (enter_loop queue (next s)). eexists. reflexivity.
Qed.










Lemma pending_split (ws : list Worker) :
  Permutation (flat_map pend ws)
    (flat_map (flight_of URL_new page_detail) ws
     ++ flat_map (lost_of URL_new page_detail newPage) ws).
Proof.
  induction ws as [|w ws IH]; [reflexivity|].
  cbn [flat_map]. unfold pending_of at 1. rewrite IH, <- !app_assoc.
  apply Permutation_app_head. rewrite !app_assoc.
  apply Permutation_app_tail. apply Permutation_app_comm.
Qed.

End PoolProofs.



(** A browser that opens no page for the third stub: the worker that
    takes the stub rejects and nothing is logged for it; the other two
    workers are not stopped by it, but [Promise.all] is rejected.  A
    browser that cannot close the page of the last stub: all seven stubs
    leave their trace, and [Promise.all] is rejected all the same. *)
Example pool_aborted :
  workers (SampleSchedule.final_no_page SampleSchedule.no_page)
  = [Done; Done; Rejected (SamplePortal.stub "S3" "https://portal.example/d/3")
                   PageError]
  /\ aborted (SampleSchedule.final_no_page SampleSchedule.no_page)
  /\ length (courses (SampleSchedule.final_no_page SampleSchedule.no_page)) = 4
  /\ length (warnings (SampleSchedule.final_no_page SampleSchedule.no_page)) = 2
  /\ aborted (SampleSchedule.final_no_close SampleSchedule.round_robin)
  /\ length (courses (SampleSchedule.final_no_close SampleSchedule.round_robin)) = 5
  /\ length (warnings (SampleSchedule.final_no_close SampleSchedule.round_robin)) = 2.
Proof. vm_compute. repeat split. Qed.

(** The two schedules push the records in different orders. *)
Example pool_orders :
  map id (courses (SampleSchedule.final SampleSchedule.round_robin))
  = [js "S1"; js "S3"; js "S4"; js "S6"; js "S7"]
  /\ map id (courses (SampleSchedule.final SampleSchedule.last_first))
     = [js "S3"; js "S4"; js "S6"; js "S7"; js "S1"]
  /\ warnings (SampleSchedule.final SampleSchedule.last_first)
     = [js "https://portal.example/d/5"; js "https://portal.example/d/2"].
Proof. vm_compute. repeat split. Qed.

(* ================================================================== *)
(** ** Loading a snapshot *)
(* ================================================================== *)

(** The doubles of some decimals: 1, 0.1, 2^53 + 1 (a tie, to the even
    mantissa), 2^53 + 3 (a tie, upwards), 1e-400 (zero), 1e400 (infinite),
    the least double, the greatest double, and a decimal above it that
    rounds to infinity. *)
Example to_double_samples :
  to_double false 1 0 = DFinite false 4503599627370496 (-52)
  /\ to_double false 1 (-1) = DFinite false 7205759403792794 (-56)
  /\ to_double false 9007199254740993 0 = DFinite false 4503599627370496 1
  /\ to_double false 9007199254740995 0 = DFinite false 4503599627370498 1
  /\ to_double false 1 (-400) = DFinite false 0 (-1074)
  /\ to_double false 1 400 = DInfinity false
  /\ to_double false 5 (-324) = DFinite false 1 (-1074)
  /\ to_double false 17976931348623157 292
     = DFinite false 9007199254740991 971
  /\ to_double true 17976931348623159 292 = DInfinity true.
Proof. vm_compute. repeat split. Qed.

Example JSON_parse_malformed :
  JSON_parse (js "") = Throw SyntaxError
  /\ JSON_parse (js "[{") = Throw SyntaxError
  /\ JSON_parse (js "[1,]") = Throw SyntaxError
  /\ JSON_parse (js "[] []") = Throw SyntaxError
  /\ JSON_parse (js "{'id': 1}") = Throw SyntaxError
  /\ JSON_parse (js "[01]") = Throw SyntaxError.
Proof. repeat split. Qed.

Example loadPrev_samples :
  MemFS.load MemFS.empty SampleStore.path = Normal []
  /\ MemFS.load (MemFS.with_file SampleStore.path (js "[{")) SampleStore.path
     = Normal []
  /\ MemFS.load (MemFS.with_file SampleStore.path (js "{}")) SampleStore.path
     = Normal []
  /\ MemFS.load (MemFS.with_file SampleStore.path (js "42")) SampleStore.path
     = Normal []
  /\ MemFS.load (MemFS.with_file SampleStore.path (js "null")) SampleStore.path
     = Normal []
  /\ MemFS.load (MemFS.with_file SampleStore.path (js "[null]")) SampleStore.path
     = Normal []
  /\ MemFS.load (MemFS.with_file SampleStore.path (js "[]")) SampleStore.path
     = Normal [].
Proof. repeat split. Qed.

(** C5.  [loadPrev] never throws.  When the file cannot be read, when its
    text is not JSON, and when the JSON is not an array, it returns the
    empty map: no history and a damaged history give the same result. *)
Theorem loadPrev_total
    (FS : Type) (readFileSync : FS -> jsstring -> Completion jsstring)
    (fs : FS) (filePath : jsstring) :
  (exists m, loadPrev readFileSync fs filePath = Normal m)
  /\ (forall e, readFileSync fs filePath = Throw e ->
                loadPrev readFileSync fs filePath = Normal [])
  /\ (forall raw e, readFileSync fs filePath = Normal raw ->
                    JSON_parse raw = Throw e ->
                    loadPrev readFileSync fs filePath = Normal [])
  /\ (forall raw v, readFileSync fs filePath = Normal raw ->
                    JSON_parse raw = Normal v ->
                    (forall items, v <> VArr items) ->
                    loadPrev readFileSync fs filePath = Normal []).
Proof.
  unfold loadPrev. split; [|split; [|split]].
  - destruct (readFileSync fs filePath) as [raw|e]; simpl; [|eauto].
    destruct (JSON_parse raw) as [arr|e]; simpl; [|eauto].
    destruct (Array_map arr _) as [entries|e]; simpl; eauto.
  - intros e H. rewrite H. reflexivity.
  - intros raw e H P. rewrite H. simpl. rewrite P. reflexivity.
  - intros raw v H P N. rewrite H. simpl. rewrite P. simpl.
    destruct v; try reflexivity. exfalso. now apply (N items).
Qed.

Lemma loadPrev_total_witness :
  MemFS.readFileSync MemFS.empty SampleStore.path
  = Throw (SystemError (js "ENOENT"))
  /\ MemFS.readFileSync (MemFS.with_file SampleStore.path (js "[{"))
       SampleStore.path = Normal (js "[{")
  /\ JSON_parse (js "[{") = Throw SyntaxError
  /\ loadPrev MemFS.readFileSync MemFS.empty SampleStore.path = Normal []
  /\ loadPrev MemFS.readFileSync (MemFS.with_file SampleStore.path (js "[{"))
       SampleStore.path = Normal [].
Proof.
  split; [reflexivity | split; [reflexivity | split; [reflexivity | split]]].
  - exact (proj1 (proj2 (loadPrev_total MemFS.t MemFS.readFileSync MemFS.empty
                           SampleStore.path))
             (SystemError (js "ENOENT")) eq_refl).
  - exact (proj1 (proj2 (proj2 (loadPrev_total MemFS.t MemFS.readFileSync
                                  (MemFS.with_file SampleStore.path (js "[{"))
                                  SampleStore.path)))
             (js "[{") SyntaxError eq_refl eq_refl).
Defined.

(* ================================================================== *)
(** ** JSON: what is written is what is read *)
(* ================================================================== *)

Lemma hex_value_char (d : N) : (d < 16)%N -> hex_value (hex_char d) = Some d.
Proof.
  intros H. unfold hex_char, hex_value, is_digit.
  destruct (d <? 10)%N eqn:E.
  - apply N.ltb_lt in E.
    replace ((48 <=? 48 + d) && (48 + d <=? 57))%N with true.
    + f_equal. lia.
    + symmetry. apply andb_true_iff. split; apply N.leb_le; lia.
  - apply N.ltb_ge in E.
    replace ((48 <=? 87 + d) && (87 + d <=? 57))%N with false.
    + replace ((97 <=? 87 + d) && (87 + d <=? 102))%N with true.
      * f_equal. lia.
      * symmetry. apply andb_true_iff. split; apply N.leb_le; lia.
    + symmetry. apply andb_false_iff. right. apply N.leb_gt. lia.
Qed.

Lemma nibble_lt (x : N) : (N.land x 15 < 16)%N.
Proof.
  change 15%N with (N.ones 4). rewrite N.land_ones.
  apply N.mod_lt. discriminate.
Qed.

Lemma nibbles_sum (c : N) :
  (c < 65536)%N ->
  (4096 * N.land (N.shiftr c 12) 15 + 256 * N.land (N.shiftr c 8) 15
   + 16 * N.land (N.shiftr c 4) 15 + N.land c 15 = c)%N.
Proof.
  intros H. change 15%N with (N.ones 4).
  rewrite !N.land_ones, !N.shiftr_div_pow2.
  change (2 ^ 12)%N with (16 * 16 * 16)%N. change (2 ^ 8)%N with (16 * 16)%N.
  change (2 ^ 4)%N with 16%N.
  rewrite <- !N.Div0.div_div.
  assert (Z16 : 16%N <> 0%N) by discriminate.
  pose proof (N.div_mod c 16 Z16) as D0.
  pose proof (N.div_mod (c / 16) 16 Z16) as D1.
  pose proof (N.div_mod (c / 16 / 16) 16 Z16) as D2.
  pose proof (N.div_mod (c / 16 / 16 / 16) 16 Z16) as D3.
  pose proof (N.mod_lt c 16 Z16) as M0.
  pose proof (N.mod_lt (c / 16) 16 Z16) as M1.
  pose proof (N.mod_lt (c / 16 / 16) 16 Z16) as M2.
  pose proof (N.mod_lt (c / 16 / 16 / 16) 16 Z16) as M3.
  set (a0 := (c mod 16)%N) in *. set (c1 := (c / 16)%N) in *.
  set (a1 := (c1 mod 16)%N) in *. set (c2 := (c1 / 16)%N) in *.
  set (a2 := (c2 mod 16)%N) in *. set (c3 := (c2 / 16)%N) in *.
  set (a3 := (c3 mod 16)%N) in *. set (c4 := (c3 / 16)%N) in *.
  lia.
Qed.

Lemma hex4_escape (c : N) :
  (c < 65536)%N ->
  hex4 (hex_char (N.land (N.shiftr c 12) 15)) (hex_char (N.land (N.shiftr c 8) 15))
       (hex_char (N.land (N.shiftr c 4) 15)) (hex_char (N.land c 15))
  = Some c.
Proof.
  intros H. unfold hex4. rewrite !hex_value_char by apply nibble_lt.
  f_equal. now apply nibbles_sum.
Qed.

(** The escape [\uXXXX] reads back as the code unit. *)
Lemma parse_unicode_escape (c : N) (x : jsstring) :
  (c < 65536)%N ->
  parse_string_body (unicode_escape c ++ x) = prepend c (parse_string_body x).
Proof.
  intros H. unfold unicode_escape.
  change (parse_string_body ([92; 117; ?a; ?b; ?d; ?e]%N ++ x))
    with (match hex4 a b d e with
          | Some u => prepend u (parse_string_body x)
          | None => None
          end).
  now rewrite hex4_escape.
Qed.

Lemma parse_plain (c : N) (x : jsstring) :
  (c =? 34)%N = false -> (c =? 92)%N = false -> (c <? 32)%N = false ->
  parse_string_body (c :: x) = prepend c (parse_string_body x).
Proof. intros A B C. simpl. now rewrite A, B, C. Qed.

Lemma surrogate_high (c : N) :
  is_high_surrogate c = true ->
  (c < 65536)%N /\ (c =? 34)%N = false /\ (c =? 92)%N = false /\ (c <? 32)%N = false.
Proof.
  unfold is_high_surrogate. intros H. apply andb_prop in H. destruct H as [A B].
  apply N.leb_le in A, B. repeat split; try lia.
  - apply N.eqb_neq. lia.
  - apply N.eqb_neq. lia.
  - apply N.ltb_ge. lia.
Qed.

Lemma surrogate_low (c : N) :
  is_low_surrogate c = true ->
  (c < 65536)%N /\ (c =? 34)%N = false /\ (c =? 92)%N = false /\ (c <? 32)%N = false.
Proof.
  unfold is_low_surrogate. intros H. apply andb_prop in H. destruct H as [A B].
  apply N.leb_le in A, B. repeat split; try lia.
  - apply N.eqb_neq. lia.
  - apply N.eqb_neq. lia.
  - apply N.ltb_ge. lia.
Qed.

(** Induction over a string one or two code units at a time. *)
Lemma jsstring_pair_ind (P : jsstring -> Prop) :
  P [] ->
  (forall c r, P r -> (forall d r', r = d :: r' -> P r') -> P (c :: r)) ->
  forall s, P s.
Proof.
  intros H0 HS.
  assert (G : forall s, P s /\ (forall d r', s = d :: r' -> P r')).
  { induction s as [|c r [IH1 IH2]].
    - split; [exact H0 | discriminate].
    - split; [now apply HS|]. intros d r' E. injection E as -> ->. exact IH1. }
  intros s. apply G.
Qed.

(** A quoted string reads back as the string. *)
Lemma parse_quote_body (s rest : jsstring) :
  parse_string_body (quote_body s ++ 34%N :: rest) = Some (s, rest).
Proof.
  induction s as [|c r IH IH2] using jsstring_pair_ind; [reflexivity|].
  cbn [quote_body].
  destruct (c =? 34)%N eqn:E34.
  { apply N.eqb_eq in E34. subst c. simpl. now rewrite IH. }
  destruct (c =? 92)%N eqn:E92.
  { apply N.eqb_eq in E92. subst c. simpl. now rewrite IH. }
  destruct (c =? 8)%N eqn:E8.
  { apply N.eqb_eq in E8. subst c. simpl. now rewrite IH. }
  destruct (c =? 12)%N eqn:E12.
  { apply N.eqb_eq in E12. subst c. simpl. now rewrite IH. }
  destruct (c =? 10)%N eqn:E10.
  { apply N.eqb_eq in E10. subst c. simpl. now rewrite IH. }
  destruct (c =? 13)%N eqn:E13.
  { apply N.eqb_eq in E13. subst c. simpl. now rewrite IH. }
  destruct (c =? 9)%N eqn:E9.
  { apply N.eqb_eq in E9. subst c. simpl. now rewrite IH. }
  destruct (c <? 32)%N eqn:E32.
  { apply N.ltb_lt in E32. rewrite <- app_assoc, parse_unicode_escape by lia.
    now rewrite IH. }
  destruct (is_high_surrogate c) eqn:EH.
  { destruct (surrogate_high c EH) as [L [A [B C]]].
    destruct r as [|d r'].
    - rewrite parse_unicode_escape by assumption. reflexivity.
    - destruct (is_low_surrogate d) eqn:EL.
      + destruct (surrogate_low d EL) as [L' [A' [B' C']]].
        cbn [app]. rewrite (parse_plain c _ A B C), (parse_plain d _ A' B' C').
        now rewrite (IH2 d r' eq_refl).
      + rewrite <- app_assoc, parse_unicode_escape by assumption.
        now rewrite IH. }
  destruct (is_low_surrogate c) eqn:EL.
  { destruct (surrogate_low c EL) as [L [A [B C]]].
    rewrite <- app_assoc, parse_unicode_escape by assumption. now rewrite IH. }
  cbn [app]. rewrite (parse_plain c _ E34 E92 E32). now rewrite IH.
Qed.

Example quote_samples :
  JSON_quote ([34; 92; 47; 8; 9; 10; 12; 13; 1; 31; 127; 55357; 56832; 55357; 97; 56832; 12354]%N)
  = [34; 92; 34; 92; 92; 47; 92; 98; 92; 116; 92; 110; 92; 102; 92; 114;
     92; 117; 48; 48; 48; 49; 92; 117; 48; 48; 49; 102; 127; 55357; 56832;
     92; 117; 100; 56; 51; 100; 97; 92; 117; 100; 101; 48; 48; 12354; 34]%N.
Proof. reflexivity. Qed.

(** *** Whitespace *)

Lemma skip_ws_app (w x : jsstring) : ws_only w -> skip_ws (w ++ x) = skip_ws x.
Proof.
  unfold ws_only, skip_ws. induction w as [|c w IH]; [reflexivity|].
  simpl. intros H. apply andb_prop in H. destruct H as [A B].
  rewrite A. now apply IH.
Qed.

Lemma skip_ws_idem (s : jsstring) : skip_ws (skip_ws s) = skip_ws s.
Proof.
  unfold skip_ws. induction s as [|c r IH]; [reflexivity|]. simpl.
  destruct (is_json_ws c) eqn:E; [exact IH|]. simpl. now rewrite E.
Qed.

Lemma parse_value_skip (fuel : nat) (s : jsstring) :
  parse_value fuel (skip_ws s) = parse_value fuel s.
Proof. destruct fuel; [reflexivity|]. cbn [parse_value]. now rewrite skip_ws_idem. Qed.

Lemma parse_members_skip (fuel : nat) (s : jsstring) (acc : list (jsstring * JsValue)) :
  parse_members fuel (skip_ws s) acc = parse_members fuel s acc.
Proof. destruct fuel; [reflexivity|]. cbn [parse_members]. now rewrite skip_ws_idem. Qed.

Lemma ws_only_gap (indent : jsstring) : ws_only indent -> ws_only (Ch.LF :: indent ++ gap).
Proof.
  unfold ws_only. intros H. simpl. rewrite forallb_app, H. reflexivity.
Qed.

Lemma ws_only_lf (indent : jsstring) : ws_only indent -> ws_only (Ch.LF :: indent).
Proof. unfold ws_only. intros H. simpl. exact H. Qed.

(** *** Strings, members, objects *)

Lemma parse_value_quote (fuel : nat) (v rest : jsstring) :
  parse_value (S fuel) (JSON_quote v ++ rest) = Some (VStr v, rest).
Proof.
  unfold JSON_quote. rewrite <- !app_assoc.
  change (parse_value (S fuel) ([34%N] ++ ?x))
    with (match parse_string_body x with
          | Some (str, r) => Some (VStr str, r)
          | None => None
          end).
  cbn [app]. now rewrite parse_quote_body.
Qed.

Lemma parse_members_step (fuel : nat) (k v rest : jsstring)
    (acc : list (jsstring * JsValue)) :
  parse_members (S (S fuel)) (json_member (k, JSON_quote v) ++ rest) acc
  = match skip_ws rest with
    | c :: r =>
        if (c =? 44)%N then parse_members (S fuel) r (obj_set acc k (VStr v))
        else if (c =? 125)%N then Some (VObj (obj_set acc k (VStr v)), r)
        else None
    | [] => None
    end.
Proof.
  unfold json_member, JSON_quote at 1. cbn [fst snd]. rewrite <- !app_assoc.
  change (parse_members (S (S fuel)) ([34%N] ++ ?x) acc)
    with (match parse_string_body x with
          | Some (k', r1) =>
              match skip_ws r1 with
              | colon :: r2 =>
                  if (colon =? 58)%N then
                    match parse_value (S fuel) r2 with
                    | Some (v', r3) =>
                        match skip_ws r3 with
                        | c :: r4 =>
                            if (c =? 44)%N
                            then parse_members (S fuel) r4 (obj_set acc k' v')
                            else if (c =? 125)%N
                            then Some (VObj (obj_set acc k' v'), r4)
                            else None
                        | [] => None
                        end
                    | None => None
                    end
                  else None
              | [] => None
              end
          | None => None
          end).
  cbn [app]. rewrite parse_quote_body.
  change (skip_ws (js ": " ++ ?x)) with (58%N :: 32%N :: x).
  cbn iota. change (58 =? 58)%N with true. cbn iota.
  rewrite <- (parse_value_skip (S fuel) (32%N :: _)).
  change (skip_ws (32%N :: ?x)) with (skip_ws x).
  rewrite parse_value_skip, parse_value_quote. reflexivity.
Qed.

Lemma members_text_cons (indent : jsstring) (p q : jsstring * jsstring)
    (ps : list (jsstring * jsstring)) :
  members_text indent (p :: q :: ps)
  = json_member (fst p, JSON_quote (snd p))
    ++ separator indent ++ members_text indent (q :: ps).
Proof. reflexivity. Qed.

Lemma members_text_one (indent : jsstring) (p : jsstring * jsstring) :
  members_text indent [p] = json_member (fst p, JSON_quote (snd p)).
Proof. reflexivity. Qed.

Lemma members_text_starts (indent : jsstring) (p : jsstring * jsstring)
    (ps : list (jsstring * jsstring)) :
  exists x, members_text indent (p :: ps) = 34%N :: x.
Proof.
  destruct ps as [|q ps].
  - rewrite members_text_one. unfold json_member, JSON_quote. cbn [fst snd app].
    eexists. reflexivity.
  - rewrite members_text_cons. unfold json_member, JSON_quote. cbn [fst snd app].
    eexists. reflexivity.
Qed.

Lemma parse_members_ok (indent close : jsstring) (ps : list (jsstring * jsstring)) :
  ws_only indent -> ws_only close ->
  forall (p : jsstring * jsstring) (fuel : nat)
         (acc : list (jsstring * JsValue)) (tail : jsstring),
    length (p :: ps) < fuel ->
    parse_members fuel
      (members_text indent (p :: ps) ++ Ch.LF :: close ++ 125%N :: tail) acc
    = Some (VObj (set_props acc (p :: ps)), tail).
Proof.
  intros Hi Hc. induction ps as [|q ps IH]; intros [k v] fuel acc tail Hf.
  - destruct fuel as [|[|fuel]]; [simpl in Hf; lia | simpl in Hf; lia|].
    rewrite members_text_one. cbn [fst snd]. rewrite parse_members_step.
    change (Ch.LF :: close ++ 125%N :: tail)
      with ((Ch.LF :: close) ++ 125%N :: tail).
    rewrite skip_ws_app by now apply ws_only_lf.
    reflexivity.
  - destruct fuel as [|[|fuel]]; [simpl in Hf; lia | simpl in Hf; lia|].
    rewrite members_text_cons. cbn [fst snd]. rewrite <- !app_assoc.
    rewrite parse_members_step.
    change (skip_ws (separator indent ++ ?x))
      with (44%N :: (Ch.LF :: indent ++ gap) ++ x).
    cbn iota. change (44 =? 44)%N with true. cbn iota.
    rewrite <- parse_members_skip, skip_ws_app by now apply ws_only_gap.
    destruct (members_text_starts indent q ps) as [x Ex].
    assert (Es : forall y, skip_ws (members_text indent (q :: ps) ++ y)
                           = members_text indent (q :: ps) ++ y).
    { intros y. rewrite Ex. reflexivity. }
    rewrite Es. rewrite IH; [reflexivity | simpl in *; lia].
Qed.

Lemma json_object_text (indent : jsstring) (p : jsstring * jsstring)
    (ps : list (jsstring * jsstring)) (tail : jsstring) :
  json_object indent (quoted_props (p :: ps)) ++ tail
  = 123%N :: (Ch.LF :: indent ++ gap)
    ++ members_text indent (p :: ps) ++ Ch.LF :: indent ++ 125%N :: tail.
Proof.
  unfold json_object, members_text, separator. cbn [quoted_props map].
  change (js "{") with [123%N]. change (js "}") with [125%N].
  repeat (rewrite <- ?app_assoc; progress cbn [app]).
  rewrite <- ?app_assoc. reflexivity.
Qed.

Lemma skip_ws_lf (x : jsstring) : skip_ws (Ch.LF :: x) = skip_ws x.
Proof. reflexivity. Qed.

Lemma ws_only_app (a b : jsstring) : ws_only a -> ws_only b -> ws_only (a ++ b).
Proof. unfold ws_only. intros A B. now rewrite forallb_app, A, B. Qed.

Lemma ws_only_gap' : ws_only gap.
Proof. reflexivity. Qed.

Lemma parse_object (indent : jsstring) (p : jsstring * jsstring)
    (ps : list (jsstring * jsstring)) (fuel : nat) (tail : jsstring) :
  ws_only indent -> length (p :: ps) + 1 < fuel ->
  parse_value fuel (json_object indent (quoted_props (p :: ps)) ++ tail)
  = Some (VObj (set_props [] (p :: ps)), tail).
Proof.
  intros Hi Hf. destruct fuel as [|fuel]; [lia|].
  rewrite json_object_text.
  destruct (members_text_starts indent p ps) as [x Ex].
  assert (Es : forall y, skip_ws (members_text indent (p :: ps) ++ y)
                         = members_text indent (p :: ps) ++ y).
  { intros y. rewrite Ex. reflexivity. }
  assert (Hg : ws_only (indent ++ gap)) by (apply ws_only_app; [assumption | reflexivity]).
  change (parse_value (S fuel) (123%N :: ?r))
    with (match skip_ws r with
          | d :: r' =>
              if (d =? 125)%N then Some (VObj [], r')
              else parse_members fuel r []
          | [] => None
          end).
  cbn [app]. rewrite skip_ws_lf, (skip_ws_app _ _ Hg), Es.
  rewrite Ex at 1. cbn [app]. cbn iota.
  change (34 =? 125)%N with false. cbn iota.
  rewrite <- parse_members_skip, skip_ws_lf, (skip_ws_app _ _ Hg), Es.
  apply parse_members_ok; [assumption | assumption | lia].
Qed.

(** *** Records and the array of records *)

Lemma course_props_shape (c : Course) :
  exists p ps,
    course_props c = p :: ps
    /\ length (p :: ps) <= 10
    /\ set_props [] (p :: ps) = map (fun kv => (fst kv, VStr (snd kv))) (p :: ps).
Proof.
  destruct c as [i t n m d r u b l h]. unfold course_props. cbn [id title instructor
    term dayPeriod room updatedAt bodyText detailUrl hash].
  destruct r, u; eexists; eexists; (split; [reflexivity | split; [simpl; lia | reflexivity]]).
Qed.

Lemma parse_course (fuel : nat) (c : Course) (tail : jsstring) :
  11 < fuel ->
  parse_value fuel (course_text c ++ tail) = Some (value_of_course c, tail).
Proof.
  intros Hf. unfold course_text, value_of_course.
  destruct (course_props_shape c) as [p [ps [E [L S]]]]. rewrite E, <- S.
  apply parse_object; [reflexivity | lia].
Qed.

Lemma course_text_starts (c : Course) : exists x, course_text c = 123%N :: x.
Proof.
  unfold course_text. destruct (course_props_shape c) as [p [ps [E _]]].
  rewrite E. eexists. reflexivity.
Qed.

Lemma course_text_length (c : Course) : 10 <= length (course_text c).
Proof.
  unfold course_text. destruct (course_props_shape c) as [p [ps [E _]]].
  rewrite E. pose proof (json_object_text gap p ps []) as T.
  rewrite app_nil_r in T. rewrite T. cbn [length app]. rewrite !length_app.
  cbn [length gap]. change (length (gap ++ [125%N])) with 3. lia.
Qed.

Lemma elements_text_cons (c d : Course) (cs : list Course) :
  elements_text (c :: d :: cs)
  = course_text c ++ separator [] ++ elements_text (d :: cs).
Proof. reflexivity. Qed.

Lemma elements_text_starts (c : Course) (cs : list Course) :
  exists x, elements_text (c :: cs) = 123%N :: x.
Proof.
  destruct (course_text_starts c) as [x Ex]. destruct cs as [|d cs].
  - exists x. exact Ex.
  - rewrite elements_text_cons, Ex. eexists. reflexivity.
Qed.

Lemma elements_text_length (cs : list Course) :
  10 * length cs <= length (elements_text cs).
Proof.
  induction cs as [|c cs IH]; [simpl; lia|].
  pose proof (course_text_length c) as L. destruct cs as [|d cs].
  - unfold elements_text. simpl map. simpl join. simpl length. lia.
  - rewrite elements_text_cons, !length_app. simpl length in *. lia.
Qed.

Lemma parse_elements_ws (fuel : nat) (w x : jsstring) (acc : list JsValue) :
  ws_only w -> parse_elements fuel (w ++ x) acc = parse_elements fuel x acc.
Proof.
  intros Hw. destruct fuel as [|fuel]; [reflexivity|]. cbn [parse_elements].
  rewrite <- (parse_value_skip fuel (w ++ x)), (skip_ws_app _ _ Hw).
  now rewrite parse_value_skip.
Qed.

Lemma parse_elements_ok (cs : list Course) :
  forall (c : Course) (fuel : nat) (acc : list JsValue) (tail : jsstring),
    length (c :: cs) + 12 < fuel ->
    parse_elements fuel (elements_text (c :: cs) ++ Ch.LF :: 93%N :: tail) acc
    = Some (VArr (acc ++ map value_of_course (c :: cs)), tail).
Proof.
  induction cs as [|d cs IH]; intros c fuel acc tail Hf;
    (destruct fuel as [|fuel]; [simpl in Hf; lia|]).
  - change (elements_text [c]) with (course_text c). cbn [parse_elements].
    rewrite parse_course by (simpl in Hf; lia). reflexivity.
  - rewrite elements_text_cons, <- !app_assoc. cbn [parse_elements].
    rewrite parse_course by (simpl in Hf; lia).
    change (skip_ws (separator [] ++ ?x)) with (44%N :: (Ch.LF :: gap) ++ x).
    cbn iota. change (44 =? 44)%N with true. cbn iota.
    rewrite parse_elements_ws by reflexivity.
    rewrite IH by (simpl in *; lia).
    rewrite <- app_assoc. reflexivity.
Qed.

Lemma JSON_stringify_text (c : Course) (cs : list Course) :
  JSON_stringify (c :: cs)
  = 91%N :: (Ch.LF :: gap) ++ elements_text (c :: cs) ++ [Ch.LF; 93%N].
Proof. reflexivity. Qed.

(** What [JSON.stringify] writes of a list of records, [JSON.parse]
    reads as the array of these records. *)
Lemma JSON_parse_stringify (courses : list Course) :
  JSON_parse (JSON_stringify courses) = Normal (VArr (map value_of_course courses)).
Proof.
  destruct courses as [|c cs]; [reflexivity|].
  unfold JSON_parse.
  set (fuel := 2 * length (JSON_stringify (c :: cs)) + 2).
  assert (Hf : length (c :: cs) + 13 < fuel).
  { unfold fuel. rewrite JSON_stringify_text. cbn [length].
    rewrite !length_app. pose proof (elements_text_length (c :: cs)) as L.
    cbn [length] in *. lia. }
  rewrite JSON_stringify_text.
  destruct fuel as [|fuel]; [lia|].
  destruct (elements_text_starts c cs) as [x Ex].
  change (parse_value (S fuel) (91%N :: ?r))
    with (match skip_ws r with
          | d :: r' =>
              if (d =? 93)%N then Some (VArr [], r')
              else parse_elements fuel r []
          | [] => None
          end).
  assert (Es : forall y, skip_ws (elements_text (c :: cs) ++ y)
                         = 123%N :: (x ++ y)).
  { intros y. rewrite Ex. reflexivity. }
  rewrite skip_ws_app by reflexivity.
  rewrite Es. cbn iota. change (123 =? 93)%N with false. cbn iota.
  rewrite parse_elements_ws by reflexivity.
  change [Ch.LF; 93%N] with (Ch.LF :: 93%N :: []).
  rewrite parse_elements_ok by (simpl in *; lia).
  reflexivity.
Qed.

Lemma course_of_value_of_course (c : Course) :
  course_of_value (value_of_course c) = Some c.
Proof. destruct c as [i t n m d r u b l h]. destruct r, u; reflexivity. Qed.

(** *** The written text is text UTF-8 can hold *)

Lemma well_formed_app (a b : jsstring) :
  well_formed a = true -> well_formed b = true -> well_formed (a ++ b) = true.
Proof.
  induction a as [|c r IH IH2] using jsstring_pair_ind; [trivial|].
  intros Ha Hb. cbn [well_formed app] in *.
  destruct (is_high_surrogate c).
  - destruct r as [|d r']; [discriminate|]. cbn [app].
    apply andb_prop in Ha. destruct Ha as [A B]. rewrite A. simpl.
    now apply (IH2 d r' eq_refl).
  - apply andb_prop in Ha. destruct Ha as [A B]. rewrite A. simpl. now apply IH.
Qed.

Lemma well_formed_small (s : jsstring) :
  Forall (fun c => (c < 55296)%N) s -> well_formed s = true.
Proof.
  induction 1 as [|c r Hc Hr IH]; [reflexivity|]. cbn [well_formed].
  assert (H : is_high_surrogate c = false).
  { unfold is_high_surrogate. apply andb_false_iff. left. apply N.leb_gt. lia. }
  assert (L : is_low_surrogate c = false).
  { unfold is_low_surrogate. apply andb_false_iff. left. apply N.leb_gt. lia. }
  now rewrite H, L, IH.
Qed.

Lemma hex_char_small (x : N) : (hex_char (N.land x 15) < 55296)%N.
Proof.
  pose proof (nibble_lt x) as H. unfold hex_char.
  destruct (N.land x 15 <? 10)%N; lia.
Qed.

Lemma well_formed_escape (c : N) : well_formed (unicode_escape c) = true.
Proof.
  apply well_formed_small. unfold unicode_escape.
  repeat constructor; try apply hex_char_small; reflexivity.
Qed.

Lemma well_formed_quote_body (s : jsstring) : well_formed (quote_body s) = true.
Proof.
  induction s as [|c r IH IH2] using jsstring_pair_ind; [reflexivity|].
  cbn [quote_body].
  repeat match goal with
         | |- context [if (c =? ?k)%N then _ else _] =>
             destruct (c =? k)%N; [now apply well_formed_app|]
         end.
  destruct (c <? 32)%N; [apply well_formed_app; [apply well_formed_escape | exact IH]|].
  destruct (is_high_surrogate c) eqn:EH.
  - destruct r as [|d r']; [apply well_formed_escape|].
    destruct (is_low_surrogate d) eqn:EL.
    + cbn [well_formed]. rewrite EH, EL. exact (IH2 d r' eq_refl).
    + apply well_formed_app; [apply well_formed_escape | exact IH].
  - destruct (is_low_surrogate c) eqn:EL.
    + apply well_formed_app; [apply well_formed_escape | exact IH].
    + cbn [well_formed]. now rewrite EH, EL.
Qed.

Lemma well_formed_quote (s : jsstring) : well_formed (JSON_quote s) = true.
Proof.
  unfold JSON_quote. apply well_formed_app; [reflexivity|].
  apply well_formed_app; [apply well_formed_quote_body | reflexivity].
Qed.

Lemma well_formed_join (sep : jsstring) (items : list jsstring) :
  well_formed sep = true ->
  Forall (fun x => well_formed x = true) items ->
  well_formed (join sep items) = true.
Proof.
  intros Hs H. induction H as [|x l Hx Hl IH]; [reflexivity|].
  destruct l as [|y l]; [exact Hx|].
  change (join sep (x :: y :: l)) with (x ++ sep ++ join sep (y :: l)).
  repeat apply well_formed_app; assumption.
Qed.

Lemma well_formed_members (indent : jsstring) (props : list (jsstring * jsstring)) :
  well_formed indent = true -> well_formed (members_text indent props) = true.
Proof.
  intros Hi. unfold members_text. apply well_formed_join.
  - unfold separator. repeat apply well_formed_app; try assumption; reflexivity.
  - apply Forall_forall. intros x Hx. apply in_map_iff in Hx.
    destruct Hx as [[k v] [<- Hk]]. unfold quoted_props in Hk.
    apply in_map_iff in Hk. destruct Hk as [[k' v'] [E _]]. injection E as <- <-.
    unfold json_member. cbn [fst snd].
    apply well_formed_app; [apply well_formed_quote|].
    apply well_formed_app; [reflexivity | apply well_formed_quote].
Qed.

Lemma well_formed_course_text (c : Course) : well_formed (course_text c) = true.
Proof.
  unfold course_text. destruct (course_props_shape c) as [p [ps [E _]]].
  rewrite E. pose proof (json_object_text gap p ps []) as T.
  rewrite app_nil_r in T. rewrite T.
  change (123%N :: (Ch.LF :: gap ++ gap) ++ ?x)
    with ((123%N :: Ch.LF :: gap ++ gap) ++ x).
  apply well_formed_app; [reflexivity|].
  apply well_formed_app; [now apply well_formed_members | reflexivity].
Qed.

Lemma well_formed_stringify (courses : list Course) :
  well_formed (JSON_stringify courses) = true.
Proof.
  destruct courses as [|c cs]; [reflexivity|].
  rewrite JSON_stringify_text.
  change (91%N :: (Ch.LF :: gap) ++ ?x) with ((91%N :: Ch.LF :: gap) ++ x).
  apply well_formed_app; [reflexivity|].
  apply well_formed_app; [|reflexivity].
  apply well_formed_join; [reflexivity|].
  apply Forall_forall. intros x Hx. apply in_map_iff in Hx.
  destruct Hx as [c' [<- _]]. apply well_formed_course_text.
Qed.

(** *** The map of the loaded records *)

Lemma Map_set_untyped (m : CourseMap) (k : jsstring) (c : Course) :
  Map_set same_value_zero (untyped m) (VStr k) (value_of_course c)
  = untyped (Map_set str_eqb m k c).
Proof.
  induction m as [|[k' c'] m IH]; [reflexivity|].
  cbn [untyped map Map_set fst snd same_value_zero].
  destruct (str_eqb k' k); [reflexivity|].
  cbn [map fst snd]. f_equal. exact IH.
Qed.

Lemma new_Map_untyped (courses : list Course) :
  new_Map same_value_zero (map entry_of_course courses)
  = untyped (snapshot_of courses).
Proof.
  unfold new_Map, snapshot_of, new_Map.
  change (@nil (JsValue * JsValue)) with (untyped []).
  generalize (@nil (jsstring * Course)).
  induction courses as [|c cs IH]; intros m; [reflexivity|].
  cbn [map fold_left entry_of_course fst snd].
  rewrite Map_set_untyped. apply IH.
Qed.

Lemma map_entries (courses : list Course) :
  map_completion (fun c => bind (prop_id c) (fun k => Normal (k, c)))
    (map value_of_course courses)
  = Normal (map entry_of_course courses).
Proof.
  induction courses as [|c cs IH]; [reflexivity|].
  cbn [map map_completion]. rewrite IH.
  destruct c as [i t n m d r u b l h]. reflexivity.
Qed.

Lemma get_Map_set (m : CourseMap) (k k' : jsstring) (c : Course) :
  get (Map_set str_eqb m k c) k' = if str_eqb k k' then Some c else get m k'.
Proof.
  induction m as [|[k0 c0] m IH].
  - reflexivity.
  - cbn [Map_set]. destruct (str_eqb k0 k) eqn:E.
    + apply str_eqb_eq in E. subst k0. rewrite !get_cons.
      now destruct (str_eqb k k').
    + rewrite !get_cons, IH. destruct (str_eqb k0 k') eqn:E0; [|reflexivity].
      apply str_eqb_eq in E0. subst k0. apply str_eqb_neq in E.
      assert (E' : str_eqb k k' = false) by (apply str_eqb_neq; congruence).
      now rewrite E'.
Qed.

Lemma get_snapshot_of (courses : list Course) (k : jsstring) :
  get (snapshot_of courses) k = last_with_id k courses.
Proof.
  unfold snapshot_of, new_Map.
  assert (G : forall (m : CourseMap),
    get (fold_left (fun m kv => Map_set str_eqb m (fst kv) (snd kv))
           (map (fun c => (id c, c)) courses) m) k
    = match last_with_id k courses with
      | Some c => Some c
      | None => get m k
      end).
  { induction courses as [|c cs IH]; intros m; [reflexivity|].
    cbn [map fold_left fst snd last_with_id]. rewrite IH, get_Map_set.
    destruct (last_with_id k cs); [reflexivity|].
    now destruct (str_eqb (id c) k). }
  rewrite G. now destruct (last_with_id k courses).
Qed.

Lemma Map_set_new_key (m : CourseMap) (k : jsstring) (c : Course) :
  ~ In k (Map_keys m) -> Map_set str_eqb m k c = m ++ [(k, c)].
Proof.
  induction m as [|[k' c'] m IH]; [reflexivity|].
  intros H. cbn [Map_set]. destruct (str_eqb k' k) eqn:E.
  - apply str_eqb_eq in E. subst k'. exfalso. apply H. now left.
  - cbn [app]. f_equal. apply IH. intros I. apply H. now right.
Qed.

Lemma snapshot_of_distinct (courses : list Course) :
  NoDup (map id courses) ->
  snapshot_of courses = map (fun c => (id c, c)) courses.
Proof.
  unfold snapshot_of, new_Map.
  assert (G : forall (m : CourseMap),
    NoDup (Map_keys m ++ map id courses) ->
    fold_left (fun m kv => Map_set str_eqb m (fst kv) (snd kv))
      (map (fun c => (id c, c)) courses) m
    = m ++ map (fun c => (id c, c)) courses).
  { induction courses as [|c cs IH]; intros m H.
    - simpl. now rewrite app_nil_r.
    - cbn [map fold_left fst snd].
      assert (N : ~ In (id c) (Map_keys m)).
      { cbn [map] in H. apply NoDup_remove_2 in H. intros I. apply H.
        apply in_or_app. now left. }
      rewrite (Map_set_new_key m (id c) c N), IH.
      + now rewrite <- app_assoc.
      + unfold Map_keys. rewrite map_app. cbn [map fst].
        rewrite <- app_assoc. exact H. }
  intros H. now apply (G []).
Qed.

(* ================================================================== *)
(** ** Saving, then loading *)
(* ================================================================== *)

Lemma scrub_well_formed (s : jsstring) : well_formed s = true -> MemFS.scrub s = s.
Proof.
  induction s as [|c r IH IH2] using jsstring_pair_ind; [reflexivity|].
  cbn [well_formed MemFS.scrub]. destruct (is_high_surrogate c).
  - destruct r as [|d r']; [discriminate|]. intros H. apply andb_prop in H.
    destruct H as [A B]. rewrite A. now rewrite (IH2 d r' eq_refl B).
  - intros H. apply andb_prop in H. destruct H as [A B].
    apply negb_true_iff in A. rewrite A. now rewrite (IH B).
Qed.

Lemma MemFS_reads_what_was_written :
  reads_what_was_written MemFS.readFileSync MemFS.writeFileSync.
Proof.
  intros fs p text fs' W H. unfold MemFS.writeFileSync in H.
  destruct (MemFS.is_dir fs p) eqn:D; [discriminate|].
  destruct (negb (MemFS.is_dir fs (MemFS.dirname p))); [discriminate|].
  injection H as <-. unfold MemFS.readFileSync.
  change (MemFS.is_dir {| MemFS.files := _; MemFS.dirs := MemFS.dirs fs |} p)
    with (MemFS.is_dir fs p).
  rewrite D. cbn [MemFS.files MemFS.lookup]. rewrite str_eqb_refl.
  now rewrite scrub_well_formed.
Qed.

(** Two records share an identifier: the file holds both, the loaded
    snapshot only the second. *)
Lemma load_keeps_one_of_shared_id :
  id SampleStore.first = id SampleStore.second
  /\ MemFS.save MemFS.empty SampleStore.path
       [SampleStore.first; SampleStore.second] = Normal SampleStore.saved
  /\ MemFS.load SampleStore.saved SampleStore.path
     = Normal [entry_of_course SampleStore.second]
  /\ ~ In (value_of_course SampleStore.first)
         (map snd [entry_of_course SampleStore.second]).
Proof.
  split; [reflexivity | split; [reflexivity | split; [reflexivity|]]].
  intros [H|[]]. vm_compute in H. discriminate H.
Qed.

(** C7, amended.  [saveCurr] writes the whole list, and [loadPrev] of what
    it wrote returns the snapshot of that list: every record is read back
    with every field as it was, under its identifier.  When the
    identifiers are pairwise different the snapshot holds exactly the
    records of the list; among records that share an identifier it holds
    the last. *)
Theorem save_then_load
    (FS : Type)
    (readFileSync : FS -> jsstring -> Completion jsstring)
    (writeFileSync : FS -> jsstring -> jsstring -> Completion FS)
    (existsSync : FS -> jsstring -> bool)
    (mkdirSync : FS -> jsstring -> Completion FS)
    (dirname : jsstring -> jsstring)
    (fs fs' : FS) (filePath : jsstring) (courses : list Course) :
  reads_what_was_written readFileSync writeFileSync ->
  saveCurr writeFileSync existsSync mkdirSync dirname fs filePath courses
  = Normal fs' ->
  readFileSync fs' filePath = Normal (JSON_stringify courses)
  /\ JSON_parse (JSON_stringify courses)
     = Normal (VArr (map value_of_course courses))
  /\ (forall c, In c courses -> course_of_value (value_of_course c) = Some c)
  /\ loadPrev readFileSync fs' filePath = Normal (untyped (snapshot_of courses))
  /\ (forall k, get (snapshot_of courses) k = last_with_id k courses)
  /\ (NoDup (map id courses) ->
      snapshot_of courses = map (fun c => (id c, c)) courses).
Proof.
  intros Law H. unfold saveCurr in H.
  assert (R : readFileSync fs' filePath = Normal (JSON_stringify courses)).
  { destruct (if negb (existsSync fs (dirname filePath))
              then mkdirSync fs (dirname filePath) else Normal fs) as [fs1|e];
      [|discriminate].
    simpl in H. exact (Law fs1 filePath _ fs' (well_formed_stringify courses) H). }
  split; [exact R|].
  split; [apply JSON_parse_stringify|].
  split; [intros c _; apply course_of_value_of_course|].
  split; [|split; [apply get_snapshot_of | apply snapshot_of_distinct]].
  unfold loadPrev. rewrite R. cbn [bind]. rewrite JSON_parse_stringify.
  cbn [bind Array_map]. rewrite map_entries. cbn [bind try_catch].
  now rewrite new_Map_untyped.
Qed.

Lemma save_then_load_witness :
  reads_what_was_written MemFS.readFileSync MemFS.writeFileSync
  /\ MemFS.save MemFS.empty SampleStore.path SampleStore2.courses
     = Normal SampleStore2.saved
  /\ MemFS.load SampleStore2.saved SampleStore.path
     = Normal (untyped (snapshot_of SampleStore2.courses)).
Proof.
  split; [exact MemFS_reads_what_was_written | split; [reflexivity|]].
  exact (proj1 (proj2 (proj2 (proj2
           (save_then_load MemFS.t MemFS.readFileSync MemFS.writeFileSync
              MemFS.existsSync MemFS.mkdirSync MemFS.dirname
              MemFS.empty SampleStore2.saved SampleStore.path
              SampleStore2.courses MemFS_reads_what_was_written eq_refl))))).
Defined.

Example save_then_load_sample :
  MemFS.load SampleStore2.saved SampleStore.path
  = Normal (map entry_of_course SampleStore2.courses)
  /\ map course_of_value (map value_of_course SampleStore2.courses)
     = map Some SampleStore2.courses.
Proof. split; reflexivity. Qed.

(* ================================================================== *)
(** * Further properties *)
(* ================================================================== *)

(** ** The reconciler: order, symmetry, empty snapshots *)

(** X1.  The three lists come in the order of the maps: [added] holds the
    records of [curr] whose key [prev] lacks, in the order of [curr];
    [changed] follows the order of [curr] too; [removed] follows the order
    of [prev]. *)
Theorem compareCourses_in_order (prev curr : CourseMap) :
  let d := compareCourses prev curr in
  added d = map snd (filter (fun e => negb (has prev (fst e))) curr)
  /\ changed d
     = flat_map
         (fun e => match get prev (fst e) with
                   | Some p =>
                       if str_eqb (hash p) (hash (snd e)) then []
                       else [{| before := p; after := snd e |}]
                   | None => []
                   end) curr
  /\ removed d = map snd (filter (fun e => negb (has curr (fst e))) prev).
Proof.
  intros d. subst d. rewrite compareCourses_eq. cbn [added changed removed].
  split; [reflexivity | split; [|reflexivity]].
  unfold changed_of. apply flat_map_ext. intros e. unfold change_of.
  destruct (get prev (fst e)) as [p|]; [|reflexivity].
  now destruct (str_eqb (hash p) (hash (snd e))).
Qed.

(** Without a history every record of [curr] is added, in order, and
    nothing is changed or removed; against an empty [curr] every record of
    [prev] is removed. *)
Theorem compareCourses_empty_side (m : CourseMap) :
  compareCourses [] m
  = {| added := map snd m; changed := []; removed := [] |}
  /\ compareCourses m []
     = {| added := []; changed := []; removed := map snd m |}.
Proof.
  rewrite !compareCourses_eq.
  assert (A : added_of [] m = map snd m).
  { unfold added_of. induction m as [|e m IH]; [reflexivity|].
    simpl in *. f_equal. exact IH. }
  assert (C : changed_of [] m = []).
  { clear A. unfold changed_of. induction m as [|e m IH]; [reflexivity|].
    exact IH. }
  unfold removed_of at 2. fold (added_of [] m). rewrite A, C.
  split; reflexivity.
Qed.

Lemma changed_of_ids (prev curr : CourseMap) :
  Forall (fun e => fst e = id (snd e)) curr ->
  map (fun ch => id (after ch)) (changed_of prev curr)
  = map fst (filter (fun e => match get prev (fst e) with
                              | Some p => differs p (snd e)
                              | None => false
                              end) curr).
Proof.
  unfold changed_of, change_of, differs.
  induction 1 as [|[k c] curr Hk Hr IH]; [reflexivity|].
  cbn [flat_map filter fst snd] in *. rewrite map_app, IH.
  destruct (get prev k) as [p|]; [|reflexivity].
  destruct (negb (str_eqb (hash p) (hash c))); [|reflexivity].
  cbn [map app after]. now rewrite Hk.
Qed.

Lemma NoDup_map_filter (K E : Type) (key : E -> K) (keep : E -> bool)
    (entries : list E) (H : NoDup (map key entries)) :
  NoDup (map key (filter keep entries)).
Proof.
  induction entries as [|x l IH]; [constructor|].
  inversion H as [|? ? Hn Hr]; subst. simpl. destruct (keep x); [|now apply IH].
  simpl. constructor; [|now apply IH].
  intros I. apply Hn. apply in_map_iff in I. destruct I as [y [E' Iy]].
  apply filter_In in Iy. apply in_map_iff. exists y. tauto.
Qed.

Lemma changed_of_NoDup (prev curr : CourseMap) :
  Snapshot_ok curr -> NoDup (changed_of prev curr).
Proof.
  intros [Hnd Hid]. apply (NoDup_map_inv (fun ch => id (after ch))).
  rewrite (changed_of_ids prev curr Hid). now apply NoDup_map_filter.
Qed.

(** X2.  Comparing the other way round exchanges [added] and [removed],
    and gives the same changes read from the other side. *)
Theorem compareCourses_swap (prev curr : CourseMap) :
  Snapshot_ok prev -> Snapshot_ok curr ->
  added (compareCourses curr prev) = removed (compareCourses prev curr)
  /\ removed (compareCourses curr prev) = added (compareCourses prev curr)
  /\ Permutation (changed (compareCourses curr prev))
       (map flip_change (changed (compareCourses prev curr))).
Proof.
  intros Hp Hc. rewrite !compareCourses_eq. cbn [added changed removed].
  split; [reflexivity | split; [reflexivity|]].
  apply NoDup_Permutation.
  - now apply changed_of_NoDup.
  - apply (NoDup_map_inv flip_change). rewrite map_map.
    rewrite (map_ext _ (fun ch => ch)) by (now intros [b a]).
    rewrite map_id. now apply changed_of_NoDup.
  - intros ch. rewrite in_map_iff. split.
    + intros H. apply in_changed_of in H. destruct H as [k [I [G N]]].
      exists (flip_change ch). split; [now destruct ch|].
      apply in_changed_of. exists k. cbn [flip_change before after].
      split; [now apply get_In|]. split; [apply In_get; [apply Hp | exact I]|].
      congruence.
    + intros [ch' [<- H]]. apply in_changed_of in H.
      destruct H as [k [I [G N]]]. apply in_changed_of. exists k.
      cbn [flip_change before after].
      split; [now apply get_In|]. split; [apply In_get; [apply Hc | exact I]|].
      congruence.
Qed.

Lemma compareCourses_swap_witness :
  Snapshot_ok Sample.prev /\ Snapshot_ok Sample.curr
  /\ added (compareCourses Sample.curr Sample.prev)
     = removed (compareCourses Sample.prev Sample.curr).
Proof.
  split; [apply snapshot_of_ok | split; [apply snapshot_of_ok|]].
  exact (proj1 (compareCourses_swap Sample.prev Sample.curr
                  (snapshot_of_ok _) (snapshot_of_ok _))).
Defined.

(** ** Canonicalisation: what it removes and what it keeps *)

Lemma no_visible_iff (s : jsstring) :
  filter (fun c => negb (is_ws c)) s = [] <-> forallb is_ws s = true.
Proof.
  induction s as [|c r IH]; [simpl; tauto|]. simpl.
  destruct (is_ws c); simpl; [exact IH|]. split; discriminate.
Qed.

Lemma words_nil_iff (s : jsstring) : words s = [] <-> forallb is_ws s = true.
Proof.
  destruct (words_content s) as [C F]. rewrite <- no_visible_iff, <- C. split.
  - intros ->. reflexivity.
  - intros E. destruct (words s) as [|w ws]; [reflexivity|].
    inversion F as [|? ? [Hw _] _]; subst. simpl in E.
    apply app_eq_nil in E. destruct E. contradiction.
Qed.

(** X3.  The canonical text is empty exactly when the text holds nothing
    but whitespace. *)
Theorem normalizeText_empty_iff (s : jsstring) :
  normalizeText s = [] <-> forallb is_ws s = true.
Proof.
  rewrite <- words_nil_iff, normalizeText_collapses. unfold collapse_whitespace.
  split.
  - destruct (words_content s) as [_ F].
    destruct (words s) as [|w ws]; [reflexivity|]. intros E.
    rewrite join_spaced in E. apply app_eq_nil in E. destruct E as [E _].
    inversion F as [|? ? [Hw _] _]. contradiction.
  - intros ->. reflexivity.
Qed.

Lemma spaced_length (s : jsstring) :
  length (fst (words_aux s)) + length (spaced (snd (words_aux s))) <= length s.
Proof.
  induction s as [|c r IH]; [simpl; lia|]. rewrite words_aux_cons.
  destruct (is_ws c); cbn [fst snd length].
  - unfold words. destruct (words_aux r) as [w ws]. cbn [fst snd] in IH.
    destruct w as [|a w]; cbn [cons_word].
    + simpl in IH. lia.
    + unfold spaced in *. cbn [map concat]. rewrite length_app.
      cbn [length] in *. lia.
  - lia.
Qed.

(** X4.  Canonicalising never makes a text longer. *)
Theorem normalizeText_length (s : jsstring) :
  length (normalizeText s) <= length s.
Proof.
  rewrite normalizeText_collapses. unfold collapse_whitespace, words.
  pose proof (spaced_length s) as L.
  destruct (words_aux s) as [w ws]. cbn [fst snd] in L.
  destruct w as [|a w]; cbn [cons_word].
  - destruct ws as [|x ws]; [simpl; lia|]. rewrite join_spaced.
    unfold spaced in L. cbn [map concat length] in L.
    rewrite length_app in *. cbn [length] in L. fold (spaced ws) in L. lia.
  - rewrite join_spaced, length_app. lia.
Qed.

(** X5.  Canonicalising changes whitespace only: the other code units
    stay, in their order. *)
Theorem normalizeText_keeps_visible (s : jsstring) :
  filter not_ws (normalizeText s) = filter not_ws s.
Proof.
  unfold not_ws.
  rewrite <- (proj1 (words_content (normalizeText s))).
  rewrite <- (proj1 (words_content s)).
  now rewrite normalizeText_words.
Qed.

Lemma words_aux_app (a x y : jsstring) :
  words_aux x = words_aux y -> words_aux (a ++ x) = words_aux (a ++ y).
Proof.
  intros H. induction a as [|c a IH]; [exact H|].
  cbn [app]. now apply words_aux_ext.
Qed.

Lemma normalizeText_by_words (s t : jsstring) :
  words s = words t -> normalizeText s = normalizeText t.
Proof.
  intros H. rewrite !normalizeText_collapses. unfold collapse_whitespace.
  now rewrite H.
Qed.

(** X6.  Which whitespace stands between two words, and how much of it,
    makes no difference: one whitespace code unit may be exchanged for
    another, and a run of whitespace may be made longer. *)
Theorem normalizeText_whitespace_noise (a b : jsstring) (w w' : N) :
  is_ws w = true -> is_ws w' = true ->
  normalizeText (a ++ w :: b) = normalizeText (a ++ w' :: b)
  /\ normalizeText (a ++ w :: w' :: b) = normalizeText (a ++ w :: b).
Proof.
  intros Hw Hw'. split; apply normalizeText_by_words; unfold words.
  - rewrite (words_aux_app a (w :: b) (w' :: b)); [reflexivity|].
    now rewrite !words_aux_cons, Hw, Hw'.
  - rewrite (words_aux_app a (w :: w' :: b) (w :: b)); [reflexivity|].
    now rewrite !words_aux_cons, Hw, (words_ws w' b Hw').
Qed.

Lemma normalizeText_whitespace_noise_witness :
  is_ws 160 = true /\ is_ws 9 = true
  /\ normalizeText (js "Logic" ++ 160%N :: js "I")
     = normalizeText (js "Logic" ++ 9%N :: js "I").
Proof.
  split; [reflexivity | split; [reflexivity|]].
  exact (proj1 (normalizeText_whitespace_noise (js "Logic") (js "I")
                  160 9 eq_refl eq_refl)).
Defined.

(** ** The record [fetchDetail] pushes *)

Lemma or_else_nil (x d : jsstring) : or_else (Some x) d = [] -> x = [] /\ d = [].
Proof. destruct x; simpl; [auto | discriminate]. Qed.

Lemma normalizeText_again (s : jsstring) :
  normalizeText (normalizeText s) = normalizeText s.
Proof. apply normalizeText_fixes_canonical, normalizeText_is_canonical. Qed.

(** X7.  Every text field of a fetched record is canonical already, room
    and last-updated label are always present, the locator is the stub's,
    the identifier is empty only when the stub has neither identifier nor
    locator, and the fingerprint is the SHA-256 of the stored fields
    themselves, joined by pipes: it can be recomputed from the record. *)
Theorem course_of_stored
    (URL_new : jsstring -> Completion URL) (item : Stub.t) (d : RawDetail) :
  let c := course_of URL_new item d in
  normalizeText (title c) = title c
  /\ normalizeText (instructor c) = instructor c
  /\ normalizeText (term c) = term c
  /\ normalizeText (dayPeriod c) = dayPeriod c
  /\ normalizeText (bodyText c) = bodyText c
  /\ (exists r u, room c = Some r /\ updatedAt c = Some u
                  /\ normalizeText r = r /\ normalizeText u = u
                  /\ hash c = sha256_hex
                                (join (js "|")
                                   [title c; instructor c; term c; dayPeriod c;
                                    r; u; bodyText c]))
  /\ detailUrl c = Stub.url item
  /\ (id c = [] -> Stub.id item = [] /\ Stub.url item = []).
Proof.
  intros c. subst c. unfold course_of, with_hash, base_of.
  cbn [title instructor term dayPeriod bodyText room updatedAt detailUrl id hash
       Base.title Base.instructor Base.term Base.dayPeriod Base.bodyText
       Base.room Base.updatedAt Base.detailUrl Base.id].
  repeat (split; [apply normalizeText_again|]).
  split; [|split; [reflexivity|]].
  - eexists. eexists. split; [reflexivity | split; [reflexivity|]].
    split; [apply normalizeText_again|].
    split; [apply normalizeText_again|].
    rewrite makeHash_fields. unfold canonical_fields.
    cbn [Base.title Base.instructor Base.term Base.dayPeriod Base.bodyText
         Base.room Base.updatedAt].
    now rewrite !normalizeText_again.
  - intros E. apply or_else_nil in E. destruct E as [E1 E2]. split; [exact E1|].
    rewrite idFromUrl_eq in E2.
    destruct (URL_new (Stub.url item)) as [u|e]; [|exact E2].
    destruct (searchParams_get (searchParams u) (js "id")) as [[|a v]|];
      simpl in E2; try exact E2; discriminate.
Qed.

(** X8.  A record fetched again under the same identifier, with the same
    seven values up to whitespace, is reported as unchanged: no entry in
    any list.  The locator may have changed; it is no part of the
    fingerprint. *)
Theorem refetch_unchanged
    (URL_new : jsstring -> Completion URL) (item item' : Stub.t)
    (d d' : RawDetail) :
  Base.id (base_of URL_new item d) = Base.id (base_of URL_new item' d') ->
  normalizeText (Stub.title item) = normalizeText (Stub.title item') ->
  normalizeText (Stub.instructor item) = normalizeText (Stub.instructor item') ->
  normalizeText (Stub.term item) = normalizeText (Stub.term item') ->
  normalizeText (Stub.dayPeriod item) = normalizeText (Stub.dayPeriod item') ->
  normalizeText (raw_room d) = normalizeText (raw_room d') ->
  normalizeText (raw_updatedAt d) = normalizeText (raw_updatedAt d') ->
  normalizeText (raw_bodyText d) = normalizeText (raw_bodyText d') ->
  compareCourses (snapshot_of [course_of URL_new item d])
                 (snapshot_of [course_of URL_new item' d'])
  = {| added := []; changed := []; removed := [] |}.
Proof.
  intros Hid H1 H2 H3 H4 H5 H6 H7.
  assert (Hh : hash (course_of URL_new item d) = hash (course_of URL_new item' d')).
  { unfold course_of, with_hash. cbn [hash]. rewrite !makeHash_fields.
    unfold canonical_fields, base_of.
    cbn [Base.title Base.instructor Base.term Base.dayPeriod Base.bodyText
         Base.room Base.updatedAt].
    now rewrite H1, H2, H3, H4, H5, H6, H7. }
  assert (Hk : id (course_of URL_new item d) = id (course_of URL_new item' d'))
    by exact Hid.
  rewrite compareCourses_eq.
  unfold snapshot_of, new_Map, added_of, changed_of, removed_of, change_of.
  cbn [map fold_left Map_set fst snd filter flat_map app].
  rewrite !has_get, !get_cons. cbn [fst snd].
  rewrite Hk, str_eqb_refl, Hh, str_eqb_refl. reflexivity.
Qed.

Lemma refetch_unchanged_witness :
  normalizeText (Stub.title SampleRefetch.monday)
  = normalizeText (Stub.title SampleRefetch.tuesday)
  /\ Stub.url SampleRefetch.monday <> Stub.url SampleRefetch.tuesday
  /\ compareCourses
       (snapshot_of [course_of SamplePortal.URL_new SampleRefetch.monday
                       SampleRefetch.page_monday])
       (snapshot_of [course_of SamplePortal.URL_new SampleRefetch.tuesday
                       SampleRefetch.page_tuesday])
     = {| added := []; changed := []; removed := [] |}.
Proof.
  split; [reflexivity | split; [discriminate|]].
  apply refetch_unchanged; reflexivity.
Defined.

(** ** The worker pool: bounds, termination, order of taking *)

Lemma in_flight_length
    (URL_new : jsstring -> Completion URL)
    (page_detail : jsstring -> Completion RawDetail) (s : Pool) :
  length (in_flight URL_new page_detail s) <= length (workers s).
Proof.
  unfold in_flight. induction (workers s) as [|w ws IH]; [simpl; lia|].
  cbn [flat_map]. rewrite length_app. destruct w; simpl in *; lia.
Qed.

(** X9.  At no moment are there more than three workers, nor more
    workers than stubs, and so never more than three pages being
    fetched. *)
Theorem pool_bounded
    (URL_new : jsstring -> Completion URL)
    (page_detail : jsstring -> Completion RawDetail)
    (newPage page_close : Stub.t -> Completion unit)
    (queue : list Stub.t) (sched : list nat) (s : Pool) :
  run URL_new page_detail newPage page_close queue sched (start queue) = Some s ->
  length (workers s) <= MAX_CONCURRENCY
  /\ length (workers s) <= length queue
  /\ length (in_flight URL_new page_detail s) <= MAX_CONCURRENCY.
Proof.
  intros R.
  destruct (start_inv URL_new page_detail newPage page_close queue) as [I0 _].
  destruct (run_inv _ _ _ _ _ _ _ _ I0 R) as [[_ [_ [_ [HL _]]]] _].
  pose proof (in_flight_length URL_new page_detail s) as F.
  pose proof (Nat.le_min_l MAX_CONCURRENCY (length queue)).
  pose proof (Nat.le_min_r MAX_CONCURRENCY (length queue)).
  repeat split; lia.
Qed.

Lemma pool_bounded_witness :
  run SamplePortal.URL_new SamplePortal.page_detail SamplePortal.newPage
    SamplePortal.page_close SamplePortal.queue
    [0; 1; 0] (start SamplePortal.queue)
  = Some (SampleSchedule.final [0; 1; 0])
  /\ length (workers (SampleSchedule.final [0; 1; 0])) <= MAX_CONCURRENCY.
Proof.
  assert (R : run SamplePortal.URL_new SamplePortal.page_detail
                SamplePortal.newPage SamplePortal.page_close
                SamplePortal.queue [0; 1; 0] (start SamplePortal.queue)
              = Some (SampleSchedule.final [0; 1; 0]))
    by (vm_compute; reflexivity).
  split; [exact R|].
  exact (proj1 (pool_bounded SamplePortal.URL_new SamplePortal.page_detail
                  SamplePortal.newPage SamplePortal.page_close
                  SamplePortal.queue [0; 1; 0] _ R)).
Defined.



(** X11.  The stubs are taken in the order of the list, and the index
    never leaves the list: at every moment the stubs that have left their
    trace, those being fetched and those for which no page was opened
    are, together, the first [i] stubs. *)
Theorem pool_takes_in_order
    (URL_new : jsstring -> Completion URL)
    (page_detail : jsstring -> Completion RawDetail)
    (newPage page_close : Stub.t -> Completion unit)
    (queue : list Stub.t) (sched : list nat) (s : Pool) :
  run URL_new page_detail newPage page_close queue sched (start queue) = Some s ->
  next s <= length queue
  /\ Permutation
       (settled s ++ in_flight URL_new page_detail s
        ++ lost URL_new page_detail newPage s)
       (map (outcome URL_new page_detail) (firstn (next s) queue)).
Proof.
  intros R.
  destruct (start_inv URL_new page_detail newPage page_close queue) as [I0 _].
  destruct (run_inv _ _ _ _ _ _ _ _ I0 R) as [[HP [Hn _]] _].
  split; [exact Hn|].
  rewrite <- (firstn_skipn (next s) queue) in HP at 2.
  rewrite map_app, app_assoc in HP. unfold waiting in HP.
  apply Permutation_app_inv_r in HP. rewrite <- HP.
  apply Permutation_app_head. symmetry. apply pending_split.
Qed.

Lemma pool_takes_in_order_witness :
  run SamplePortal.URL_new SamplePortal.page_detail SamplePortal.newPage_down
    SamplePortal.page_close SamplePortal.queue
    [2; 2; 1] (start SamplePortal.queue)
  = None
  /\ run SamplePortal.URL_new SamplePortal.page_detail SamplePortal.newPage_down
       SamplePortal.page_close SamplePortal.queue
       [2; 1; 1] (start SamplePortal.queue)
     = Some (SampleSchedule.final_no_page [2; 1; 1])
  /\ next (SampleSchedule.final_no_page [2; 1; 1]) <= length SamplePortal.queue
  /\ length (lost SamplePortal.URL_new SamplePortal.page_detail
               SamplePortal.newPage_down
               (SampleSchedule.final_no_page [2; 1; 1])) = 1.
Proof.
  assert (R : run SamplePortal.URL_new SamplePortal.page_detail
                SamplePortal.newPage_down SamplePortal.page_close
                SamplePortal.queue [2; 1; 1] (start SamplePortal.queue)
              = Some (SampleSchedule.final_no_page [2; 1; 1]))
    by (vm_compute; reflexivity).
  split; [vm_compute; reflexivity | split; [exact R | split]].
  - exact (proj1 (pool_takes_in_order SamplePortal.URL_new
                    SamplePortal.page_detail SamplePortal.newPage_down
                    SamplePortal.page_close SamplePortal.queue [2; 1; 1] _ R)).
  - vm_compute. reflexivity.
Defined.

Lemma worker_loop_advances (queue : list Stub.t) (fuel i : nat) :
  i <= snd (worker_loop queue fuel i).
Proof.
  revert i. induction fuel as [|fuel IH]; intros i; [simpl; lia|].
  cbn [worker_loop]. destruct (i <? length queue); [|simpl; lia].
  destruct (nth_error queue i); [simpl; lia|].
  specialize (IH (S i)). lia.
Qed.

Lemma step_appends
    (URL_new : jsstring -> Completion URL)
    (page_detail : jsstring -> Completion RawDetail)
    (newPage page_close : Stub.t -> Completion unit)
    (queue : list Stub.t) (w : nat) (s s' : Pool) :
  step URL_new page_detail newPage page_close queue w s = Some s' ->
  (exists more, courses s' = courses s ++ more)
  /\ (exists more, warnings s' = warnings s ++ more)
  /\ next s <= next s'.
Proof.
  assert (Same : forall t : Pool,
    courses t = courses s -> warnings t = warnings s -> next s <= next t ->
    (exists more, courses t = courses s ++ more)
    /\ (exists more, warnings t = warnings s ++ more)
    /\ next s <= next t).
  { intros t C W N. repeat split;
      [exists []; now rewrite app_nil_r | exists []; now rewrite app_nil_r | exact N]. }
  unfold step.
  destruct (nth_error (workers s) w) as [[item|item| |item e0]|]; try discriminate.
  - destruct (newPage item) as [u|e].
    + intros H. injection H as <-. unfold settle.
      destruct (page_detail (Stub.url item)); cbn [courses warnings next].
      * repeat split; [eexists; reflexivity | exists []; now rewrite app_nil_r | lia].
      * repeat split; [exists []; now rewrite app_nil_r | eexists; reflexivity | lia].
    + intros H. injection H as <-. apply Same; reflexivity.
  - destruct (page_close item) as [u|e].
    + pose proof (worker_loop_advances queue (S (length queue)) (next s)) as A.
      unfold enter_loop.
      destruct (worker_loop queue (S (length queue)) (next s)) as [st i].
      intros H. injection H as <-. cbn [snd] in A.
      apply Same; [reflexivity | reflexivity | exact A].
    + intros H. injection H as <-. apply Same; reflexivity.
Qed.

(** X12.  The workers only ever append: whatever runs, the records and
    the warnings a state has stay where they are, and the index does not
    go back. *)
Theorem pool_append_only
    (URL_new : jsstring -> Completion URL)
    (page_detail : jsstring -> Completion RawDetail)
    (newPage page_close : Stub.t -> Completion unit)
    (queue : list Stub.t) (sched : list nat) (s s' : Pool) :
  run URL_new page_detail newPage page_close queue sched s = Some s' ->
  (exists more, courses s' = courses s ++ more)
  /\ (exists more, warnings s' = warnings s ++ more)
  /\ next s <= next s'.
Proof.
  revert s. induction sched as [|w sched IH]; intros s H; simpl in H.
  - injection H as <-. repeat split; try (exists []; now rewrite app_nil_r). lia.
  - destruct (step URL_new page_detail newPage page_close queue w s) as [s1|] eqn:E;
      [|discriminate].
    destruct (step_appends _ _ _ _ _ _ _ _ E) as [[c1 C1] [[w1 W1] N1]].
    destruct (IH s1 H) as [[c2 C2] [[w2 W2] N2]].
    repeat split.
    + exists (c1 ++ c2). now rewrite C2, C1, app_assoc.
    + exists (w1 ++ w2). now rewrite W2, W1, app_assoc.
    + lia.
Qed.

Lemma pool_append_only_witness :
  run SamplePortal.URL_new SamplePortal.page_detail SamplePortal.newPage
    SamplePortal.page_close SamplePortal.queue
    [0; 0] (SampleSchedule.final [1; 2])
  = Some (SampleSchedule.final [1; 2; 0; 0])
  /\ exists more,
       courses (SampleSchedule.final [1; 2; 0; 0])
       = courses (SampleSchedule.final [1; 2]) ++ more.
Proof.
  assert (R : run SamplePortal.URL_new SamplePortal.page_detail
                SamplePortal.newPage SamplePortal.page_close
                SamplePortal.queue [0; 0] (SampleSchedule.final [1; 2])
              = Some (SampleSchedule.final [1; 2; 0; 0]))
    by (vm_compute; reflexivity).
  split; [exact R|].
  exact (proj1 (pool_append_only SamplePortal.URL_new SamplePortal.page_detail
                  SamplePortal.newPage SamplePortal.page_close
                  SamplePortal.queue [0; 0] _ _ R)).
Defined.

(** ** The two pools *)

Lemma shift_loop_enter (queue : list Stub.t) (i : nat) :
  i <= length queue ->
  shift_loop (skipn i queue)
  = (fst (enter_loop queue i), skipn (snd (enter_loop queue i)) queue)
  /\ snd (enter_loop queue i) <= length queue.
Proof.
  intros Hi. pose proof (enter_loop_spec queue i Hi) as L.
  destruct (nth_error queue i) as [it|] eqn:E.
  - destruct L as [Lt ->]. cbn [fst snd].
    rewrite (skipn_nth_error _ _ _ _ E). split; [reflexivity | lia].
  - destruct L as [-> ->]. cbn [fst snd]. rewrite skipn_all.
    split; [reflexivity | lia].
Qed.

Lemma shift_step_agrees
    (URL_new : jsstring -> Completion URL)
    (page_detail : jsstring -> Completion RawDetail)
    (newPage page_close : Stub.t -> Completion unit)
    (queue : list Stub.t) (w : nat) (s : Pool) :
  next s <= length queue ->
  shift_step URL_new page_detail newPage page_close w (as_shift queue s)
  = option_map (as_shift queue)
      (step URL_new page_detail newPage page_close queue w s)
  /\ (forall s', step URL_new page_detail newPage page_close queue w s = Some s' ->
                 next s' <= length queue).
Proof.
  intros Hn. unfold shift_step, step, as_shift.
  cbn [shift_workers rest shift_courses shift_warnings].
  destruct (nth_error (workers s) w) as [[item|item| |item e0]|]; cbn [option_map];
    try (split; [reflexivity | discriminate]).
  - destruct (newPage item) as [u|e]; cbn [option_map].
    + unfold shift_settle, settle.
      cbn [shift_workers rest shift_courses shift_warnings].
      destruct (page_detail (Stub.url item));
        (split; [reflexivity | intros s' H; injection H as <-; exact Hn]).
    + split; [reflexivity | intros s' H; injection H as <-; exact Hn].
  - destruct (page_close item) as [u|e]; cbn [option_map].
    + destruct (shift_loop_enter queue (next s) Hn) as [E L].
      rewrite E.
      destruct (enter_loop queue (next s)) as [st i]. cbn [fst snd] in *.
      split; [reflexivity | intros s' H; injection H as <-; exact L].
    + split; [reflexivity | intros s' H; injection H as <-; exact Hn].
Qed.

(** The older loop starts one worker for a list of one or two stubs, two
    for a list of three or four, and three from five stubs on. *)
Lemma shift_start_agrees (queue : list Stub.t) :
  shift_start queue
  = as_shift queue (start_with queue (shift_worker_count (length queue)))
  /\ next (start_with queue (shift_worker_count (length queue))) <= length queue.
Proof.
  destruct queue as [|a [|b [|c [|d [|e q]]]]];
    (split; [reflexivity | cbn; lia]).
Qed.

(** X13.  The older pool reads the bound of its [for] loop from a queue
    that its workers have begun to shift: for a list of [n] stubs it
    starts as many workers as the least of 3 and [n / 2] rounded up.
    From there it does what the pool with the index does when started
    with that many workers: under every schedule and with every browser
    they run as long, and reach states with the same workers, the same
    records in the same order, the same warnings and the same stubs
    left. *)
Theorem pools_agree
    (URL_new : jsstring -> Completion URL)
    (page_detail : jsstring -> Completion RawDetail)
    (newPage page_close : Stub.t -> Completion unit)
    (queue : list Stub.t) (sched : list nat) :
  length (shift_workers (shift_start queue))
  = Nat.min MAX_CONCURRENCY (Nat.div2 (S (length queue)))
  /\ length (workers (start queue)) = Nat.min MAX_CONCURRENCY (length queue)
  /\ shift_run URL_new page_detail newPage page_close sched (shift_start queue)
     = option_map (as_shift queue)
         (run URL_new page_detail newPage page_close queue sched
            (start_with queue (shift_worker_count (length queue)))).
Proof.
  destruct (shift_start_agrees queue) as [E L].
  split; [|split].
  - destruct queue as [|a [|b [|c [|d [|e q]]]]]; reflexivity.
  - apply (start_inv URL_new page_detail newPage page_close queue).
  - rewrite E. clear E.
    generalize dependent (start_with queue (shift_worker_count (length queue))).
    induction sched as [|w sched IH]; intros s L; [reflexivity|].
    cbn [shift_run run].
    destruct (shift_step_agrees URL_new page_detail newPage page_close queue w s L)
      as [E N].
    rewrite E.
    destruct (step URL_new page_detail newPage page_close queue w s) as [s1|];
      cbn [option_map]; [|reflexivity].
    apply IH. now apply N.
Qed.

(** Four stubs: two workers in the older pool, three in the newer one.
    Seven stubs: three in both, and the same records in the same order. *)
Example pools_agree_sample :
  length (shift_workers (shift_start (firstn 4 SamplePortal.queue))) = 2
  /\ length (workers (start (firstn 4 SamplePortal.queue))) = 3
  /\ option_map shift_courses
       (shift_run SamplePortal.URL_new SamplePortal.page_detail
          SamplePortal.newPage SamplePortal.page_close
          SampleSchedule.last_first (shift_start SamplePortal.queue))
     = Some (courses (SampleSchedule.final SampleSchedule.last_first)).
Proof. vm_compute. repeat split. Qed.

(** ** The snapshot [main] builds from the fetched records *)

Lemma filter_twice (A : Type) (p q : A -> bool) (l : list A) :
  filter p (filter q l) = filter (fun x => q x && p x) l.
Proof.
  induction l as [|x l IH]; [reflexivity|]. simpl.
  destruct (q x); simpl; [destruct (p x)|]; now rewrite IH.
Qed.

Lemma has_Map_set (m : CourseMap) (k x : jsstring) (c : Course) :
  has (Map_set str_eqb m k c) x = str_eqb k x || has m x.
Proof. rewrite !has_get, get_Map_set. now destruct (str_eqb k x). Qed.

Lemma fold_set_keys (l : list Course) :
  forall m : CourseMap,
    Map_keys (fold_left (fun m kv => Map_set str_eqb m (fst kv) (snd kv))
                (map (fun c => (id c, c)) l) m)
    = Map_keys m
      ++ filter (fun x => negb (has m x)) (first_occurrences (map id l)).
Proof.
  induction l as [|c cs IH]; intros m.
  - simpl. now rewrite app_nil_r.
  - cbn [map fold_left fst snd first_occurrences filter].
    rewrite IH, Map_set_keys.
    rewrite (filter_ext _ (fun x => negb (str_eqb (id c) x) && negb (has m x)))
      by (intros x; now rewrite has_Map_set, negb_orb).
    rewrite filter_twice.
    destruct (has m (id c)); cbn [negb]; [reflexivity|].
    now rewrite <- app_assoc.
Qed.

Lemma first_occurrences_length (l : list jsstring) :
  length (first_occurrences l) <= length l.
Proof.
  induction l as [|k r IH]; [simpl; lia|]. cbn [first_occurrences length].
  pose proof (filter_length_le (fun x => negb (str_eqb k x)) (first_occurrences r)).
  lia.
Qed.

(** X14.  [new Map(arr.map(c => [c.id, c]))] has one entry for every
    identifier of the list, where the identifier stands first; the entry
    holds the last record with that identifier, under its own identifier;
    so the map is never longer than the list. *)
Theorem snapshot_of_entries (arr : list Course) :
  Snapshot_ok (snapshot_of arr)
  /\ Map_keys (snapshot_of arr) = first_occurrences (map id arr)
  /\ (forall k, get (snapshot_of arr) k = last_with_id k arr)
  /\ length (snapshot_of arr) <= length arr.
Proof.
  assert (K : Map_keys (snapshot_of arr) = first_occurrences (map id arr)).
  { unfold snapshot_of, new_Map. rewrite fold_set_keys. cbn [Map_keys map app].
    apply filter_true || (induction (first_occurrences (map id arr)) as [|x l IH];
      [reflexivity | simpl; now rewrite IH]). }
  split; [apply snapshot_of_ok | split; [exact K | split; [apply get_snapshot_of|]]].
  pose proof (first_occurrences_length (map id arr)) as L.
  rewrite <- K in L. unfold Map_keys in L. now rewrite !length_map in L.
Qed.

Example snapshot_of_sample :
  map (fun e => (fst e, title (snd e)))
    (snapshot_of [Sample.course "C1" "Logic" "a"; Sample.course "C2" "Algebra" "b";
                  Sample.course "C1" "Logic II" "c"])
  = [(js "C1", js "Logic II"); (js "C2", js "Algebra")].
Proof. reflexivity. Qed.

(** ** The snapshot store: a damaged history *)

Lemma map_completion_throws (A B : Type) (f : A -> Completion B) (l : list A)
    (x : A) (e : Error) :
  In x l -> f x = Throw e -> exists e', map_completion f l = Throw e'.
Proof.
  induction l as [|y l IH]; [contradiction|]. intros [->|H] T; cbn [map_completion].
  - rewrite T. now exists e.
  - destruct (f y) as [b|e1]; cbn [bind]; [|now exists e1].
    destruct (IH H T) as [e' ->]. now exists e'.
Qed.

(** X16.  One [null] among the elements of the array and the whole
    history is given up: [c.id] throws on it, and [loadPrev] returns the
    empty map. *)
Theorem loadPrev_null_element
    (FS : Type) (readFileSync : FS -> jsstring -> Completion jsstring)
    (fs : FS) (filePath raw : jsstring) (items : list JsValue) :
  readFileSync fs filePath = Normal raw ->
  JSON_parse raw = Normal (VArr items) ->
  In VNull items ->
  loadPrev readFileSync fs filePath = Normal [].
Proof.
  intros R P I. unfold loadPrev. rewrite R. cbn [bind]. rewrite P.
  cbn [bind Array_map].
  destruct (map_completion_throws _ _
              (fun c => bind (prop_id c) (fun k => Normal (k, c)))
              items VNull TypeError I eq_refl) as [e' ->].
  reflexivity.
Qed.

Lemma loadPrev_null_element_witness :
  MemFS.readFileSync
    (MemFS.with_file SampleStore.path (js "[{}, null, 1]")) SampleStore.path
  = Normal (js "[{}, null, 1]")
  /\ JSON_parse (js "[{}, null, 1]") = Normal (VArr [VObj []; VNull; VNum (to_double false 1 0)])
  /\ loadPrev MemFS.readFileSync
       (MemFS.with_file SampleStore.path (js "[{}, null, 1]")) SampleStore.path
     = Normal [].
Proof.
  split; [reflexivity | split; [reflexivity|]].
  apply (loadPrev_null_element MemFS.t MemFS.readFileSync _ _
           (js "[{}, null, 1]") [VObj []; VNull; VNum (to_double false 1 0)]);
    [reflexivity | reflexivity | right; now left].
Defined.

(** Numbers are doubles: identifiers that round to one double are one
    key.  The first two identifiers of [SampleNumbers.text] are one key,
    and so are the last two, which are both zero. *)
Example loadPrev_number_keys :
  JSON_parse SampleNumbers.text
  = Normal (VArr (map (fun x => VObj [(js "id", VNum x)])
                    [DFinite false 4503599627370496 1;
                     DFinite false 4503599627370496 1;
                     DFinite false 0 (-1074); DFinite true 0 (-1074)]))
  /\ option_map (fun m : ValueMap => length m)
       (match loadPrev MemFS.readFileSync
                (MemFS.with_file SampleStore.path SampleNumbers.text)
                SampleStore.path with
        | Normal m => Some m
        | Throw _ => None
        end)
     = Some 2.
Proof. vm_compute. split; reflexivity. Qed.

(* ================================================================== *)
(** ** A run of [main] *)
(* ================================================================== *)

Lemma Map_get_untyped (m : CourseMap) (k : jsstring) :
  Map_get same_value_zero (untyped m) (VStr k)
  = option_map value_of_course (get m k).
Proof.
  induction m as [|[k' c] m IH]; [reflexivity|].
  rewrite get_cons. cbn [untyped map Map_get fst snd same_value_zero].
  destruct (str_eqb k' k); [reflexivity | exact IH].
Qed.

Lemma prop_hash_course (c : Course) :
  prop_hash (value_of_course c) = Normal (VStr (hash c)).
Proof.
  destruct c as [i t n m d r u b l h]. destruct r, u; reflexivity.
Qed.

Lemma strict_neq_strings (a b : jsstring) :
  strict_neq (VStr a) (VStr b) = negb (str_eqb a b).
Proof. reflexivity. Qed.

Lemma compareCourses_run_eq (prev curr : CourseMap) :
  compareCourses_run (untyped prev) curr
  = Normal (run_diff_of (compareCourses prev curr)).
Proof.
  rewrite compareCourses_eq. unfold compareCourses_run, run_diff_of.
  cbn [added changed removed].
  match goal with |- context [fold_left ?f curr (Normal ([], []))] => set (f1 := f) end.
  match goal with |- context [fold_left ?f (untyped prev) []] => set (f2 := f) end.
  set (emb := fun ch : Change => (value_of_course (before ch), after ch)).
  assert (H1 : forall l a ch,
    fold_left f1 l (Normal (a, ch))
    = Normal (a ++ added_of prev l, ch ++ map emb (changed_of prev l))).
  { induction l as [|[k c] l IH]; intros a ch.
    - cbn [fold_left added_of changed_of flat_map filter map].
      now rewrite !app_nil_r.
    - cbn [fold_left]. unfold f1 at 2. cbn [bind].
      rewrite Map_get_untyped.
      unfold added_of, changed_of. cbn [filter flat_map fst snd].
      unfold change_of at 1. cbn [fst snd]. rewrite has_get.
      destruct (get prev k) as [p|] eqn:G; cbn [option_map negb].
      + change (truthy (value_of_course p)) with true. cbn [negb].
        rewrite prop_hash_course. cbn [bind]. rewrite strict_neq_strings.
        destruct (negb (str_eqb (hash p) (hash c))).
        * rewrite IH. cbn [app map]. unfold changed_of, added_of.
          now rewrite <- app_assoc.
        * rewrite IH. reflexivity.
      + rewrite IH. cbn [map]. unfold added_of, changed_of.
        now rewrite <- app_assoc. }
  assert (H2 : forall l r,
    fold_left f2 (untyped l) r
    = r ++ map value_of_course
             (map snd (filter (fun e => negb (has curr (fst e))) l))).
  { induction l as [|[k p] l IH]; intros r.
    - cbn [untyped map fold_left filter]. now rewrite app_nil_r.
    - cbn [untyped map fold_left filter fst snd]. unfold f2 at 2.
      cbn [has_key]. fold (untyped l).
      destruct (negb (has curr k)); rewrite IH; cbn [map].
      + now rewrite <- app_assoc.
      + reflexivity. }
  rewrite H1. cbn [bind app]. rewrite H2. reflexivity.
Qed.

(** X18.  On a previous snapshot that holds records, [compareCourses] as
    it runs on the untyped map of [loadPrev] returns, without throwing,
    the three lists of the typed comparison, in the same order. *)
Theorem compareCourses_run_typed (prev curr : CourseMap) :
  compareCourses_run (untyped prev) curr
  = Normal (run_diff_of (compareCourses prev curr)).
Proof. exact (compareCourses_run_eq prev curr). Qed.

Lemma compareCourses_run_values (prev : ValueMap) (curr : CourseMap) :
  exists d,
    compareCourses_run prev curr = Normal d
    /\ (forall c, In c (run_added d) -> In c (map snd curr))
    /\ (forall p c, In (p, c) (run_changed d) ->
                    In p (map snd prev) /\ In c (map snd curr))
    /\ (forall p, In p (run_removed d) -> In p (map snd prev))
    /\ length (run_added d) + length (run_changed d) <= length curr
    /\ length (run_removed d) <= length prev.
Proof.
  unfold compareCourses_run.
  match goal with |- context [fold_left ?f curr (Normal ([], []))] => set (f1 := f) end.
  match goal with |- context [fold_left ?f prev []] => set (f2 := f) end.
  assert (G : forall m k p, Map_get same_value_zero m k = Some p ->
                            In p (map (@snd JsValue JsValue) m)).
  { induction m as [|[k' v] m IH]; intros k p H; [discriminate|].
    cbn [Map_get] in H. destruct (same_value_zero k' k).
    - injection H as <-. now left.
    - right. exact (IH k p H). }
  assert (H1 : forall l a ch,
    exists a' ch',
      fold_left f1 l (Normal (a, ch)) = Normal (a ++ a', ch ++ ch')
      /\ (forall c, In c a' -> In c (map snd l))
      /\ (forall p c, In (p, c) ch' -> In p (map snd prev) /\ In c (map snd l))
      /\ length a' + length ch' <= length l).
  { induction l as [|[k c] l IH]; intros a ch.
    - exists [], []. cbn [fold_left]. rewrite !app_nil_r.
      split; [reflexivity|]. split; [intros c []|]. split; [intros p c []|].
      apply Nat.le_refl.
    - cbn [fold_left]. unfold f1 at 2. cbn [bind].
      assert (Add : exists a' ch',
        fold_left f1 l (Normal (a ++ [c], ch)) = Normal (a ++ a', ch ++ ch')
        /\ (forall x, In x a' -> In x (map snd ((k, c) :: l)))
        /\ (forall p x, In (p, x) ch' ->
              In p (map snd prev) /\ In x (map snd ((k, c) :: l)))
        /\ length a' + length ch' <= length ((k, c) :: l)).
      { destruct (IH (a ++ [c]) ch) as [a' [ch' [E [A [C L]]]]].
        exists (c :: a'), ch'. rewrite E, <- app_assoc.
        split; [reflexivity|]. split; [|split].
        - intros x [<-|H]; [now left | right; now apply A].
        - intros p x H. destruct (C p x H) as [P X]. split; [exact P | now right].
        - cbn [length]. lia. }
      destruct (Map_get same_value_zero prev (VStr k)) as [p|] eqn:E; [|exact Add].
      destruct (truthy p) eqn:T; cbn [negb]; [|exact Add].
      assert (P : exists h, prop_hash p = Normal h).
      { destruct p; try discriminate T; cbn [prop_hash]; eauto. }
      destruct P as [h P]. rewrite P. cbn [bind].
      destruct (strict_neq h (VStr (hash c))).
      + destruct (IH a (ch ++ [(p, c)])) as [a' [ch' [E' [A [C L]]]]].
        exists a', ((p, c) :: ch'). rewrite E', <- app_assoc.
        split; [reflexivity|]. split; [|split].
        * intros x H. right. now apply A.
        * intros q x [H|H].
          -- injection H as <- <-. split; [exact (G _ _ _ E) | now left].
          -- destruct (C q x H) as [Q X]. split; [exact Q | now right].
        * cbn [length]. lia.
      + destruct (IH a ch) as [a' [ch' [E' [A [C L]]]]].
        exists a', ch'. split; [exact E'|]. split; [|split].
        * intros x H. right. now apply A.
        * intros q x H. destruct (C q x H) as [Q X]. split; [exact Q | now right].
        * cbn [length]. lia. }
  assert (H2 : forall l r,
    exists r', fold_left f2 l r = r ++ r'
               /\ (forall p, In p r' -> In p (map snd l))
               /\ length r' <= length l).
  { induction l as [|[k p] l IH]; intros r.
    - exists []. cbn [fold_left]. rewrite app_nil_r.
      split; [reflexivity|]. split; [intros p []|apply Nat.le_refl].
    - cbn [fold_left]. unfold f2 at 2.
      destruct (negb (has_key curr k)).
      + destruct (IH (r ++ [p])) as [r' [E [A L]]].
        exists (p :: r'). rewrite E, <- app_assoc.
        split; [reflexivity|]. split.
        * intros x [<-|H]; [now left | right; now apply A].
        * cbn [length]. lia.
      + destruct (IH r) as [r' [E [A L]]].
        exists r'. split; [exact E|]. split.
        * intros x H. right. now apply A.
        * cbn [length]. lia. }
  destruct (H1 curr [] []) as [a' [ch' [E [A [C L]]]]].
  destruct (H2 prev []) as [r' [E2 [R L2]]].
  rewrite E. cbn [bind app]. rewrite E2. cbn [app].
  eexists. split; [reflexivity|]. cbn [run_added run_changed run_removed].
  repeat split; auto; try (now apply (C p c)).
Qed.

(** X19.  Whatever the previous snapshot holds, records or not,
    [compareCourses] does not throw: [p.hash] is read only of a value
    that passed [!p].  Every added record is a value of the current
    snapshot, every change pairs a value of the previous with a value of
    the current one, and every removed value is a value of the previous
    one. *)
Theorem compareCourses_run_total (prev : ValueMap) (curr : CourseMap) :
  exists d,
    compareCourses_run prev curr = Normal d
    /\ (forall c, In c (run_added d) -> In c (map snd curr))
    /\ (forall p c, In (p, c) (run_changed d) ->
                    In p (map snd prev) /\ In c (map snd curr))
    /\ (forall p, In p (run_removed d) -> In p (map snd prev))
    /\ length (run_added d) + length (run_changed d) <= length curr
    /\ length (run_removed d) <= length prev.
Proof. exact (compareCourses_run_values prev curr). Qed.

Lemma loadPrev_returns
    (FS : Type) (readFileSync : FS -> jsstring -> Completion jsstring)
    (fs : FS) (filePath : jsstring) :
  exists m, loadPrev readFileSync fs filePath = Normal m.
Proof.
  unfold loadPrev.
  destruct (readFileSync fs filePath) as [raw|e]; cbn [bind try_catch]; [|eauto].
  destruct (JSON_parse raw) as [arr|e]; cbn [bind try_catch]; [|eauto].
  destruct (Array_map arr _) as [entries|e]; cbn [bind try_catch]; eauto.
Qed.

Lemma loadPrev_after_saveCurr
    (FS : Type)
    (readFileSync : FS -> jsstring -> Completion jsstring)
    (writeFileSync : FS -> jsstring -> jsstring -> Completion FS)
    (existsSync : FS -> jsstring -> bool)
    (mkdirSync : FS -> jsstring -> Completion FS)
    (dirname : jsstring -> jsstring)
    (fs fs' : FS) (filePath : jsstring) (courses : list Course) :
  reads_what_was_written readFileSync writeFileSync ->
  saveCurr writeFileSync existsSync mkdirSync dirname fs filePath courses
  = Normal fs' ->
  loadPrev readFileSync fs' filePath = Normal (untyped (snapshot_of courses)).
Proof.
  intros Law H. unfold saveCurr in H.
  assert (R : readFileSync fs' filePath = Normal (JSON_stringify courses)).
  { destruct (if negb (existsSync fs (dirname filePath))
              then mkdirSync fs (dirname filePath) else Normal fs) as [fs1|e];
      [|discriminate].
    cbn [bind] in H.
    exact (Law fs1 filePath _ fs' (well_formed_stringify courses) H). }
  unfold loadPrev. rewrite R. cbn [bind]. rewrite JSON_parse_stringify.
  cbn [bind Array_map]. rewrite map_entries. cbn [bind try_catch].
  now rewrite new_Map_untyped.
Qed.

(** X20.  A run that starts from the file an earlier run saved reports
    the typed comparison of the two lists' snapshots, and does nothing
    else than notify and save: it fails only if the notification or the
    saving fails, and the notification comes first. *)
Theorem main_after_save
    (FS : Type)
    (readFileSync : FS -> jsstring -> Completion jsstring)
    (writeFileSync : FS -> jsstring -> jsstring -> Completion FS)
    (existsSync : FS -> jsstring -> bool)
    (mkdirSync : FS -> jsstring -> Completion FS)
    (dirname : jsstring -> jsstring)
    (OUTPUT_JSON : jsstring) (notify : RunDiff -> Completion unit)
    (fs0 fs : FS) (prevArr currArr : list Course) :
  reads_what_was_written readFileSync writeFileSync ->
  saveCurr writeFileSync existsSync mkdirSync dirname fs0 OUTPUT_JSON prevArr
  = Normal fs ->
  main readFileSync writeFileSync existsSync mkdirSync dirname OUTPUT_JSON
    notify fs currArr
  = let diffs :=
      run_diff_of (compareCourses (snapshot_of prevArr) (snapshot_of currArr)) in
    bind (notify diffs) (fun _ =>
    bind (saveCurr writeFileSync existsSync mkdirSync dirname fs OUTPUT_JSON
            currArr)
      (fun fs' => Normal (diffs, fs'))).
Proof.
  intros Law H. unfold main.
  rewrite (loadPrev_after_saveCurr _ _ _ _ _ _ _ _ _ _ Law H). cbn [bind].
  rewrite compareCourses_run_eq. reflexivity.
Qed.

Lemma main_after_save_witness :
  reads_what_was_written MemFS.readFileSync MemFS.writeFileSync
  /\ MemFS.save MemFS.empty SampleStore.path SampleStore2.courses
     = Normal SampleStore2.saved
  /\ SampleRun.main SampleStore2.saved SampleRun2.next
     = bind (SampleRun.notify_ok
               (run_diff_of (compareCourses (snapshot_of SampleStore2.courses)
                               (snapshot_of SampleRun2.next))))
         (fun _ =>
          bind (MemFS.save SampleStore2.saved SampleStore.path
                  SampleRun2.next)
            (fun fs' =>
               Normal (run_diff_of
                         (compareCourses (snapshot_of SampleStore2.courses)
                            (snapshot_of SampleRun2.next)), fs'))).
Proof.
  split; [exact MemFS_reads_what_was_written | split; [reflexivity|]].
  exact (main_after_save MemFS.t MemFS.readFileSync MemFS.writeFileSync
           MemFS.existsSync MemFS.mkdirSync MemFS.dirname SampleStore.path
           SampleRun.notify_ok MemFS.empty SampleStore2.saved
           SampleStore2.courses SampleRun2.next
           MemFS_reads_what_was_written eq_refl).
Defined.

(** X21.  A second run on the list the first run saved reports no
    difference, whatever the list holds, records that share an identifier
    included. *)
Theorem main_rerun_quiet
    (FS : Type)
    (readFileSync : FS -> jsstring -> Completion jsstring)
    (writeFileSync : FS -> jsstring -> jsstring -> Completion FS)
    (existsSync : FS -> jsstring -> bool)
    (mkdirSync : FS -> jsstring -> Completion FS)
    (dirname : jsstring -> jsstring)
    (OUTPUT_JSON : jsstring) (notify : RunDiff -> Completion unit)
    (fs fs1 fs2 : FS) (arr : list Course) (d1 d2 : RunDiff) :
  reads_what_was_written readFileSync writeFileSync ->
  main readFileSync writeFileSync existsSync mkdirSync dirname OUTPUT_JSON
    notify fs arr = Normal (d1, fs1) ->
  main readFileSync writeFileSync existsSync mkdirSync dirname OUTPUT_JSON
    notify fs1 arr = Normal (d2, fs2) ->
  d2 = {| run_added := []; run_changed := []; run_removed := [] |}.
Proof.
  intros Law H1 H2. unfold main in H1.
  destruct (loadPrev readFileSync fs OUTPUT_JSON) as [prev|e]; [|discriminate].
  cbn [bind] in H1.
  destruct (compareCourses_run prev (snapshot_of arr)) as [d|e]; [|discriminate].
  cbn [bind] in H1.
  destruct (notify d) as [[]|e]; [|discriminate]. cbn [bind] in H1.
  destruct (saveCurr writeFileSync existsSync mkdirSync dirname fs OUTPUT_JSON arr)
    as [fs'|e] eqn:S; [|discriminate].
  cbn [bind] in H1. assert (F : fs' = fs1) by congruence. subst fs'.
  unfold main in H2.
  rewrite (loadPrev_after_saveCurr _ _ _ _ _ _ _ _ _ _ Law S) in H2.
  cbn [bind] in H2. rewrite compareCourses_run_eq in H2. cbn [bind] in H2.
  rewrite (compareCourses_self _ (proj1 (snapshot_of_ok arr))) in H2.
  clear S. revert H2.
  destruct (notify _) as [[]|e]; [|discriminate]. cbn [bind].
  destruct (saveCurr _ _ _ _ _ _ _) as [fs''|e]; [|discriminate].
  cbn [bind]. intros H2. injection H2 as E2 _. now rewrite <- E2.
Qed.

Lemma main_rerun_quiet_witness :
  reads_what_was_written MemFS.readFileSync MemFS.writeFileSync
  /\ SampleRun.main MemFS.empty SampleStore2.courses
     = Normal (fst SampleRun2.first_run, snd SampleRun2.first_run)
  /\ SampleRun.main (snd SampleRun2.first_run) SampleStore2.courses
     = Normal (fst SampleRun2.second_run, snd SampleRun2.second_run)
  /\ fst SampleRun2.second_run = SampleRun.no_difference.
Proof.
  split; [exact MemFS_reads_what_was_written|].
  assert (A : SampleRun.main MemFS.empty SampleStore2.courses
              = Normal (fst SampleRun2.first_run, snd SampleRun2.first_run))
    by (vm_compute; reflexivity).
  assert (B : SampleRun.main (snd SampleRun2.first_run) SampleStore2.courses
              = Normal (fst SampleRun2.second_run, snd SampleRun2.second_run))
    by (vm_compute; reflexivity).
  split; [exact A | split; [exact B|]].
  exact (main_rerun_quiet MemFS.t MemFS.readFileSync MemFS.writeFileSync
           MemFS.existsSync MemFS.mkdirSync MemFS.dirname SampleStore.path
           SampleRun.notify_ok MemFS.empty (snd SampleRun2.first_run)
           (snd SampleRun2.second_run) SampleStore2.courses
           (fst SampleRun2.first_run) (fst SampleRun2.second_run)
           MemFS_reads_what_was_written A B).
Defined.

(** X22.  When the history file cannot be read, a run reports every
    record of the current snapshot as added, in the order of the
    snapshot, and nothing as changed or removed. *)
Theorem main_without_history
    (FS : Type)
    (readFileSync : FS -> jsstring -> Completion jsstring)
    (writeFileSync : FS -> jsstring -> jsstring -> Completion FS)
    (existsSync : FS -> jsstring -> bool)
    (mkdirSync : FS -> jsstring -> Completion FS)
    (dirname : jsstring -> jsstring)
    (OUTPUT_JSON : jsstring) (notify : RunDiff -> Completion unit)
    (fs : FS) (arr : list Course) (e : Error) :
  readFileSync fs OUTPUT_JSON = Throw e ->
  main readFileSync writeFileSync existsSync mkdirSync dirname OUTPUT_JSON
    notify fs arr
  = let diffs := {| run_added := map snd (snapshot_of arr);
                    run_changed := []; run_removed := [] |} in
    bind (notify diffs) (fun _ =>
    bind (saveCurr writeFileSync existsSync mkdirSync dirname fs OUTPUT_JSON arr)
      (fun fs' => Normal (diffs, fs'))).
Proof.
  intros H. unfold main, loadPrev. rewrite H. cbn [bind try_catch new_Map fold_left].
  change (@nil (JsValue * JsValue)) with (untyped []).
  rewrite compareCourses_run_eq. cbn [bind].
  assert (E : run_diff_of (compareCourses [] (snapshot_of arr))
              = {| run_added := map snd (snapshot_of arr);
                   run_changed := []; run_removed := [] |}).
  { rewrite compareCourses_eq. unfold run_diff_of. cbn [added changed removed].
    unfold removed_of. cbn [filter map]. f_equal.
    - unfold added_of. f_equal. induction (snapshot_of arr) as [|x l IH]; [reflexivity|].
      cbn [filter]. rewrite has_get. cbn [get Map_get negb]. now rewrite IH.
    - unfold changed_of. induction (snapshot_of arr) as [|x l IH]; [reflexivity|].
      cbn [flat_map]. unfold change_of at 1. cbn [get Map_get app]. exact IH. }
  rewrite E. reflexivity.
Qed.

Lemma main_without_history_witness :
  MemFS.readFileSync MemFS.empty SampleStore.path
  = Throw (SystemError (js "ENOENT"))
  /\ SampleRun.main MemFS.empty SampleStore2.courses
     = bind (SampleRun.notify_ok
               {| run_added := map snd (snapshot_of SampleStore2.courses);
                  run_changed := []; run_removed := [] |})
         (fun _ =>
          bind (MemFS.save MemFS.empty SampleStore.path SampleStore2.courses)
            (fun fs' =>
               Normal ({| run_added := map snd (snapshot_of SampleStore2.courses);
                          run_changed := []; run_removed := [] |}, fs'))).
Proof.
  split; [reflexivity|].
  exact (main_without_history MemFS.t MemFS.readFileSync MemFS.writeFileSync
           MemFS.existsSync MemFS.mkdirSync MemFS.dirname SampleStore.path
           SampleRun.notify_ok MemFS.empty SampleStore2.courses
           (SystemError (js "ENOENT")) eq_refl).
Defined.

(** X23.  When the notification fails, the run fails with the error of
    the notification, whatever the history file holds: nothing before
    the notification can throw, and [saveCurr] comes after it. *)
Theorem main_notify_failure
    (FS : Type)
    (readFileSync : FS -> jsstring -> Completion jsstring)
    (writeFileSync : FS -> jsstring -> jsstring -> Completion FS)
    (existsSync : FS -> jsstring -> bool)
    (mkdirSync : FS -> jsstring -> Completion FS)
    (dirname : jsstring -> jsstring)
    (OUTPUT_JSON : jsstring) (notify : RunDiff -> Completion unit)
    (fs : FS) (arr : list Course) (e : Error) :
  (forall d, notify d = Throw e) ->
  main readFileSync writeFileSync existsSync mkdirSync dirname OUTPUT_JSON
    notify fs arr = Throw e.
Proof.
  intros H. unfold main.
  destruct (loadPrev_returns FS readFileSync fs OUTPUT_JSON) as [prev ->].
  cbn [bind].
  destruct (compareCourses_run_values prev (snapshot_of arr)) as [d [-> _]].
  cbn [bind]. now rewrite H.
Qed.

Lemma main_notify_failure_witness :
  (forall d, SampleRun.notify_down d = Throw SampleRun.network_error)
  /\ main MemFS.readFileSync MemFS.writeFileSync MemFS.existsSync
       MemFS.mkdirSync MemFS.dirname SampleStore.path SampleRun.notify_down
       SampleStore2.saved SampleRun2.next
     = Throw SampleRun.network_error.
Proof.
  split; [reflexivity|].
  exact (main_notify_failure MemFS.t MemFS.readFileSync MemFS.writeFileSync
           MemFS.existsSync MemFS.mkdirSync MemFS.dirname SampleStore.path
           SampleRun.notify_down SampleStore2.saved SampleRun2.next
           SampleRun.network_error (fun _ => eq_refl)).
Defined.

(* ================================================================== *)
(** ** The page *)
(* ================================================================== *)

Lemma replace_unit (u : N) (repl s : jsstring) :
  replace_global (match_unit u) repl s
  = flat_map (fun c => if (c =? u)%N then repl else [c]) s.
Proof.
  unfold replace_global. induction s as [|c r IH]; [reflexivity|].
  cbn [replace_scan match_unit flat_map].
  destruct (c =? u)%N; rewrite IH; reflexivity.
Qed.

Lemma flat_map_flat_map (A B C : Type) (f : A -> list B) (g : B -> list C)
    (l : list A) :
  flat_map g (flat_map f l) = flat_map (fun x => flat_map g (f x)) l.
Proof.
  induction l as [|x l IH]; [reflexivity|].
  cbn [flat_map]. now rewrite flat_map_app, IH.
Qed.

Lemma escapeHtml_one_pass (s : jsstring) :
  escapeHtml s = flat_map escape_unit s.
Proof.
  unfold escapeHtml. rewrite !replace_unit, !flat_map_flat_map.
  apply flat_map_ext. intros c. unfold escape_unit.
  destruct (c =? Html.AMP)%N eqn:A; [reflexivity|].
  cbn [flat_map app]. destruct (c =? Html.LT)%N eqn:L; [reflexivity|].
  cbn [flat_map app]. destruct (c =? Html.GT)%N eqn:G; reflexivity.
Qed.

(** X24.  The three replacements of [escapeHtml] amount to one pass that
    writes an entity for each of the three code units and copies every
    other one: the ampersands of the entities written for the brackets
    are not escaped again. *)
Theorem escapeHtml_single_pass (s t : jsstring) :
  escapeHtml s = flat_map escape_unit s
  /\ escapeHtml (s ++ t) = escapeHtml s ++ escapeHtml t
  /\ length s <= length (escapeHtml s) <= 5 * length s.
Proof.
  split; [apply escapeHtml_one_pass|]. split.
  - rewrite !escapeHtml_one_pass. apply flat_map_app.
  - rewrite escapeHtml_one_pass. induction s as [|c r IH].
    + cbn. lia.
    + cbn [flat_map length]. rewrite length_app.
      assert (E : 1 <= length (escape_unit c) <= 5).
      { unfold escape_unit.
        destruct (c =? Html.AMP)%N; [cbn; lia|].
        destruct (c =? Html.LT)%N; [cbn; lia|].
        destruct (c =? Html.GT)%N; cbn; lia. }
      lia.
Qed.

Lemma unescapeHtml_plain (c : N) (r : jsstring) :
  (c =? Html.AMP)%N = false -> unescapeHtml (c :: r) = c :: unescapeHtml r.
Proof. intros H. cbn [unescapeHtml]. now rewrite H. Qed.

Lemma unescapeHtml_entity (r : jsstring) :
  unescapeHtml (Html.AMP :: r)
  = let d := unescapeHtml r in
    match d with
    | 97 :: 109 :: 112 :: 59 :: d' => Html.AMP :: d'
    | 108 :: 116 :: 59 :: d' => Html.LT :: d'
    | 103 :: 116 :: 59 :: d' => Html.GT :: d'
    | _ => Html.AMP :: d
    end%N.
Proof. reflexivity. Qed.

(** X25.  [escapeHtml] loses nothing: reading the three entities back
    gives the text it was given. *)
Theorem escapeHtml_lossless (s : jsstring) :
  unescapeHtml (escapeHtml s) = s.
Proof.
  rewrite escapeHtml_one_pass. induction s as [|c r IH]; [reflexivity|].
  cbn [flat_map]. unfold escape_unit at 1.
  destruct (c =? Html.AMP)%N eqn:A.
  - apply N.eqb_eq in A. subst c.
    change (js "&amp;" ++ ?x) with (Html.AMP :: 97 :: 109 :: 112 :: 59 :: x)%N.
    rewrite unescapeHtml_entity. cbv zeta.
    rewrite !unescapeHtml_plain by reflexivity. rewrite IH. reflexivity.
  - destruct (c =? Html.LT)%N eqn:L.
    + apply N.eqb_eq in L. subst c.
      change (js "&lt;" ++ ?x) with (Html.AMP :: 108 :: 116 :: 59 :: x)%N.
      rewrite unescapeHtml_entity. cbv zeta.
      rewrite !unescapeHtml_plain by reflexivity. rewrite IH. reflexivity.
    + destruct (c =? Html.GT)%N eqn:G.
      * apply N.eqb_eq in G. subst c.
        change (js "&gt;" ++ ?x) with (Html.AMP :: 103 :: 116 :: 59 :: x)%N.
        rewrite unescapeHtml_entity. cbv zeta.
        rewrite !unescapeHtml_plain by reflexivity. rewrite IH. reflexivity.
      * cbn [app]. rewrite (unescapeHtml_plain _ _ A). now rewrite IH.
Qed.

Lemma count_unit_app (u : N) (a b : jsstring) :
  count_unit u (a ++ b) = count_unit u a + count_unit u b.
Proof. unfold count_unit. now rewrite filter_app, length_app. Qed.

Lemma count_unit_cons (u c : N) (r : jsstring) :
  count_unit u (c :: r) = (if (u =? c)%N then 1 else 0) + count_unit u r.
Proof. unfold count_unit. cbn [filter]. now destruct (u =? c)%N. Qed.

Lemma escapeHtml_no_bracket (s : jsstring) :
  count_unit Html.LT (escapeHtml s) = 0 /\ count_unit Html.GT (escapeHtml s) = 0.
Proof.
  rewrite escapeHtml_one_pass. induction s as [|c r [IH1 IH2]]; [split; reflexivity|].
  cbn [flat_map]. rewrite !count_unit_app, IH1, IH2. unfold escape_unit.
  destruct (c =? Html.AMP)%N eqn:A; [split; reflexivity|].
  destruct (c =? Html.LT)%N eqn:L; [split; reflexivity|].
  destruct (c =? Html.GT)%N eqn:G; [split; reflexivity|].
  rewrite !count_unit_cons. rewrite (N.eqb_sym Html.LT), L, (N.eqb_sym Html.GT), G.
  split; reflexivity.
Qed.

Lemma escapeHtml_other (u : N) (s : jsstring) :
  (u =? Html.AMP)%N = false -> (u =? 97)%N = false -> (u =? 109)%N = false ->
  (u =? 112)%N = false -> (u =? 59)%N = false -> (u =? 108)%N = false ->
  (u =? 116)%N = false -> (u =? 103)%N = false ->
  (u =? Html.LT)%N = false -> (u =? Html.GT)%N = false ->
  count_unit u (escapeHtml s) = count_unit u s.
Proof.
  intros A a m p sc l t g L G.
  rewrite escapeHtml_one_pass. induction s as [|c r IH]; [reflexivity|].
  cbn [flat_map]. rewrite count_unit_app, IH, count_unit_cons. f_equal.
  unfold escape_unit.
  destruct (c =? Html.AMP)%N eqn:cA.
  { apply N.eqb_eq in cA. subst c. rewrite A.
    change (js "&amp;") with [38; 97; 109; 112; 59]%N.
    rewrite !count_unit_cons. change Html.AMP with 38%N in A.
    now rewrite A, a, m, p, sc. }
  destruct (c =? Html.LT)%N eqn:cL.
  { apply N.eqb_eq in cL. subst c. rewrite L.
    change (js "&lt;") with [38; 108; 116; 59]%N.
    rewrite !count_unit_cons. change Html.AMP with 38%N in A.
    now rewrite A, l, t, sc. }
  destruct (c =? Html.GT)%N eqn:cG.
  { apply N.eqb_eq in cG. subst c. rewrite G.
    change (js "&gt;") with [38; 103; 116; 59]%N.
    rewrite !count_unit_cons. change Html.AMP with 38%N in A.
    now rewrite A, g, t, sc. }
  rewrite count_unit_cons. cbn [count_unit filter length]. lia.
Qed.

(** X26.  The text [escapeHtml] returns holds no angle bracket, and an
    ampersand for each ampersand and each bracket it was given.  A
    double quote is not one of the three: the text returned holds the
    double quotes of the text given, as they were. *)
Theorem escapeHtml_counts (s : jsstring) :
  count_unit Html.LT (escapeHtml s) = 0
  /\ count_unit Html.GT (escapeHtml s) = 0
  /\ count_unit Html.AMP (escapeHtml s)
     = count_unit Html.AMP s + count_unit Html.LT s + count_unit Html.GT s
  /\ count_unit Html.QUOT (escapeHtml s) = count_unit Html.QUOT s.
Proof.
  split; [apply escapeHtml_no_bracket|]. split; [apply escapeHtml_no_bracket|].
  split; [|apply escapeHtml_other; reflexivity].
  rewrite escapeHtml_one_pass. induction s as [|c r IH]; [reflexivity|].
  cbn [flat_map]. rewrite count_unit_app, IH, !count_unit_cons.
  unfold escape_unit.
  destruct (c =? Html.AMP)%N eqn:A.
  { apply N.eqb_eq in A. subst c. cbn. lia. }
  destruct (c =? Html.LT)%N eqn:L.
  { apply N.eqb_eq in L. subst c. cbn. lia. }
  destruct (c =? Html.GT)%N eqn:G.
  { apply N.eqb_eq in G. subst c. cbn. lia. }
  rewrite count_unit_cons, (N.eqb_sym Html.AMP), A, (N.eqb_sym Html.LT), L,
    (N.eqb_sym Html.GT), G.
  cbn [count_unit filter length]. lia.
Qed.

Lemma count_unit_template_line (u : N) (n : nat) (text : jsstring) :
  (u =? Ch.LF)%N = false -> (u =? Ch.SP)%N = false ->
  count_unit u (template_line n text) = count_unit u text.
Proof.
  intros A B. unfold template_line. rewrite count_unit_cons, A, count_unit_app.
  assert (E : count_unit u (repeat Ch.SP n) = 0).
  { induction n as [|n IH]; [reflexivity|].
    cbn [repeat]. now rewrite count_unit_cons, B, IH. }
  now rewrite E.
Qed.

Lemma row_brackets (c : Course) :
  count_unit Html.LT (row c) = 18 /\ count_unit Html.GT (row c) = 18.
Proof.
  unfold row, cell, attribute.
  split.
  - repeat first
      [ rewrite count_unit_app
      | rewrite count_unit_template_line by reflexivity
      | rewrite (proj1 (escapeHtml_no_bracket _)) ].
    reflexivity.
  - repeat first
      [ rewrite count_unit_app
      | rewrite count_unit_template_line by reflexivity
      | rewrite (proj2 (escapeHtml_no_bracket _)) ].
    reflexivity.
Qed.

(** X27.  Whatever the records hold, their rows hold eighteen opening
    and eighteen closing angle brackets each, those of the template: no
    field opens or closes a tag. *)
Theorem rows_brackets (arr : list Course) :
  count_unit Html.LT (rows arr) = 18 * length arr
  /\ count_unit Html.GT (rows arr) = 18 * length arr.
Proof.
  unfold rows.
  assert (J : forall l : list jsstring, join [] l = concat l).
  { induction l as [|x [|y l] IH]; [reflexivity | cbn; now rewrite app_nil_r |].
    change (join [] (x :: y :: l)) with (x ++ [] ++ join [] (y :: l)).
    rewrite IH. reflexivity. }
  rewrite J. induction arr as [|c arr [IH1 IH2]]; [split; reflexivity|].
  cbn [map concat length]. rewrite !count_unit_app, IH1, IH2.
  destruct (row_brackets c) as [-> ->]. split; lia.
Qed.

(* ================================================================== *)
(** ** The message *)
(* ================================================================== *)

Lemma join_starts (sep h : jsstring) (c : N) (rest : list jsstring) :
  exists x, join sep ((c :: h) :: rest) = c :: x.
Proof. destruct rest as [|y rest]; cbn [join app]; eauto. Qed.

Lemma block_nil (A : Type) (label : jsstring) (cap : nat)
    (line : A -> jsstring) (l : list A) :
  block label cap line l = [] <-> l = [].
Proof.
  unfold block. destruct l as [|x l]; cbn [length]; split; intros H;
    try reflexivity; discriminate.
Qed.

Lemma block_starts (A : Type) (c : N) (label : jsstring) (cap : nat)
    (line : A -> jsstring) (l : list A) :
  l <> [] ->
  exists h rest, block (c :: label) cap line l = (c :: h) :: rest.
Proof.
  intros H. unfold block. destruct l as [|x l]; [congruence|].
  cbn [length]. unfold header. cbn [app]. eauto.
Qed.

(** X28.  The text of the message is the fixed text for no difference
    exactly when the three lists are empty; otherwise it starts with the
    header of the first list that is not empty. *)
Theorem notify_text_no_difference (diffs : DiffResult) :
  notify_text diffs = Ja.no_difference
  <-> added diffs = [] /\ changed diffs = [] /\ removed diffs = [].
Proof.
  unfold notify_text, notify_lines.
  assert (S : forall (c : N) h rest tail,
    (c =? 24046)%N = false ->
    (let text := join [Ch.LF] (((c :: h) :: rest) ++ tail) in
     if is_nil text then Ja.no_difference else text) <> Ja.no_difference).
  { intros c h rest tail Hc. cbn [app].
    destruct (join_starts [Ch.LF] h c (rest ++ tail)) as [x ->].
    cbv zeta. cbn [is_nil]. unfold Ja.no_difference. intros E.
    injection E as E _. subst c. discriminate Hc. }
  split.
  - intros H.
    destruct (added diffs) as [|a la] eqn:Ea.
    + destruct (changed diffs) as [|b lb] eqn:Eb.
      * destruct (removed diffs) as [|r lr] eqn:Er; [auto|].
        exfalso. revert H.
        destruct (block_starts Course 21066%N [38500%N] 5 removed_line (r :: lr))
          as [h [rest E]]; [discriminate|].
        change (block Ja.added 10 added_line []) with (@nil jsstring).
        change (block Ja.updated 10 changed_line []) with (@nil jsstring).
        cbn [app]. change Ja.removed with [21066%N; 38500%N]. rewrite E.
        rewrite <- (app_nil_r ((21066%N :: h) :: rest)).
        now apply S.
      * exfalso. revert H.
        destruct (block_starts Change 26356%N [26032%N] 10 changed_line (b :: lb))
          as [h [rest E]]; [discriminate|].
        change (block Ja.added 10 added_line []) with (@nil jsstring).
        cbn [app]. change Ja.updated with [26356%N; 26032%N]. rewrite E.
        now apply S.
    + exfalso. revert H.
      destruct (block_starts Course 36861%N [21152%N] 10 added_line (a :: la))
        as [h [rest E]]; [discriminate|].
      change Ja.added with [36861%N; 21152%N]. rewrite E.
      now apply S.
  - intros [-> [-> ->]]. reflexivity.
Qed.

Lemma block_length (A : Type) (label : jsstring) (cap : nat)
    (line : A -> jsstring) (l : list A) :
  length (block label cap line l)
  = match l with
    | [] => 0
    | _ => 1 + Nat.min cap (length l)
    end.
Proof.
  unfold block. destruct l as [|x l]; [reflexivity|].
  cbn [length app Nat.add]. now rewrite length_map, length_firstn.
Qed.

Lemma count_unit_join (u : N) (parts : list jsstring) :
  count_unit u (join [u] parts)
  = Nat.pred (length parts) + list_sum (map (count_unit u) parts).
Proof.
  induction parts as [|p [|p' parts] IH]; [reflexivity| |].
  - cbn [join length Nat.pred map list_sum fold_right]. lia.
  - change (join [u] (p :: p' :: parts)) with (p ++ [u] ++ join [u] (p' :: parts)).
    rewrite !count_unit_app, IH. cbn [map list_sum fold_right length Nat.pred].
    rewrite count_unit_cons, N.eqb_refl. cbn [count_unit filter length]. lia.
Qed.

(** X29.  The array [lines] has at most twenty-eight entries: a header
    for each list that is not empty, and an entry for each of the first
    ten added, the first ten changed and the first five removed records.
    The text has a line feed between two entries and the line feeds the
    entries hold themselves; so it has at most twenty-eight lines when
    no entry holds a line feed, and more when one does. *)
Theorem notify_lines_bounded (diffs : DiffResult) :
  length (notify_lines diffs)
  = block_lines 10 (length (added diffs))
    + block_lines 10 (length (changed diffs))
    + block_lines 5 (length (removed diffs))
  /\ length (notify_lines diffs) <= 28
  /\ length (notify_lines diffs)
     <= 3 + length (added diffs) + length (changed diffs)
        + length (removed diffs)
  /\ count_unit Ch.LF (notify_text diffs)
     = Nat.pred (length (notify_lines diffs))
       + list_sum (map (count_unit Ch.LF) (notify_lines diffs))
  /\ (Forall (fun entry => count_unit Ch.LF entry = 0) (notify_lines diffs) ->
      count_unit Ch.LF (notify_text diffs) <= 27).
Proof.
  assert (L : length (notify_lines diffs)
              = block_lines 10 (length (added diffs))
                + block_lines 10 (length (changed diffs))
                + block_lines 5 (length (removed diffs))).
  { unfold notify_lines, block_lines. rewrite !length_app, !block_length.
    destruct (added diffs), (changed diffs), (removed diffs); cbn [length]; lia. }
  assert (B : length (notify_lines diffs) <= 28
              /\ length (notify_lines diffs)
                 <= 3 + length (added diffs) + length (changed diffs)
                    + length (removed diffs)).
  { rewrite L. unfold block_lines.
    destruct (added diffs), (changed diffs), (removed diffs); cbn [length]; lia. }
  assert (C : count_unit Ch.LF (notify_text diffs)
              = Nat.pred (length (notify_lines diffs))
                + list_sum (map (count_unit Ch.LF) (notify_lines diffs))).
  { rewrite <- count_unit_join. unfold notify_text. cbv zeta.
    destruct (join [Ch.LF] (notify_lines diffs)); reflexivity. }
  split; [exact L | split; [apply B | split; [apply B | split; [exact C|]]]].
  intros F. rewrite C.
  assert (Z : forall entries : list jsstring,
            Forall (fun entry => count_unit Ch.LF entry = 0) entries ->
            list_sum (map (count_unit Ch.LF) entries) = 0).
  { clear. intros entries F. induction F as [|x l Hx Hl IH]; [reflexivity|].
    change (count_unit Ch.LF x + list_sum (map (count_unit Ch.LF) l) = 0).
    cbv beta in Hx. rewrite Hx, IH. reflexivity. }
  rewrite (Z _ F). destruct B as [B _]. lia.
Qed.

(** A title with a line feed in it: two entries, three lines. *)
Example notify_lines_sample :
  length (notify_lines
            {| added := [Sample.course "C1" "Logic" "a"];
               changed := []; removed := [] |}) = 2
  /\ count_unit Ch.LF
       (notify_text
          {| added := [SampleNotify.two_lines]; changed := []; removed := [] |})
     = 2.
Proof. vm_compute. split; reflexivity. Qed.

Lemma JSON_parse_body (text : jsstring) :
  JSON_parse (notify_body text) = Normal (VObj [(js "text", VStr text)]).
Proof.
  unfold JSON_parse.
  assert (F : exists n, 2 * length (notify_body text) + 2 = S (S (S n))).
  { unfold notify_body. rewrite length_app. cbn [length js map list_ascii_of_string].
    eexists. cbn [Nat.mul Nat.add]. rewrite Nat.add_comm. cbn [Nat.add].
    reflexivity. }
  destruct F as [n ->].
  assert (P : parse_value (S (S (S n))) (notify_body text)
              = Some (VObj [(js "text", VStr text)], [])).
  { unfold notify_body.
    change (js "{" ++ JSON_quote (js "text") ++ ?x)
      with (123 :: 34 :: (quote_body (js "text") ++ [34]) ++ x)%N.
    change (parse_value (S (S (S n))) (123 :: 34 :: ?y)%N)
      with (parse_members (S (S n)) (34 :: y)%N []).
    change (parse_members (S (S n)) (34 :: ?y)%N [])
      with (match parse_string_body y with
            | Some (k', r1) =>
                match skip_ws r1 with
                | colon :: r2 =>
                    if (colon =? 58)%N then
                      match parse_value (S n) r2 with
                      | Some (v', r3) =>
                          match skip_ws r3 with
                          | c :: r4 =>
                              if (c =? 44)%N
                              then parse_members (S n) r4 (obj_set [] k' v')
                              else if (c =? 125)%N
                              then Some (VObj (obj_set [] k' v'), r4)
                              else None
                          | [] => None
                          end
                      | None => None
                      end
                    else None
                | [] => None
                end
            | None => None
            end).
    rewrite <- app_assoc. cbn [app]. rewrite parse_quote_body.
    change (js ":" ++ ?x) with (58%N :: x).
    change (skip_ws (58%N :: ?x)) with (58%N :: x).
    cbn [N.eqb Pos.eqb]. rewrite parse_value_quote.
    reflexivity. }
  rewrite P. reflexivity.
Qed.

(** X30.  [notifySlack] makes no request when the webhook is the empty
    string.  For every other webhook it posts to the webhook a body that
    is JSON for an object whose only property is [text], and parsing it
    gives the text of the message, every code unit as it was. *)
Theorem notify_body_parses (diffs : DiffResult) :
  notifySlack [] diffs = None
  /\ forall (c : N) (r : jsstring),
       exists body,
         notifySlack (c :: r) diffs
         = Some {| request_url := c :: r; request_body := body |}
         /\ JSON_parse body
            = Normal (VObj [(js "text", VStr (notify_text diffs))]).
Proof.
  split; [reflexivity|]. intros c r. unfold notifySlack. cbn [is_nil].
  eexists. split; [reflexivity|]. apply JSON_parse_body.
Qed.
